(** * CaseIterDriverBase: a shallow embedding of
    [openmdao/lib/drivers/caseiterdriver.py]

    The driver pulls cases from an iterator and evaluates them either
    in-process ([sequential]) or on servers obtained from the resource
    allocation manager, one worker thread per server.  The embedding keeps
    the attribute and method names of the Python class.  Everything the
    driver calls but does not define (the model, the allocator, file
    transfer) is an oracle of the environment record [Env], threaded through
    an abstract world state. *)

From stdpp Require Import gmap strings list fin_maps.
From Stdlib Require Import ZArith Lia.

Set Default Proof Using "Type".

(** ** Data *)

(** Keys of the per-server dictionaries.  [None] is the key the sequential
    path uses ([self._server_states[None]]); [Some k] stands for the worker
    name ['%s_%d' % (self.name, k)]. *)
Abbreviation server := (option nat).

Definition handle : Type := nat.   (* what [RAM.allocate] hands out *)
Definition tlo : Type := nat.      (* proxy of a loaded top-level object *)
Definition egg : Type := string.   (* egg file name *)
Definition value : Type := Z.
Definition index : Type := option (list Z).

(** A [Case] object.  [cid] is the identity of the Python object: the driver
    mutates cases in place and moves references between queues, never
    copies them.  [max_retries] and [msg] may be [None]. *)
Module Case.
Record t : Type := mk {
  cid : nat;
  inputs : list (string * index * value);
  outputs : list (string * index * option value);
  max_retries : option Z;
  retries : Z;
  msg : option string
}.

Definition set_outputs (v : list (string * index * option value)) (c : t) : t :=
  mk (cid c) (inputs c) v (max_retries c) (retries c) (msg c).
Definition set_max_retries (v : option Z) (c : t) : t :=
  mk (cid c) (inputs c) (outputs c) v (retries c) (msg c).
Definition set_retries (v : Z) (c : t) : t :=
  mk (cid c) (inputs c) (outputs c) (max_retries c) v (msg c).
Definition set_msg (v : option string) (c : t) : t :=
  mk (cid c) (inputs c) (outputs c) (max_retries c) (retries c) v.
End Case.
Abbreviation Case := Case.t.

(** Server states: the module constants ['empty'], ['ready'], ['complete']
    and ['error']. *)
Inductive state : Type := _EMPTY | _READY | _COMPLETE | _ERROR.

#[global] Instance state_eq_dec : EqDecision state.
Proof. solve_decision. Defined.

(** Exceptions that travel through the driver. *)
Inductive exn : Type :=
| StopIteration
| RuntimeError (text : string)
| RunStopped (text : string)
| ValueError (text : string)
| _ServerError (text : string)
| KeyError
| AttributeError
| UnboundLocalError
| Exception (text : string).   (* anything raised by the model or a server *)

(** [str(exc)]; the texts of the built-in errors are abbreviated. *)
Definition str (e : exn) : string :=
  match e with
  | StopIteration => ""
  | RuntimeError t | RunStopped t | ValueError t | _ServerError t | Exception t => t
  | KeyError => "KeyError"
  | AttributeError => "AttributeError"
  | UnboundLocalError => "UnboundLocalError"
  end.

(** Python truth value of an optional string, an optional integer, a list. *)
Definition truthy_str (o : option string) : bool :=
  match o with Some s => negb (String.eqb s "") | None => false end.
Definition truthy_int (o : option Z) : bool :=
  match o with Some z => negb (z =? 0)%Z | None => false end.
Definition truthy_list {A} (l : list A) : bool :=
  match l with [] => false | _ => true end.

(** Python 2 orders [None] below every integer. *)
Definition lt_int_opt (a : Z) (b : option Z) : bool :=
  match b with Some z => (a <? z)%Z | None => false end.

(** What travels on the queues. *)
Inductive request : Type :=
| _remote_load_model_req (s : server)      (* (self._remote_load_model, server) *)
| _remote_model_execute_req (s : server).  (* (self._remote_model_execute, server) *)

(** The [result] slot of a reply: [True]/[False], or the [None] a method
    without return value yields. *)
Inductive result : Type := RBool (b : bool) | RNone.

Definition reply : Type := (server * result * option exn)%type.

(** What a call into external code can do. *)
Inductive outcome (A : Type) : Type :=
| Returns (a : A)
| Raises (text : string).
Arguments Returns {A} a.
Arguments Raises {A} text.

(** Calls on the resource allocator and the file transfer, in order. *)
Inductive event : Type :=
| Allocated (k : nat) (h : option handle)
| Released (h : handle)
| Filexfer (s : server) (e : option egg).

(** Program counter of a worker thread running [_service_loop]. *)
Inductive thread : Type :=
| TAllocate                                   (* before [RAM.allocate] *)
| TRegister (h : handle)                      (* before [with self._server_lock] *)
| TAckStartup (h : handle)                    (* before the startup [reply_q.put] *)
| TServe (h : handle) (res : option result)   (* at [request_q.get()]; [res] is the local [result] *)
| TRelease (h : handle)                       (* in the [finally] clause *)
| TExit.

(** What another thread can do next: the coordinator (the thread running
    [_start]), the worker thread of server [k], or some thread calling
    [stop()]. *)
Inductive action : Type := Coord | Work (k : nat) | Stop.

(** Where the coordinator stands inside [_start]; [max_servers] and
    [n_servers] are its local variables. *)
Inductive coord : Type :=
| CStartup (max_servers : Z) (n_servers : nat)  (* at [while n_servers < max_servers] *)
| CPoll (max_servers : Z) (n_servers : nat)     (* at the inner [while self._busy()] *)
| CMain                                         (* at the main [while self._busy()] *)
| CShutdown (i : nat)                           (* iterations left of the shut-down wait *)
| CDone                                         (* [_start] returned *)
| CRaised (e : exn).                            (* [_start] raised *)

(** ** The driver object *)

(** Public traits and what [get_events], [get_pathname] and
    [raise_exception] of the base classes supply; the driver code never
    assigns them. *)
Record Traits : Type := {
  recorder : bool;                  (* [self.recorder is not None] *)
  sequential : bool;
  reload_model : bool;
  max_retries : Z;                  (* Int(1, low=0) *)
  iterator : option (list Case);    (* CaseIteratorDriver.iterator *)
  get_events : list string;
  get_pathname : string;
  exception_text : string -> string (* full text built by [raise_exception] *)
}.

(** The private attributes set up in [__init__]. *)
#[projections(primitive)]
Record Driver : Type := {
  _stop : bool;
  _iter : option (list Case);        (* [None] when the iterator is empty *)
  _replicants : nat;
  _egg_file : option egg;
  _reply_q : bool;                   (* [self._reply_q is not None] *)
  _server_lock : bool;               (* [self._server_lock is not None] *)
  _servers : gmap server (option handle);
  _top_levels : gmap server tlo;
  _server_info : gmap server (option egg);   (* the ['egg_file'] entry of the info dict *)
  _queues : gmap server nat;         (* name -> request queue object *)
  _in_use : gmap server bool;
  _server_states : gmap server state;
  _server_cases : gmap server (option Case);
  _exceptions : gmap server (option exn);
  _todo : list Case;                 (* cases grabbed during server startup *)
  _rerun : list Case                 (* cases that failed and should be retried *)
}.

Definition set_stop v d := Build_Driver v (_iter d) (_replicants d) (_egg_file d)
  (_reply_q d) (_server_lock d) (_servers d) (_top_levels d) (_server_info d)
  (_queues d) (_in_use d) (_server_states d) (_server_cases d) (_exceptions d)
  (_todo d) (_rerun d).
Definition set_iter v d := Build_Driver (_stop d) v (_replicants d) (_egg_file d)
  (_reply_q d) (_server_lock d) (_servers d) (_top_levels d) (_server_info d)
  (_queues d) (_in_use d) (_server_states d) (_server_cases d) (_exceptions d)
  (_todo d) (_rerun d).
Definition set_replicants v d := Build_Driver (_stop d) (_iter d) v (_egg_file d)
  (_reply_q d) (_server_lock d) (_servers d) (_top_levels d) (_server_info d)
  (_queues d) (_in_use d) (_server_states d) (_server_cases d) (_exceptions d)
  (_todo d) (_rerun d).
Definition set_egg_file v d := Build_Driver (_stop d) (_iter d) (_replicants d) v
  (_reply_q d) (_server_lock d) (_servers d) (_top_levels d) (_server_info d)
  (_queues d) (_in_use d) (_server_states d) (_server_cases d) (_exceptions d)
  (_todo d) (_rerun d).
Definition set_reply_q v d := Build_Driver (_stop d) (_iter d) (_replicants d) (_egg_file d)
  v (_server_lock d) (_servers d) (_top_levels d) (_server_info d)
  (_queues d) (_in_use d) (_server_states d) (_server_cases d) (_exceptions d)
  (_todo d) (_rerun d).
Definition set_server_lock v d := Build_Driver (_stop d) (_iter d) (_replicants d) (_egg_file d)
  (_reply_q d) v (_servers d) (_top_levels d) (_server_info d)
  (_queues d) (_in_use d) (_server_states d) (_server_cases d) (_exceptions d)
  (_todo d) (_rerun d).
Definition set_servers v d := Build_Driver (_stop d) (_iter d) (_replicants d) (_egg_file d)
  (_reply_q d) (_server_lock d) v (_top_levels d) (_server_info d)
  (_queues d) (_in_use d) (_server_states d) (_server_cases d) (_exceptions d)
  (_todo d) (_rerun d).
Definition set_top_levels v d := Build_Driver (_stop d) (_iter d) (_replicants d) (_egg_file d)
  (_reply_q d) (_server_lock d) (_servers d) v (_server_info d)
  (_queues d) (_in_use d) (_server_states d) (_server_cases d) (_exceptions d)
  (_todo d) (_rerun d).
Definition set_server_info v d := Build_Driver (_stop d) (_iter d) (_replicants d) (_egg_file d)
  (_reply_q d) (_server_lock d) (_servers d) (_top_levels d) v
  (_queues d) (_in_use d) (_server_states d) (_server_cases d) (_exceptions d)
  (_todo d) (_rerun d).
Definition set_queues v d := Build_Driver (_stop d) (_iter d) (_replicants d) (_egg_file d)
  (_reply_q d) (_server_lock d) (_servers d) (_top_levels d) (_server_info d)
  v (_in_use d) (_server_states d) (_server_cases d) (_exceptions d)
  (_todo d) (_rerun d).
Definition set_in_use v d := Build_Driver (_stop d) (_iter d) (_replicants d) (_egg_file d)
  (_reply_q d) (_server_lock d) (_servers d) (_top_levels d) (_server_info d)
  (_queues d) v (_server_states d) (_server_cases d) (_exceptions d)
  (_todo d) (_rerun d).
Definition set_server_states v d := Build_Driver (_stop d) (_iter d) (_replicants d) (_egg_file d)
  (_reply_q d) (_server_lock d) (_servers d) (_top_levels d) (_server_info d)
  (_queues d) (_in_use d) v (_server_cases d) (_exceptions d)
  (_todo d) (_rerun d).
Definition set_server_cases v d := Build_Driver (_stop d) (_iter d) (_replicants d) (_egg_file d)
  (_reply_q d) (_server_lock d) (_servers d) (_top_levels d) (_server_info d)
  (_queues d) (_in_use d) (_server_states d) v (_exceptions d)
  (_todo d) (_rerun d).
Definition set_exceptions v d := Build_Driver (_stop d) (_iter d) (_replicants d) (_egg_file d)
  (_reply_q d) (_server_lock d) (_servers d) (_top_levels d) (_server_info d)
  (_queues d) (_in_use d) (_server_states d) (_server_cases d) v
  (_todo d) (_rerun d).
Definition set_todo v d := Build_Driver (_stop d) (_iter d) (_replicants d) (_egg_file d)
  (_reply_q d) (_server_lock d) (_servers d) (_top_levels d) (_server_info d)
  (_queues d) (_in_use d) (_server_states d) (_server_cases d) (_exceptions d)
  v (_rerun d).
Definition set_rerun v d := Build_Driver (_stop d) (_iter d) (_replicants d) (_egg_file d)
  (_reply_q d) (_server_lock d) (_servers d) (_top_levels d) (_server_info d)
  (_queues d) (_in_use d) (_server_states d) (_server_cases d) (_exceptions d)
  (_todo d) v.

(** [__init__]. *)
Definition init_driver : Driver :=
  Build_Driver false None 0 None false false ∅ ∅ ∅ ∅ ∅ ∅ ∅ ∅ [] [].

(** ** The environment *)

(** External code, as state transformers on a world [W]. *)
Record Env (W : Type) : Type := {
  (* the in-process model: [self.parent], [self.workflow] *)
  parent_set : string -> value -> index -> W -> W * outcome unit;
  parent_get : string -> index -> W -> W * outcome value;
  (* [self.workflow.run()]; the flag tells whether the run called [stop()]
     on the driver *)
  workflow_run : W -> W * bool * outcome unit;
  (* a top-level object loaded into a server *)
  tlo_set : tlo -> string -> value -> index -> W -> W * outcome unit;
  tlo_get : tlo -> string -> index -> W -> W * outcome value;
  tlo_run : tlo -> W -> W * outcome unit;
  (* the resource allocation manager *)
  RAM_max_servers : W -> Z;
  RAM_allocate : nat -> W -> W * option handle;
  (* [filexfer] of an egg to a server, [server.load_model(egg)] *)
  filexfer : option handle -> option egg -> W -> W * outcome unit;
  server_load_model : handle -> option egg -> W -> W * outcome (option tlo);
  (* [self.parent.save_to_egg(self.name, version)], [os.path.exists],
     [os.remove] *)
  save_to_egg : nat -> W -> W * egg;
  path_exists : egg -> W -> bool;
  os_remove : egg -> W -> W
}.
Arguments parent_set {W}. Arguments parent_get {W}. Arguments workflow_run {W}.
Arguments tlo_set {W}. Arguments tlo_get {W}. Arguments tlo_run {W}.
Arguments RAM_max_servers {W}. Arguments RAM_allocate {W}.
Arguments filexfer {W}. Arguments server_load_model {W}.
Arguments save_to_egg {W}. Arguments path_exists {W}. Arguments os_remove {W}.

(** The whole system: the driver object, the world, the recorder's contents,
    the queue objects, the worker threads and the log of allocator calls. *)
#[projections(primitive)]
Record Sys (W : Type) : Type := {
  drv : Driver;
  world : W;
  recorded : list Case;                          (* arguments of [recorder.record], in order *)
  reply_q : list reply;                          (* the queue created by [_start] *)
  request_qs : gmap nat (list (option request)); (* the request queue of each worker *)
  threads : gmap nat thread;
  trace : list event
}.
Arguments drv {W}. Arguments world {W}. Arguments recorded {W}.
Arguments reply_q {W}. Arguments request_qs {W}. Arguments threads {W}.
Arguments trace {W}. Arguments Build_Sys {W}.

Definition set_drv {W} v (s : Sys W) :=
  Build_Sys v (world s) (recorded s) (reply_q s) (request_qs s) (threads s) (trace s).
Definition set_world {W} (v : W) (s : Sys W) :=
  Build_Sys (drv s) v (recorded s) (reply_q s) (request_qs s) (threads s) (trace s).
Definition set_recorded {W} v (s : Sys W) :=
  Build_Sys (drv s) (world s) v (reply_q s) (request_qs s) (threads s) (trace s).
Definition set_reply_q_obj {W} v (s : Sys W) :=
  Build_Sys (drv s) (world s) (recorded s) v (request_qs s) (threads s) (trace s).
Definition set_request_qs {W} v (s : Sys W) :=
  Build_Sys (drv s) (world s) (recorded s) (reply_q s) v (threads s) (trace s).
Definition set_threads {W} v (s : Sys W) :=
  Build_Sys (drv s) (world s) (recorded s) (reply_q s) (request_qs s) v (trace s).
Definition set_trace {W} v (s : Sys W) :=
  Build_Sys (drv s) (world s) (recorded s) (reply_q s) (request_qs s) (threads s) v.

(** ** A state and exception monad *)

Inductive Res (A : Type) : Type :=
| Ok (a : A)
| Raise (e : exn)
| OutOfFuel.        (* a loop of the model ran out of fuel *)
Arguments Ok {A} a.
Arguments Raise {A} e.
Arguments OutOfFuel {A}.

Definition M (W A : Type) : Type := Sys W -> Res A * Sys W.

Definition ret {W A} (a : A) : M W A := fun s => (Ok a, s).
Definition bind {W A B} (m : M W A) (f : A -> M W B) : M W B :=
  fun s => match m s with
           | (Ok a, s') => f a s'
           | (Raise e, s') => (Raise e, s')
           | (OutOfFuel, s') => (OutOfFuel, s')
           end.
Definition raise {W A} (e : exn) : M W A := fun s => (Raise e, s).
Definition out_of_fuel {W A} : M W A := fun s => (OutOfFuel, s).

(** [try: m except <any> as e: h e]; a handler re-raises what it does not
    catch. *)
Definition try_except {W A} (m : M W A) (h : exn -> M W A) : M W A :=
  fun s => match m s with
           | (Raise e, s') => h e s'
           | r => r
           end.

(** [try: m finally: f]. *)
Definition try_finally {W A} (m : M W A) (f : M W unit) : M W A :=
  fun s => match m s with
           | (r, s') =>
               match f s' with
               | (Ok _, s'') => (r, s'')
               | (Raise e, s'') => (Raise e, s'')
               | (OutOfFuel, s'') => (OutOfFuel, s'')
               end
           end.

#[global] Instance M_ret {W} : MRet (M W) := fun A => @ret W A.
#[global] Instance M_bind {W} : MBind (M W) := fun A B f m => @bind W A B m f.

Definition get_sys {W} : M W (Sys W) := fun s => (Ok s, s).
Definition self_ {W} : M W Driver := fun s => (Ok (drv s), s).
Definition assign {W} (f : Driver -> Driver) : M W unit :=
  fun s => (Ok tt, set_drv (f (drv s)) s).
Definition update {W} (f : Sys W -> Sys W) : M W unit :=
  fun s => (Ok tt, f s).

(** [d[k]], raising [KeyError] on a missing key. *)
Definition getitem {W K A} `{Countable K} (m : gmap K A) (k : K) : M W A :=
  match m !! k with Some a => ret a | None => raise KeyError end.

(** A call into external code; what it raises is an [Exception]. *)
Definition call {W A} (f : W -> W * outcome A) : M W A :=
  fun s => match f (world s) with
           | (w, Returns a) => (Ok a, set_world w s)
           | (w, Raises t) => (Raise (Exception t), set_world w s)
           end.

(** ** The methods of [CaseIterDriverBase] *)

Section Model.
Context {W : Type} (E : Env W) (self : Traits).

(** [self.raise_exception(msg, cls)] of the component base class. *)
Definition raise_exception {A} (msg : string) (cls : string -> exn) : M W A :=
  raise (cls (exception_text self msg)).

Definition record (case : Case) : M W unit :=
  update (fun s => set_recorded (recorded s ++ [case]) s).

Definition log (ev : event) : M W unit :=
  update (fun s => set_trace (trace s ++ [ev]) s).

(** [self._queues[server].put(item)] *)
Definition queue_put (s : server) (item : option request) : M W unit :=
  d ← self_;
  q ← getitem (_queues d) s;
  update (fun st =>
    set_request_qs (<[q := default [] (request_qs st !! q) ++ [item]]> (request_qs st)) st).

Definition reply_put (r : reply) : M W unit :=
  update (fun s => set_reply_q_obj (reply_q s ++ [r]) s).

(** [self._iter.next()] *)
Definition next : M W Case :=
  d ← self_;
  match _iter d with
  | None => raise AttributeError
  | Some [] => raise StopIteration
  | Some (c :: rest) => assign (set_iter (Some rest));; mret c
  end.

Definition stop : M W unit := assign (set_stop true).

Definition _busy (d : Driver) : bool :=
  bool_decide (map_Exists (fun _ b => b = true) (_in_use d)).

(** The [remove_egg] argument is not looked at by the body. *)
Definition _cleanup (remove_egg : bool) : M W unit :=
  assign (set_reply_q false);;
  assign (set_server_lock false);;
  assign (set_servers ∅);;
  assign (set_top_levels ∅);;
  assign (set_server_info ∅);;
  assign (set_queues ∅);;
  assign (set_in_use ∅);;
  assign (set_server_states ∅);;
  assign (set_server_cases ∅);;
  assign (set_exceptions ∅);;
  assign (set_todo []);;
  assign (set_rerun []);;
  d ← self_;
  st ← get_sys;
  match _egg_file d with
  | Some f =>
      if truthy_str (Some f) && path_exists E f (world st) then
        update (set_world (os_remove E f (world st)));;
        assign (set_egg_file None)
      else mret tt
  | None => mret tt
  end.

Definition _load_model (s : server) : M W bool :=
  match s with
  | Some _ => queue_put s (Some (_remote_load_model_req s))
  | None => mret tt
  end;;
  mret true.

(** Runs in the worker thread.  The Python comparison is [is not] on the
    egg name objects; a name is assigned once per [setup], so object
    identity and equality of names coincide. *)
Definition _remote_load_model (s : server) : M W bool :=
  d ← self_;
  egg_file ← getitem (_server_info d) s;
  (if bool_decide (egg_file = _egg_file d) then mret tt
   else
     (* Only transfer if changed. *)
     h ← getitem (_servers d) s;
     log (Filexfer s (_egg_file d));;
     call (filexfer E h (_egg_file d));;
     assign (fun d => set_server_info (<[s := _egg_file d]> (_server_info d)) d));;
  d ← self_;
  h ← getitem (_servers d) s;
  match h with
  | None => raise AttributeError
  | Some h =>
      t ← call (server_load_model E h (_egg_file d));
      match t with
      | None => mret false
      | Some t =>
          assign (fun d => set_top_levels (<[s := t]> (_top_levels d)) d);;
          mret true
      end
  end.

Definition _model_set (s : server) (name : string) (idx : index) (v : value)
  : M W unit :=
  match s with
  | None => call (parent_set E name v idx)
  | Some _ =>
      d ← self_;
      t ← getitem (_top_levels d) s;
      call (tlo_set E t name v idx)
  end.

Definition _model_get (s : server) (name : string) (idx : index) : M W value :=
  match s with
  | None => call (parent_get E name idx)
  | Some _ =>
      d ← self_;
      t ← getitem (_top_levels d) s;
      call (tlo_get E t name idx)
  end.

(** In-process, [self.workflow.run()] is run here and now and what it raises
    is kept in [_exceptions]; for a server the request is queued. *)
Definition _model_execute (s : server) : M W unit :=
  assign (fun d => set_exceptions (<[s := None]> (_exceptions d)) d);;
  match s with
  | None =>
      st ← get_sys;
      let '(w, stopped, r) := workflow_run E (world st) in
      update (set_world w);;
      (if stopped then stop else mret tt);;
      match r with
      | Returns _ => mret tt
      | Raises t =>
          assign (fun d => set_exceptions (<[s := Some (Exception t)]> (_exceptions d)) d)
      end
  | Some _ => queue_put s (Some (_remote_model_execute_req s))
  end.

(** Runs in the worker thread. *)
Definition _remote_model_execute (s : server) : M W unit :=
  try_except
    (d ← self_;
     t ← getitem (_top_levels d) s;
     call (tlo_run E t))
    (fun exc =>
       assign (fun d => set_exceptions (<[s := Some exc]> (_exceptions d)) d);;
       d ← self_;
       _ ← getitem (_server_info d) s;   (* the log line reads the info dict *)
       mret tt).

Definition _model_status (s : server) : M W (option exn) :=
  d ← self_;
  getitem (_exceptions d) s.

(** The loop over [self.get_events()] in [_run_case].  Its handler formats
    the message with [name], a local that is only bound by the loop over the
    inputs further down: the handler itself dies with [UnboundLocalError]. *)
Fixpoint set_events (s : server) (events : list string) : M W unit :=
  match events with
  | [] => mret tt
  | ev :: rest =>
      try_except (_model_set s ev None 1%Z)
        (fun exc => raise UnboundLocalError);;
      set_events s rest
  end.

(** The loop over [case.inputs] in [_run_case]. *)
Fixpoint set_inputs (s : server) (inputs : list (string * index * value))
  : M W unit :=
  match inputs with
  | [] => mret tt
  | (name, idx, v) :: rest =>
      try_except (_model_set s name idx v)
        (fun exc =>
           let msg := "Exception setting '" +:+ name +:+ "': " +:+ str exc in
           raise_exception msg _ServerError);;
      set_inputs s rest
  end.

(** Setup and run a case. *)
Definition _run_case (case : Case) (s : server) (rerun : bool) : M W unit :=
  let case :=
    if rerun then case
    else
      let case :=
        if negb (truthy_int (Case.max_retries case))
        then Case.set_max_retries (Some (max_retries self)) case
        else case in
      Case.set_retries 0 case in
  let case := Case.set_msg None case in
  assign (fun d => set_server_cases (<[s := Some case]> (_server_cases d)) d);;
  try_except
    (set_events s (get_events self);;
     set_inputs s (Case.inputs case);;
     _model_execute s;;
     assign (fun d => set_server_states (<[s := _COMPLETE]> (_server_states d)) d))
    (fun exc =>
       match exc with
       | _ServerError _ =>
           assign (fun d => set_server_states (<[s := _ERROR]> (_server_states d)) d);;
           if lt_int_opt (Case.retries case) (Case.max_retries case) then
             let case := Case.set_retries (Case.retries case + 1) case in
             (* [_server_cases[server]] is this very object *)
             assign (fun d => set_server_cases (<[s := Some case]> (_server_cases d)) d);;
             assign (fun d => set_rerun (_rerun d ++ [case]) d)
           else
             let case := Case.set_msg (Some (str exc)) case in
             assign (fun d => set_server_cases (<[s := Some case]> (_server_cases d)) d);;
             if recorder self then record case else mret tt
       | _ => raise exc
       end).

(** The loop over [enumerate(case.outputs)] in the [_COMPLETE] branch:
    grab the data from the model. *)
Fixpoint get_outputs (s : server) (pending : list (string * index * option value))
    (done : list (string * index * option value)) (case : Case) : M W Case :=
  match pending with
  | [] => mret (Case.set_outputs done case)
  | (name, idx, old) :: rest =>
      r ← try_except
            (v ← _model_get s name idx; mret (inl v))
            (fun exc => mret (inr exc));
      match r with
      | inl v => get_outputs s rest (done ++ [(name, idx, Some v)]) case
      | inr exc =>
          let msg := "Exception getting '" +:+ name +:+ "': " +:+ str exc in
          get_outputs s rest (done ++ [(name, idx, old)])
            (Case.set_msg (Some (get_pathname self +:+ ": " +:+ msg)) case)
      end
  end.

(** Responds to asynchronous callbacks during [execute] to run cases
    retrieved from [self._iter].  If [stepping], no new case is grabbed.
    Returns [true] if this server is still in use.  (The last [else] of the
    Python method, for a state that is none of the four, has no
    counterpart: [state] has four values.) *)
Definition _server_ready (s : server) (stepping : bool) : M W bool :=
  d ← self_;
  state ← getitem (_server_states d) s;
  match state with
  | _EMPTY =>
      if negb (truthy_list (_todo d)) && negb (truthy_list (_rerun d))
         && bool_decide (_iter d = None)
      then mret false
      else
        try_except
          (_load_model s;;
           assign (fun d => set_server_states (<[s := _READY]> (_server_states d)) d))
          (fun exc =>
             match exc with
             | _ServerError _ =>
                 assign (fun d => set_server_states (<[s := _ERROR]> (_server_states d)) d)
             | _ => raise exc
             end);;
        mret true
  | _READY =>
      (* Test for stop request. *)
      if _stop d then mret false
      else
        (* Select case to run. *)
        match _todo d with
        | case :: todo =>
            assign (set_todo todo);;
            _run_case case s false;;
            mret true
        | [] =>
            match _rerun d with
            | case :: rerun =>
                assign (set_rerun rerun);;
                _run_case case s true;;
                mret true
            | [] =>
                match _iter d with
                | None => mret false
                | Some _ =>
                    if stepping then mret false
                    else
                      r ← try_except (case ← next; mret (Some case))
                            (fun exc =>
                               match exc with
                               | StopIteration => mret None
                               | _ => raise exc
                               end);
                      match r with
                      | None => assign (set_iter None);; mret false
                      | Some case => _run_case case s false;; mret true
                      end
                end
            end
        end
  | _COMPLETE =>
      case ← getitem (_server_cases d) s;
      assign (fun d => set_server_cases (<[s := None]> (_server_cases d)) d);;
      try_except
        (exc ← _model_status s;
         case ← match case with
                | None => raise AttributeError
                | Some case =>
                    match exc with
                    | None => get_outputs s (Case.outputs case) [] case
                    | Some exc => mret (Case.set_msg (Some (str exc)) case)
                    end
                end;
         (* Record the data. *)
         (if recorder self then record case else mret tt);;
         (if negb (truthy_str (Case.msg case)) then
            if reload_model self then _load_model s;; mret tt else mret tt
          else _load_model s;; mret tt);;
         assign (fun d => set_server_states (<[s := _READY]> (_server_states d)) d))
        (fun exc =>
           match exc with
           | _ServerError _ => mret tt   (* Handle server error separately. *)
           | _ => raise exc
           end);;
      mret true
  | _ERROR =>
      assign (fun d => set_server_cases (<[s := None]> (_server_cases d)) d);;
      try_except
        (_load_model s;;
         assign (fun d => set_server_states (<[s := _READY]> (_server_states d)) d))
        (fun exc =>
           match exc with
           | _ServerError _ => mret tt   (* Needs work! *)
           | _ => raise exc
           end);;
      mret true
  end.

(** *** The worker threads *)

Definition set_thread (k : nat) (t : thread) : M W unit :=
  update (fun s => set_threads (<[k := t]> (threads s)) s).

(** [request[0](request[1])] *)
Definition serve (req : request) : M W result :=
  match req with
  | _remote_load_model_req s => b ← _remote_load_model s; mret (RBool b)
  | _remote_model_execute_req s => _remote_model_execute s;; mret RNone
  end.

(** One scheduling step of the thread that executes
    [_service_loop(name, resource_desc, credentials, reply_q)] for the
    server [Some k].  A thread that waits at [request_q.get()] with nothing
    queued does not move. *)
Definition _service_loop_step (k : nat) : M W unit :=
  let name : server := Some k in
  st ← get_sys;
  match threads st !! k with
  | None | Some TExit => mret tt
  | Some TAllocate =>
      let '(w, srv) := RAM_allocate E k (world st) in
      update (set_world w);;
      log (Allocated k srv);;
      match srv with
      | None =>
          (* Just being defensive, this should never happen. *)
          d ← self_;
          (if _reply_q d then reply_put (name, RBool false, None) else mret tt);;
          set_thread k TExit
      | Some h => set_thread k (TRegister h)
      end
  | Some (TRegister h) =>
      d ← self_;
      if _server_lock d then
        update (fun st => set_request_qs (<[k := []]> (request_qs st)) st);;
        assign (fun d => set_servers (<[name := Some h]> (_servers d)) d);;
        (* the info dict with its egg re-use indicator cleared *)
        assign (fun d => set_server_info (<[name := None]> (_server_info d)) d);;
        assign (fun d => set_queues (<[name := k]> (_queues d)) d);;
        set_thread k (TAckStartup h)
      else set_thread k (TRelease h)   (* cleaned up before we got started *)
  | Some (TAckStartup h) =>
      reply_put (name, RBool true, None);;   (* ACK startup. *)
      set_thread k (TServe h None)
  | Some (TServe h res) =>
      match request_qs st !! k with
      | None | Some [] => mret tt
      | Some (None :: rest) =>
          update (fun st => set_request_qs (<[k := rest]> (request_qs st)) st);;
          reply_put (name, RBool true, None);;   (* ACK shutdown. *)
          set_thread k (TRelease h)
      | Some (Some req :: rest) =>
          update (fun st => set_request_qs (<[k := rest]> (request_qs st)) st);;
          r ← try_except (x ← serve req; mret (inl x)) (fun exc => mret (inr exc));
          match r with
          | inl x =>
              reply_put (name, x, None);;
              set_thread k (TServe h (Some x))
          | inr req_exc =>
              match res with
              | Some x =>
                  (* [result] still holds what the previous request returned *)
                  reply_put (name, x, Some req_exc);;
                  set_thread k (TServe h (Some x))
              | None =>
                  (* [result] is unbound: caught by the outer handler *)
                  set_thread k (TRelease h)
              end
          end
      end
  | Some (TRelease h) =>
      log (Released h);;
      set_thread k TExit
  end.

(** *** The coordinator: [_start] *)

(** [_start] up to the first test of [while n_servers < max_servers]. *)
Definition _start_init : M W coord :=
  st ← get_sys;
  let max_servers := RAM_max_servers E (world st) in
  if (max_servers <=? 0)%Z then
    raise_exception "No servers supporting required resources" RuntimeError
  else
    assign (set_server_lock true);;
    assign (set_reply_q true);;
    update (set_reply_q_obj []);;
    mret (CStartup max_servers 0).

(** [name, result, exc = self._reply_q.get(...)] on a queue that is not
    empty. *)
Definition reply_get (r : reply) (rest : list reply) : M W server :=
  update (set_reply_q_obj rest);;
  mret (fst (fst r)).

(** [for queue in self._queues.values(): queue.put(None)] *)
Definition shut_down_servers : M W unit :=
  d ← self_;
  update (fun st =>
    set_request_qs
      (foldr (fun q qs => <[q := default [] (qs !! q) ++ [None]]> qs)
             (request_qs st) (snd <$> map_to_list (_queues d)))
      st).

(** One scheduling step of the coordinator, on a platform other than
    win32.  A [get] with a timeout on an empty queue times out when the
    coordinator is scheduled; a [get] without one waits. *)
Definition _start_step (pc : coord) : M W coord :=
  d ← self_;
  st ← get_sys;
  match pc with
  | CStartup max_servers n_servers =>
      if negb (Z.of_nat n_servers <? max_servers)%Z then mret CMain
      else if _stop d then mret CMain
      else if bool_decide (_iter d = None) then mret CMain
      else
        (* Get next case. Limits servers started if max_servers > cases. *)
        go ← try_except
               (case ← next;
                assign (fun d => set_todo (_todo d ++ [case]) d);;
                mret true)
               (fun exc =>
                  match exc with
                  | StopIteration =>
                      d ← self_;
                      if negb (truthy_list (_rerun d))
                      then assign (set_iter None);; mret false
                      else mret true
                  | _ => raise exc
                  end);
        if negb go then mret CMain
        else
          (* Start server worker thread. *)
          let n_servers := S n_servers in
          let name : server := Some n_servers in
          assign (fun d => set_servers (<[name := None]> (_servers d)) d);;
          assign (fun d => set_in_use (<[name := true]> (_in_use d)) d);;
          assign (fun d => set_server_cases (<[name := None]> (_server_cases d)) d);;
          assign (fun d => set_server_states (<[name := _EMPTY]> (_server_states d)) d);;
          set_thread n_servers TAllocate;;
          mret (CPoll max_servers n_servers)
  | CPoll max_servers n_servers =>
      (* Process any pending events. *)
      if negb (_busy d) then mret (CStartup max_servers n_servers)
      else
        match reply_q st with
        | [] => mret (CStartup max_servers n_servers)   (* Timeout. *)
        | r :: rest =>
            name ← reply_get r rest;
            srv ← getitem (_servers d) name;
            match srv with
            | None => assign (fun d => set_in_use (<[name := false]> (_in_use d)) d)
            | Some _ =>
                b ← _server_ready name false;
                assign (fun d => set_in_use (<[name := b]> (_in_use d)) d)
            end;;
            mret (CPoll max_servers n_servers)
        end
  | CMain =>
      (* Continue until no servers are busy. *)
      if negb (_busy d) then
        (* Shut-down (started) servers. *)
        shut_down_servers;;
        mret (CShutdown (size (_queues d)))
      else
        match reply_q st with
        | [] => mret CMain
        | r :: rest =>
            name ← reply_get r rest;
            b ← _server_ready name false;
            assign (fun d => set_in_use (<[name := b]> (_in_use d)) d);;
            mret CMain
        end
  | CShutdown 0 => mret CDone
  | CShutdown (S i) =>
      match reply_q st with
      | [] => mret (CShutdown i)   (* Queue.Empty: pass *)
      | r :: rest =>
          name ← reply_get r rest;
          _ ← getitem (_queues d) name;
          assign (fun d => set_queues (delete name (_queues d)) d);;
          mret (CShutdown i)
      end
  | CDone | CRaised _ => mret pc
  end.

(** The threads of one concurrent run, interleaved as [sched] says, until
    the coordinator leaves [_start]. *)
Fixpoint run_schedule (sched : list action) (pc : coord) : M W coord :=
  match pc, sched with
  | CDone, _ | CRaised _, _ | _, [] => mret pc
  | _, Coord :: rest =>
      pc ← try_except (_start_step pc) (fun exc => mret (CRaised exc));
      run_schedule rest pc
  | _, Work k :: rest => _service_loop_step k;; run_schedule rest pc
  | _, Stop :: rest => stop;; run_schedule rest pc
  end.

(** Start evaluating cases concurrently.  A schedule that ends before the
    coordinator has left [_start] is reported as [OutOfFuel]. *)
Definition _start (sched : list action) : M W unit :=
  pc ← _start_init;
  pc ← run_schedule sched pc;
  match pc with
  | CDone => mret tt
  | CRaised exc => raise exc
  | _ => out_of_fuel
  end.

(** *** Public methods *)

(** [CaseIteratorDriver.get_case_iterator] *)
Definition get_case_iterator : M W (list Case) :=
  match iterator self with
  | Some cases => mret cases
  | None => raise_exception "iterator has not been set" ValueError
  end.

(** Setup to begin new run.  The driver swap around [save_to_egg] and the
    egg's distribution lists are part of the [save_to_egg] oracle. *)
Definition setup (replicate : bool) : M W unit :=
  _cleanup replicate;;
  (if negb (sequential self) then
     d ← self_;
     if replicate || bool_decide (_egg_file d = None) then
       (* Save model to egg. *)
       assign (fun d => set_replicants (S (_replicants d)) d);;
       d ← self_;
       st ← get_sys;
       let '(w, egg_info) := save_to_egg E (_replicants d) (world st) in
       update (set_world w);;
       assign (set_egg_file (Some egg_info))
     else mret tt
   else mret tt);;
  it ← get_case_iterator;
  assign (set_iter (Some it)).

(** [while self._server_ready(None, stepping=True): pass] *)
Fixpoint while_server_ready (fuel : nat) : M W unit :=
  match fuel with
  | 0 => out_of_fuel
  | S fuel =>
      busy ← _server_ready None true;
      if (busy : bool) then while_server_ready fuel else mret tt
  end.

(** Evaluate the next case. *)
Definition step (fuel : nat) : M W unit :=
  assign (set_stop false);;
  d ← self_;
  (if bool_decide (_iter d = None) then setup true else mret tt);;
  try_except
    (case ← next;
     assign (fun d => set_todo (_todo d ++ [case]) d))
    (fun exc =>
       match exc with
       | StopIteration =>
           d ← self_;
           if negb (truthy_list (_rerun d))
           then assign (set_iter None);; raise StopIteration
           else mret tt
       | _ => raise exc
       end);;
  assign (fun d => set_server_cases (<[None := None]> (_server_cases d)) d);;
  assign (fun d => set_server_states (<[None := _EMPTY]> (_server_states d)) d);;
  while_server_ready fuel.

(** The sequential loop of [resume]:
    [while self._iter is not None: if self._stop: break; try: self.step()
     except StopIteration: break] *)
Fixpoint sequential_loop (n fuel : nat) : M W unit :=
  match n with
  | 0 => out_of_fuel
  | S n =>
      d ← self_;
      if bool_decide (_iter d = None) then mret tt
      else if _stop d then mret tt
      else
        go ← try_except (step fuel;; mret true)
               (fun exc =>
                  match exc with
                  | StopIteration => mret false
                  | _ => raise exc
                  end);
        if (go : bool) then sequential_loop n fuel else mret tt
  end.

(** Resume execution.  [fuel] bounds the loops of the sequential path,
    [sched] interleaves the threads of the concurrent one. *)
Definition resume (fuel : nat) (sched : list action) (remove_egg : bool)
  : M W unit :=
  assign (set_stop false);;
  d ← self_;
  (if bool_decide (_iter d = None)
   then raise_exception "Run already complete" RuntimeError
   else mret tt);;
  try_finally
    (if sequential self then sequential_loop fuel fuel else _start sched)
    (_cleanup remove_egg);;
  d ← self_;
  if _stop d then raise_exception "Run stopped" RunStopped else mret tt.

(** Runs all cases and records results in [recorder]. *)
Definition execute (fuel : nat) (sched : list action) : M W unit :=
  setup true;;
  resume fuel sched true.
End Model.

(** * Specification vocabulary *)

Section Vocabulary.
Context {W : Type}.

(** The computation [m] leaves the observation [v] of the system alone,
    however it ends. *)
Definition keeps {X A} (v : Sys W -> X) (m : M W A) : Prop :=
  forall st, v (m st).2 = v st.

(** [m] keeps the invariant [P], however it ends. *)
Definition preserves {A} (P : Sys W -> Prop) (m : M W A) : Prop :=
  forall st, P st -> P (m st).2.

(** What [m] returns satisfies [Q]. *)
Definition ensures {A} (Q : A -> Prop) (m : M W A) : Prop :=
  forall st a, (m st).1 = Ok a -> Q a.

(** Whatever [m] raises satisfies [P]. *)
Definition raises_only {A} (P : exn -> Prop) (m : M W A) : Prop :=
  forall st e, (m st).1 = Raise e -> P e.

(** [m] never runs out of fuel. *)
Definition total {A} (m : M W A) : Prop :=
  forall st, (m st).1 <> OutOfFuel.

(** What the driver's own code dies of: exceptions it does not handle. *)
Definition crash (e : exn) : Prop :=
  e = KeyError \/ e = AttributeError \/ e = UnboundLocalError.

Definition cids (l : list Case) : list nat := Case.cid <$> l.

(** The cases the iterator has yet to yield. *)
Definition remaining (d : Driver) : list Case :=
  match _iter d with Some l => l | None => [] end.

(** The case a server is evaluating: one is in flight from the moment
    [_run_case] has queued its execution until the [_COMPLETE] branch
    takes it back. *)
Definition flight (st : option state) (c : option (option Case)) : option nat :=
  match st, c with
  | Some _COMPLETE, Some (Some c) => Some (Case.cid c)
  | _, _ => None
  end.

Definition flights (d : Driver) : gmap server nat :=
  merge flight (_server_states d) (_server_cases d).

Definition inflight (d : Driver) : list nat := (map_to_list (flights d)).*2.

(** Where every case of the run is: recorded, waiting in a queue, in
    flight, or not yet pulled. *)
Definition account (st : Sys W) : list nat :=
  cids (recorded st) ++ cids (_todo (drv st)) ++ cids (_rerun (drv st))
    ++ inflight (drv st) ++ cids (remaining (drv st)).

(** Nothing is left to hand out. *)
Definition drained (d : Driver) : Prop :=
  _todo d = [] /\ _rerun d = [] /\ _iter d = None.
End Vocabulary.

(** Observations used as frames. *)
Section Views.
Context {W : Type}.

(** What only the coordinator writes, apart from the stop flag. *)
Definition acc_view (st : Sys W) :=
  (recorded st, _iter (drv st), _todo (drv st), _rerun (drv st),
   _server_states (drv st), _server_cases (drv st), _in_use (drv st)).

Definition stop_view (st : Sys W) := _stop (drv st).

(** A stop has been asked for. *)
Definition stopping (st : Sys W) : Prop := _stop (drv st) = true.

(** The recorder holds [rec0] and what came after it. *)
Definition extends (rec0 : list Case) (st : Sys W) : Prop :=
  exists more, recorded st = rec0 ++ more.

(** Both together. *)
Definition sched_view (st : Sys W) :=
  (recorded st, _iter (drv st), _todo (drv st), _rerun (drv st),
   _server_states (drv st), _server_cases (drv st), _in_use (drv st),
   _stop (drv st)).

(** All that belongs to concurrent evaluation: the threads, the log of
    allocator calls and transfers, the queues and the count of eggs. *)
Definition remote_view (st : Sys W) :=
  (threads st, trace st, reply_q st, request_qs st, _replicants (drv st)).

(** What only the worker threads and the allocator log hold. *)
Definition thread_view (st : Sys W) := (threads st, trace st).
End Views.

Section Preparation.
Context (self : Traits).

(** The case as [_run_case] hands it to the model: limit and counter set
    on a first assignment, message cleared. *)
Definition prepare (case : Case) (rerun : bool) : Case :=
  Case.set_msg None
    (if rerun then case
     else Case.set_retries 0
            (if negb (truthy_int (Case.max_retries case))
             then Case.set_max_retries (Some (max_retries self)) case
             else case)).
End Preparation.
Arguments prepare : simpl never.

(** ** The scheduler's books

    What one call of [_server_ready] for a server reads and writes of the
    bookkeeping: the recorder's contents, the two queues, the iterator, the
    server's own state and case, and the stop flag. *)
Record Books : Type := {
  b_recorded : list Case;
  b_todo : list Case;
  b_rerun : list Case;
  b_iter : option (list Case);
  b_state : option state;
  b_case : option (option Case);
  b_stop : bool
}.

Definition books {W} (s : server) (st : Sys W) : Books := {|
  b_recorded := recorded st;
  b_todo := _todo (drv st);
  b_rerun := _rerun (drv st);
  b_iter := _iter (drv st);
  b_state := _server_states (drv st) !! s;
  b_case := _server_cases (drv st) !! s;
  b_stop := _stop (drv st)
|}.

(** The entries of the other servers are the same in both driver objects. *)
Definition agree_off (s : server) (d d' : Driver) : Prop :=
  forall s', s' <> s ->
    _server_states d' !! s' = _server_states d !! s' /\
    _server_cases d' !! s' = _server_cases d !! s'.

Section SchedulerRelation.
Context (self : Traits).

Definition record_if (c : Case) : list Case :=
  if recorder self then [c] else [].

(** The stop flag is only ever raised. *)
Definition stop_raised (b b' : bool) : Prop := b = true -> b' = true.

(** [_run_case] that returns: the case is in flight, or it is back in
    [_rerun] with one more retry on its counter, or it is recorded with the
    text of the server error. *)
Inductive run_rel (case : Case) (rerun : bool) (b : Books) : Books -> Prop :=
| run_in_flight stop' :
    stop_raised (b_stop b) stop' ->
    run_rel case rerun b
      {| b_recorded := b_recorded b; b_todo := b_todo b; b_rerun := b_rerun b;
         b_iter := b_iter b; b_state := Some _COMPLETE;
         b_case := Some (Some (prepare self case rerun)); b_stop := stop' |}
| run_retry stop' :
    let c := prepare self case rerun in
    let c' := Case.set_retries (Case.retries c + 1) c in
    stop_raised (b_stop b) stop' ->
    lt_int_opt (Case.retries c) (Case.max_retries c) = true ->
    run_rel case rerun b
      {| b_recorded := b_recorded b; b_todo := b_todo b;
         b_rerun := b_rerun b ++ [c'];
         b_iter := b_iter b; b_state := Some _ERROR;
         b_case := Some (Some c'); b_stop := stop' |}
| run_give_up stop' text :
    let c := prepare self case rerun in
    let c' := Case.set_msg (Some text) c in
    stop_raised (b_stop b) stop' ->
    lt_int_opt (Case.retries c) (Case.max_retries c) = false ->
    run_rel case rerun b
      {| b_recorded := b_recorded b ++ record_if c'; b_todo := b_todo b;
         b_rerun := b_rerun b;
         b_iter := b_iter b; b_state := Some _ERROR;
         b_case := Some (Some c'); b_stop := stop' |}.

Definition with_todo (v : list Case) (b : Books) : Books :=
  {| b_recorded := b_recorded b; b_todo := v; b_rerun := b_rerun b;
     b_iter := b_iter b; b_state := b_state b; b_case := b_case b;
     b_stop := b_stop b |}.
Definition with_rerun (v : list Case) (b : Books) : Books :=
  {| b_recorded := b_recorded b; b_todo := b_todo b; b_rerun := v;
     b_iter := b_iter b; b_state := b_state b; b_case := b_case b;
     b_stop := b_stop b |}.
Definition with_iter (v : option (list Case)) (b : Books) : Books :=
  {| b_recorded := b_recorded b; b_todo := b_todo b; b_rerun := b_rerun b;
     b_iter := v; b_state := b_state b; b_case := b_case b;
     b_stop := b_stop b |}.
Definition with_state (v : state) (b : Books) : Books :=
  {| b_recorded := b_recorded b; b_todo := b_todo b; b_rerun := b_rerun b;
     b_iter := b_iter b; b_state := Some v; b_case := b_case b;
     b_stop := b_stop b |}.

(** The case as the [_COMPLETE] branch hands it to the recorder: with the
    text of what the model raised, or with outputs filled in and, when an
    output could not be read, a message about it. *)
Definition harvested (c c' : Case) : Prop :=
  Case.cid c' = Case.cid c /\ Case.inputs c' = Case.inputs c /\
  Case.max_retries c' = Case.max_retries c /\ Case.retries c' = Case.retries c.

(** [_server_ready] that returns: one step of the state machine of a
    server.  The boolean is what the method returns: still in use. *)
Inductive tick_rel (stepping : bool) (b : Books) : bool -> Books -> Prop :=
| tick_empty_idle :
    b_state b = Some _EMPTY ->
    b_todo b = [] -> b_rerun b = [] -> b_iter b = None ->
    tick_rel stepping b false b
| tick_empty_load :
    b_state b = Some _EMPTY ->
    ~ (b_todo b = [] /\ b_rerun b = [] /\ b_iter b = None) ->
    tick_rel stepping b true (with_state _READY b)
| tick_ready_stop :
    b_state b = Some _READY -> b_stop b = true ->
    tick_rel stepping b false b
| tick_ready_todo case todo b' :
    b_state b = Some _READY -> b_stop b = false ->
    b_todo b = case :: todo ->
    run_rel case false (with_todo todo b) b' ->
    tick_rel stepping b true b'
| tick_ready_rerun case rerun b' :
    b_state b = Some _READY -> b_stop b = false ->
    b_todo b = [] -> b_rerun b = case :: rerun ->
    run_rel case true (with_rerun rerun b) b' ->
    tick_rel stepping b true b'
| tick_ready_idle :
    b_state b = Some _READY -> b_stop b = false ->
    b_todo b = [] -> b_rerun b = [] ->
    b_iter b = None \/ stepping = true ->
    tick_rel stepping b false b
| tick_ready_exhausted :
    b_state b = Some _READY -> b_stop b = false ->
    b_todo b = [] -> b_rerun b = [] ->
    b_iter b = Some [] -> stepping = false ->
    tick_rel stepping b false (with_iter None b)
| tick_ready_next case rest b' :
    b_state b = Some _READY -> b_stop b = false ->
    b_todo b = [] -> b_rerun b = [] ->
    b_iter b = Some (case :: rest) -> stepping = false ->
    run_rel case false (with_iter (Some rest) b) b' ->
    tick_rel stepping b true b'
| tick_complete case case' :
    b_state b = Some _COMPLETE -> b_case b = Some (Some case) ->
    harvested case case' ->
    tick_rel stepping b true
      {| b_recorded := b_recorded b ++ record_if case'; b_todo := b_todo b;
         b_rerun := b_rerun b; b_iter := b_iter b; b_state := Some _READY;
         b_case := Some None; b_stop := b_stop b |}
| tick_error :
    b_state b = Some _ERROR ->
    tick_rel stepping b true
      {| b_recorded := b_recorded b; b_todo := b_todo b;
         b_rerun := b_rerun b; b_iter := b_iter b; b_state := Some _READY;
         b_case := Some None; b_stop := b_stop b |}.
End SchedulerRelation.

(** The books of one server, as a list of case identities. *)
Definition fly (b : Books) : list nat :=
  match flight (b_state b) (b_case b) with Some i => [i] | None => [] end.

Definition acct (b : Books) : list nat :=
  cids (b_recorded b) ++ cids (b_todo b) ++ cids (b_rerun b) ++ fly b
    ++ cids (match b_iter b with Some l => l | None => [] end).

(** The cases in flight on the servers other than [s]. *)
Definition others (s : server) (d : Driver) : list nat :=
  (map_to_list (delete s (flights d))).*2.

(** The driver object as [_cleanup] leaves it, up to the egg file. *)
Definition cleaned (egg_file : option egg) (d : Driver) : Driver :=
  Build_Driver (_stop d) (_iter d) (_replicants d) egg_file
    false false ∅ ∅ ∅ ∅ ∅ ∅ ∅ ∅ [] [].

(** ** Server handles *)

(** The handles the allocator handed out, and those given back to it. *)
Definition handles_allocated (t : list event) : list handle :=
  omap (fun e => match e with Allocated _ (Some h) => Some h | _ => None end) t.
Definition handles_released (t : list event) : list handle :=
  omap (fun e => match e with Released h => Some h | _ => None end) t.

(** The handle a thread has still to release. *)
Definition owes (t : thread) : option handle :=
  match t with
  | TRegister h | TAckStartup h | TServe h _ | TRelease h => Some h
  | TAllocate | TExit => None
  end.
Definition held (ts : gmap nat thread) : list handle :=
  omap (fun kt => owes kt.2) (map_to_list ts).

(** The handles allocated and not yet released balance with what the
    threads hold, over the events logged since [t0]. *)
Definition balanced {W} (t0 : list event) (st : Sys W) : Prop :=
  exists evs, trace st = t0 ++ evs /\
    handles_allocated evs ≡ₚ handles_released evs ++ held (threads st).

(** No thread has a number above what the coordinator has started. *)
Definition numbered {W} (pc : coord) (st : Sys W) : Prop :=
  match pc with
  | CStartup _ n | CPoll _ n => forall k, is_Some (threads st !! k) -> k <= n
  | _ => True
  end.

(** ** The protocol between the coordinator and the worker threads *)

(** The allocator has a server for every worker that asks. *)
Definition allocates {W} (E : Env W) : Prop :=
  forall k w, (RAM_allocate E k w).2 <> None.

(** Worker [k] has put its server into [_servers]. *)
Definition registered (d : Driver) (k : nat) : Prop :=
  exists h, _servers d !! Some k = Some (Some h).

(** A thread that is past its registration and sends replies. *)
Definition replies (t : thread) : bool :=
  match t with TAckStartup _ | TServe _ _ => true | _ => false end.

(** What the threads hold of the coordinator's data. *)
Definition wire_view {W} (st : Sys W) :=
  (_servers (drv st), reply_q st, threads st).

(** Every reply in the queue and every replying thread belongs to a
    registered worker. *)
Definition wired {W} (st : Sys W) : Prop :=
  (forall r, r ∈ reply_q st -> exists k, r.1.1 = Some k /\ registered (drv st) k) /\
  (forall k t, threads st !! k = Some t -> replies t = true -> registered (drv st) k).

(** Workers are numbered up to [n]. *)
Definition bounded {W} (n : nat) (st : Sys W) : Prop :=
  (forall k, is_Some (threads st !! k) -> k <= n) /\
  (forall k, registered (drv st) k -> k <= n).

(** The run is on its way out: a stop is pending, or nothing is left to
    hand out. *)
Definition winding_down {W} (st : Sys W) : Prop :=
  stopping st \/ drained (drv st).

(** A server with a case in flight is marked as in use. *)
Definition flights_in_use (d : Driver) : Prop :=
  forall s i, flights d !! s = Some i -> _in_use d !! s = Some true.

(** The servers marked in [_in_use] are numbered up to [n]. *)
Definition in_use_bounded (n : nat) (d : Driver) : Prop :=
  forall k, is_Some (_in_use d !! Some k) -> k <= n.

(** What holds of a concurrent run while the coordinator is at [pc]. *)
Definition phase {W} (pc : coord) (st : Sys W) : Prop :=
  match pc with
  | CStartup m 0 =>
      (0 < m)%Z /\ _todo (drv st) = [] /\ _rerun (drv st) = [] /\
      bounded 0 st /\ in_use_bounded 0 (drv st)
  | CStartup m (S n) | CPoll m (S n) =>
      (_busy (drv st) = false -> winding_down st) /\
      bounded (S n) st /\ in_use_bounded (S n) (drv st)
  | CPoll m 0 => False
  | CMain => _busy (drv st) = false -> winding_down st
  | CShutdown _ | CDone => _busy (drv st) = false /\ winding_down st
  | CRaised _ => True
  end.

Definition concurrent_inv {W} (acc0 : list nat) (pc : coord) (st : Sys W) : Prop :=
  account st ≡ₚ acc0 /\ flights_in_use (drv st) /\ wired st /\ phase pc st.

(** ** The sequential path *)

(** What [while self._server_ready(None, stepping=True): pass] hands back
    when it ends. *)
Definition settled {W} (st : Sys W) : Prop :=
  fly (books None st) = [] /\
  (_stop (drv st) = true \/ (_todo (drv st) = [] /\ _rerun (drv st) = [])).

(** From [st] to [st'] the in-process server has worked: every case is
    still accounted for, the other servers are as they were and the
    recorder has grown. *)
Definition evolves {W} (st st' : Sys W) : Prop :=
  account st' ≡ₚ account st /\
  others None (drv st') = others None (drv st) /\
  exists more, recorded st' = recorded st ++ more.

(** The case server [s] has been handed. *)
Definition assigned {W} (s : server) (c : Case) (st : Sys W) : Prop :=
  exists c', _server_cases (drv st) !! s = Some (Some c') /\
             Case.cid c' = Case.cid c.

(** The system once the startup loop has started worker [S n], with
    [todo] and [it] as the loop left the queue and the iterator. *)
Definition started {W} (n : nat) (todo : list Case) (it : option (list Case))
    (st : Sys W) : Sys W :=
  let name : server := Some (S n) in
  set_threads (<[S n := TAllocate]> (threads st))
    (set_drv
       (set_server_states (<[name := _EMPTY]> (_server_states (drv st)))
          (set_server_cases (<[name := None]> (_server_cases (drv st)))
             (set_in_use (<[name := true]> (_in_use (drv st)))
                (set_servers (<[name := None]> (_servers (drv st)))
                   (set_todo todo (set_iter it (drv st)))))))
       st).

(** The worker threads are numbered from 1 to at most [M], and up to the
    count the startup loop has reached. *)
Definition capped {W} (M : Z) (pc : coord) (st : Sys W) : Prop :=
  (forall k, is_Some (threads st !! k) -> 1 <= k /\ (Z.of_nat k <= M)%Z) /\
  match pc with
  | CStartup m n | CPoll m n =>
      m = M /\ (Z.of_nat n <= M)%Z /\ forall k, is_Some (threads st !! k) -> k <= n
  | _ => True
  end.

(** The per-run bookkeeping is as [__init__] made it. *)
Definition clean (d : Driver) : Prop :=
  _reply_q d = false /\ _server_lock d = false /\
  _servers d = ∅ /\ _top_levels d = ∅ /\ _server_info d = ∅ /\ _queues d = ∅ /\
  _in_use d = ∅ /\ _server_states d = ∅ /\ _server_cases d = ∅ /\
  _exceptions d = ∅ /\ _todo d = [] /\ _rerun d = [].

(** A case has not been retried more often than its limit allows. *)
Definition within_limit (c : Case) : Prop :=
  Case.retries c = 0%Z \/
  exists z, Case.max_retries c = Some z /\ (Case.retries c <= z)%Z.

(** That holds of every case the driver has recorded, has queued for a
    rerun or has handed to a server. *)
Definition limits_kept {W} (st : Sys W) : Prop :=
  Forall within_limit (recorded st) /\
  Forall within_limit (_rerun (drv st)) /\
  forall s c, _server_cases (drv st) !! s = Some (Some c) -> within_limit c.

(** The name of the egg of the run. *)
Definition egg_view {W} (st : Sys W) := _egg_file (drv st).

(** ** What a run can raise *)

(** The exceptions the driver raises on purpose. *)
Definition reported (e : exn) : Prop :=
  (exists t, e = ValueError t) \/ (exists t, e = RuntimeError t) \/
  (exists t, e = RunStopped t).

(** All a run lets out. *)
Definition escapes (e : exn) : Prop := crash e \/ reported e.

(** The moves of the state machine of a server. *)
Definition moves (a b : state) : Prop :=
  match a, b with
  | _EMPTY, (_EMPTY | _READY) => True
  | _READY, (_READY | _COMPLETE | _ERROR) => True
  | _COMPLETE, _READY => True
  | _ERROR, _READY => True
  | _, _ => False
  end.

(** The order of the phases of [_start]: what the coordinator can do next. *)
Definition follows (pc pc' : coord) : Prop :=
  match pc with
  | CStartup m n => pc' = CMain \/ pc' = CPoll m (S n)
  | CPoll m n => pc' = CStartup m n \/ pc' = CPoll m n
  | CMain => pc' = CMain \/ exists i, pc' = CShutdown i
  | CShutdown i => pc' = CDone \/ exists j, pc' = CShutdown j /\ j < i
  | CDone => pc' = CDone
  | CRaised e => pc' = CRaised e
  end.

(** Unfolds the monad and the record plumbing, nothing else. *)
Ltac msimpl :=
  unfold mbind, mret, M_bind, M_ret in *;
  unfold assign, update, self_, get_sys, ret, raise, out_of_fuel in *;
  cbn [bind ret raise out_of_fuel try_except try_finally
       get_sys self_ assign update call fst snd negb andb orb
       drv world recorded reply_q request_qs threads trace
       set_drv set_world set_recorded set_reply_q_obj set_request_qs set_threads set_trace
       _stop _iter _replicants _egg_file _reply_q _server_lock _servers _top_levels
       _server_info _queues _in_use _server_states _server_cases _exceptions _todo _rerun
       set_stop set_iter set_replicants set_egg_file set_reply_q set_server_lock
       set_servers set_top_levels set_server_info set_queues set_in_use
       set_server_states set_server_cases set_exceptions set_todo set_rerun
       Case.cid Case.inputs Case.outputs Case.max_retries Case.retries Case.msg
       Case.set_outputs Case.set_max_retries Case.set_retries Case.set_msg
       b_recorded b_todo b_rerun b_iter b_state b_case b_stop cleaned] in *.

(** The same by call-by-value, for long chains of assignments on an explicit
    record ([cbn] leaves terms there that are slow to check). *)
Ltac mcompute :=
  cbv [mbind mret M_bind M_ret bind ret raise out_of_fuel try_except try_finally
       get_sys self_ assign update
       set_drv set_world set_recorded set_reply_q_obj set_request_qs set_threads
       set_trace drv world recorded reply_q request_qs threads trace
       _stop _iter _replicants _egg_file _reply_q _server_lock _servers _top_levels
       _server_info _queues _in_use _server_states _server_cases _exceptions _todo
       _rerun set_stop set_iter set_replicants set_egg_file set_reply_q
       set_server_lock set_servers set_top_levels set_server_info set_queues
       set_in_use set_server_states set_server_cases set_exceptions set_todo
       set_rerun cleaned].

(** * Concrete systems *)

(** A case with one input [x] and one output [y]. *)
Definition a_case (n : nat) (limit : option Z) : Case :=
  Case.mk n [("x", None, Z.of_nat n)] [("y", None, None)] limit 0 None.

Definition some_traits (seq : bool) (cases : list Case) : Traits := {|
  recorder := true; sequential := seq; reload_model := true; max_retries := 1;
  iterator := Some cases; get_events := []; get_pathname := "top.driver";
  exception_text := fun m => "top.driver: " +:+ m |}.

(** The system right after [__init__]. *)
Definition fresh {W} (w : W) : Sys W := Build_Sys init_driver w [] [] ∅ ∅ [].

(** The world counts calls; the records below fail some of them. *)
Definition fails_before (n : nat) (w : nat) : outcome unit :=
  if decide (w < n) then Raises "boom" else Returns tt.

(** An environment where everything works and [capacity] servers can be
    had. *)
Definition quiet (capacity : Z) : Env nat := {|
  parent_set := fun _ _ _ w => (w, Returns tt);
  parent_get := fun _ _ w => (w, Returns 7%Z);
  workflow_run := fun w => (w, false, Returns tt);
  tlo_set := fun _ _ _ _ w => (w, Returns tt);
  tlo_get := fun _ _ _ w => (w, Returns 7%Z);
  tlo_run := fun _ w => (w, Returns tt);
  RAM_max_servers := fun _ => capacity;
  RAM_allocate := fun k w => (w, Some (100 + k));
  filexfer := fun _ _ w => (w, Returns tt);
  server_load_model := fun h _ w => (w, Returns (Some h));
  save_to_egg := fun n w => (w, "replicant.egg");
  path_exists := fun _ _ => true;
  os_remove := fun _ w => w
|}.

(** The first [n] runs of the in-process workflow raise. *)
Definition run_fails (n : nat) : Env nat := {|
  parent_set := parent_set (quiet 1);
  parent_get := parent_get (quiet 1);
  workflow_run := fun w => (S w, false, fails_before n w);
  tlo_set := tlo_set (quiet 1);
  tlo_get := tlo_get (quiet 1);
  tlo_run := tlo_run (quiet 1);
  RAM_max_servers := RAM_max_servers (quiet 1);
  RAM_allocate := RAM_allocate (quiet 1);
  filexfer := filexfer (quiet 1);
  server_load_model := server_load_model (quiet 1);
  save_to_egg := save_to_egg (quiet 1);
  path_exists := path_exists (quiet 1);
  os_remove := os_remove (quiet 1)
|}.

(** The first [n] assignments to an input of the in-process model raise. *)
Definition set_fails (n : nat) : Env nat := {|
  parent_set := fun _ _ _ w => (S w, fails_before n w);
  parent_get := parent_get (quiet 1);
  workflow_run := workflow_run (quiet 1);
  tlo_set := tlo_set (quiet 1);
  tlo_get := tlo_get (quiet 1);
  tlo_run := tlo_run (quiet 1);
  RAM_max_servers := RAM_max_servers (quiet 1);
  RAM_allocate := RAM_allocate (quiet 1);
  filexfer := filexfer (quiet 1);
  server_load_model := server_load_model (quiet 1);
  save_to_egg := save_to_egg (quiet 1);
  path_exists := path_exists (quiet 1);
  os_remove := os_remove (quiet 1)
|}.

(** The in-process workflow calls [stop()] on the driver while it runs. *)
Definition stops : Env nat := {|
  parent_set := parent_set (quiet 1);
  parent_get := parent_get (quiet 1);
  workflow_run := fun w => (w, true, Returns tt);
  tlo_set := tlo_set (quiet 1);
  tlo_get := tlo_get (quiet 1);
  tlo_run := tlo_run (quiet 1);
  RAM_max_servers := RAM_max_servers (quiet 1);
  RAM_allocate := RAM_allocate (quiet 1);
  filexfer := filexfer (quiet 1);
  server_load_model := server_load_model (quiet 1);
  save_to_egg := save_to_egg (quiet 1);
  path_exists := path_exists (quiet 1);
  os_remove := os_remove (quiet 1)
|}.

(** The allocator announces one server and then hands out none. *)
Definition no_server : Env nat := {|
  parent_set := parent_set (quiet 1);
  parent_get := parent_get (quiet 1);
  workflow_run := workflow_run (quiet 1);
  tlo_set := tlo_set (quiet 1);
  tlo_get := tlo_get (quiet 1);
  tlo_run := tlo_run (quiet 1);
  RAM_max_servers := fun _ => 1%Z;
  RAM_allocate := fun k w => (w, None);
  filexfer := filexfer (quiet 1);
  server_load_model := server_load_model (quiet 1);
  save_to_egg := save_to_egg (quiet 1);
  path_exists := path_exists (quiet 1);
  os_remove := os_remove (quiet 1)
|}.

(** [server.load_model] works once per server and fails from then on: the
    world counts the loads. *)
Definition reload_fails : Env nat := {|
  parent_set := parent_set (quiet 1);
  parent_get := parent_get (quiet 1);
  workflow_run := workflow_run (quiet 1);
  tlo_set := tlo_set (quiet 1);
  tlo_get := tlo_get (quiet 1);
  tlo_run := tlo_run (quiet 1);
  RAM_max_servers := fun _ => 1%Z;
  RAM_allocate := RAM_allocate (quiet 1);
  filexfer := filexfer (quiet 1);
  server_load_model := fun h _ w =>
    (S w, if decide (w < 1) then Returns (Some h) else Raises "no model");
  save_to_egg := save_to_egg (quiet 1);
  path_exists := path_exists (quiet 1);
  os_remove := os_remove (quiet 1)
|}.

(** [n] rounds in which the coordinator and then each of the [workers]
    threads take a turn. *)
Definition round_robin (workers n : nat) : list action :=
  mjoin (replicate n (Coord :: (Work <$> seq 1 workers))).

(** A driver in the middle of a sequential run: the in-process server is
    ready, one case waits in each queue and one is left in the iterator. *)
Definition ready_system : Sys nat :=
  set_drv
    (set_todo [a_case 1 None]
       (set_rerun [a_case 2 (Some 1%Z)]
          (set_iter (Some [a_case 3 None])
             (set_server_states {[None := _READY]} init_driver))))
    (fresh 0).

(** A driver whose worker 1 has registered its server and has not yet been
    sent the egg. *)
Definition registered_system : Sys nat :=
  set_drv
    (set_egg_file (Some "replicant.egg")
       (set_servers {[Some 1 := Some 101]}
          (set_server_info {[Some 1 := None]} init_driver)))
    (fresh 0).

(** A driver whose in-process model raised while it ran case 1. *)
Definition failed_system : Sys nat :=
  set_drv
    (set_server_states {[None := _COMPLETE]}
       (set_server_cases {[None := Some (a_case 1 (Some 2%Z))]}
          (set_exceptions {[None := Some (Exception "boom")]}
             (set_iter (Some []) init_driver))))
    (fresh 0).

(** The schedule of a concurrent run with one worker, up to the reply to
    the reload that follows the first case. *)
Definition until_reload : list action :=
  [Coord; Work 1; Work 1; Work 1; Coord; Work 1; Coord; Work 1; Coord; Work 1].

(** A schedule in which the worker's failed allocation is reported while the
    coordinator still polls. *)
Definition early_reply : list action :=
  [Coord; Work 1; Coord; Coord; Coord; Coord; Coord].

(** A schedule in which the coordinator is through once the worker has
    acknowledged the shut-down. *)
Definition coordinator_first : list action :=
  round_robin 1 8 ++ [Coord; Coord].

(** Traits of a driver that sets one event before each run of the model. *)
Definition eventful (cases : list Case) : Traits := {|
  recorder := true; sequential := true; reload_model := true; max_retries := 1;
  iterator := Some cases; get_events := ["go"]; get_pathname := "top.driver";
  exception_text := fun m => "top.driver: " +:+ m |}.

(** Worker 1 waits at its request queue with a request to load the model;
    [res] is what its previous request returned.  One load has been done. *)
Definition serving_system (res : option result) : Sys nat :=
  Build_Sys (drv registered_system) 1 [] []
    {[1 := [Some (_remote_load_model_req (Some 1))]]} {[1 := TServe 101 res]} [].

(** Worker 1 was started for the one case and has reported that it got no
    server. *)
Definition unserved_system : Sys nat :=
  set_reply_q_obj [(Some 1, RBool false, None)]
    (set_drv
       (set_todo [a_case 1 None]
          (set_servers {[Some 1 := None]}
             (set_in_use {[Some 1 := true]}
                (set_server_cases {[Some 1 := None]}
                   (set_server_states {[Some 1 := _EMPTY]}
                      (set_iter (Some []) init_driver))))))
       (fresh 0)).

(** * Lemmas *)

Section Rules.
Context {W : Type}.
Implicit Types st : Sys W.

Lemma bind_run {A B} (m : M W A) (f : A -> M W B) st :
  (m ≫= f) st =
    match m st with
    | (Ok a, st') => f a st'
    | (Raise e, st') => (Raise e, st')
    | (OutOfFuel, st') => (OutOfFuel, st')
    end.
Proof. reflexivity. Qed.

Lemma bind_raw {A B} (m : M W A) (f : A -> M W B) st :
  bind m f st =
    match m st with
    | (Ok a, st') => f a st'
    | (Raise e, st') => (Raise e, st')
    | (OutOfFuel, st') => (OutOfFuel, st')
    end.
Proof. reflexivity. Qed.

Lemma try_except_raw {A} (m : M W A) h st :
  try_except m h st =
    match m st with
    | (Raise e, st') => h e st'
    | r => r
    end.
Proof. reflexivity. Qed.

Lemma getitem_Some {K A} `{Countable K} (m : gmap K A) k a :
  m !! k = Some a -> getitem (W:=W) m k = mret a.
Proof. unfold getitem. by intros ->. Qed.

Lemma getitem_None {K A} `{Countable K} (m : gmap K A) k :
  m !! k = None -> getitem (W:=W) m k = raise KeyError.
Proof. unfold getitem. by intros ->. Qed.

(** ** Frame rules *)

Lemma keeps_ret {X A} (v : Sys W -> X) (a : A) : keeps v (mret a).
Proof. by intros st. Qed.

Lemma keeps_raise {X A} (v : Sys W -> X) e : keeps v (raise (A:=A) e).
Proof. by intros st. Qed.

Lemma keeps_out_of_fuel {X A} (v : Sys W -> X) : keeps v (out_of_fuel (A:=A)).
Proof. by intros st. Qed.

Lemma keeps_self {X} (v : Sys W -> X) : keeps v self_.
Proof. by intros st. Qed.

Lemma keeps_get_sys {X} (v : Sys W -> X) : keeps v get_sys.
Proof. by intros st. Qed.

Lemma keeps_getitem {X K A} `{Countable K} (v : Sys W -> X) (m : gmap K A) k :
  keeps v (getitem m k).
Proof. intros st. unfold getitem. by destruct (m !! k). Qed.

Lemma keeps_bind {X A B} (v : Sys W -> X) (m : M W A) (f : A -> M W B) :
  keeps v m -> (forall a, keeps v (f a)) -> keeps v (m ≫= f).
Proof.
  intros Hm Hf st. rewrite bind_run. specialize (Hm st).
  destruct (m st) as [[a|e|] st']; cbn in *; [|done..].
  by rewrite Hf.
Qed.

Lemma keeps_try_except {X A} (v : Sys W -> X) (m : M W A) h :
  keeps v m -> (forall e, keeps v (h e)) -> keeps v (try_except m h).
Proof.
  intros Hm Hh st. unfold try_except. specialize (Hm st).
  destruct (m st) as [[a|e|] st']; cbn in *; [done| |done].
  by rewrite Hh.
Qed.

Lemma keeps_assign {X} (v : Sys W -> X) f :
  (forall st, v (set_drv (f (drv st)) st) = v st) -> keeps v (assign f).
Proof. intros Hf st. apply Hf. Qed.

Lemma keeps_update {X} (v : Sys W -> X) f :
  (forall st, v (f st) = v st) -> keeps v (update f).
Proof. intros Hf st. apply Hf. Qed.

Lemma keeps_call {X A} (v : Sys W -> X) (f : W -> W * outcome A) :
  (forall w st, v (set_world w st) = v st) -> keeps v (call f).
Proof.
  intros Hf st. unfold call. destruct (f (world st)) as [w [a|t]]; apply Hf.
Qed.

(** ** Invariant rules *)

Lemma preserves_ret {A} (P : Sys W -> Prop) (a : A) : preserves P (mret a).
Proof. by intros st. Qed.

Lemma preserves_raise {A} (P : Sys W -> Prop) e : preserves P (raise (A:=A) e).
Proof. by intros st. Qed.

Lemma preserves_out_of_fuel {A} (P : Sys W -> Prop) :
  preserves P (out_of_fuel (A:=A)).
Proof. by intros st. Qed.

Lemma preserves_self (P : Sys W -> Prop) : preserves P self_.
Proof. by intros st. Qed.

Lemma preserves_get_sys (P : Sys W -> Prop) : preserves P get_sys.
Proof. by intros st. Qed.

Lemma preserves_getitem {K A} `{Countable K} (P : Sys W -> Prop) (m : gmap K A) k :
  preserves P (getitem m k).
Proof. intros st. unfold getitem. by destruct (m !! k). Qed.

Lemma preserves_bind {A B} (P : Sys W -> Prop) (m : M W A) (f : A -> M W B) :
  preserves P m -> (forall a, preserves P (f a)) -> preserves P (m ≫= f).
Proof.
  intros Hm Hf st HP. rewrite bind_run. specialize (Hm st HP).
  destruct (m st) as [[a|e|] st']; cbn in *; [|done..].
  by apply Hf.
Qed.

Lemma preserves_try_except {A} (P : Sys W -> Prop) (m : M W A) h :
  preserves P m -> (forall e, preserves P (h e)) -> preserves P (try_except m h).
Proof.
  intros Hm Hh st HP. unfold try_except. specialize (Hm st HP).
  destruct (m st) as [[a|e|] st']; cbn in *; [done| |done].
  by apply Hh.
Qed.

Lemma preserves_assign (P : Sys W -> Prop) f :
  (forall st, P st -> P (set_drv (f (drv st)) st)) -> preserves P (assign f).
Proof. intros Hf st. apply Hf. Qed.

Lemma preserves_update (P : Sys W -> Prop) f :
  (forall st, P st -> P (f st)) -> preserves P (update f).
Proof. intros Hf st. apply Hf. Qed.

Lemma preserves_call {A} (P : Sys W -> Prop) (f : W -> W * outcome A) :
  (forall w st, P st -> P (set_world w st)) -> preserves P (call f).
Proof.
  intros Hf st HP. unfold call. destruct (f (world st)) as [w [a|t]]; by apply Hf.
Qed.

(** ** Rules for what is returned *)

Lemma ensures_ret {A} (Q : A -> Prop) (a : A) : Q a -> ensures (W:=W) Q (mret a).
Proof. intros Ha st a'. cbn. by intros [= <-]. Qed.

Lemma ensures_raise {A} (Q : A -> Prop) e : ensures (W:=W) Q (raise e).
Proof. by intros st a. Qed.

Lemma ensures_bind {A B} (Q : B -> Prop) (m : M W A) (f : A -> M W B) :
  (forall a, ensures Q (f a)) -> ensures Q (m ≫= f).
Proof.
  intros Hf st b. rewrite bind_run.
  destruct (m st) as [[a|e|] st']; cbn; [apply Hf|done..].
Qed.

Lemma ensures_try_except {A} (Q : A -> Prop) (m : M W A) h :
  ensures Q m -> (forall e, ensures Q (h e)) -> ensures Q (try_except m h).
Proof.
  intros Hm Hh st a. unfold try_except. specialize (Hm st).
  destruct (m st) as [[a'|e|] st']; cbn in *; [apply Hm| |done].
  apply Hh.
Qed.

Lemma ensures_run {A} (Q : A -> Prop) (m : M W A) st a st' :
  ensures Q m -> m st = (Ok a, st') -> Q a.
Proof. intros Hm Hrun. apply (Hm st). by rewrite Hrun. Qed.

Lemma keeps_preserves {X A} (v : Sys W -> X) (P : Sys W -> Prop) (m : M W A) :
  keeps v m -> (forall st st', v st' = v st -> P st -> P st') -> preserves P m.
Proof. intros Hm HP st. apply HP, Hm. Qed.

Lemma preserves_run {A} (P : Sys W -> Prop) (m : M W A) st r st' :
  preserves P m -> m st = (r, st') -> P st -> P st'.
Proof. intros Hm Hrun HP. specialize (Hm st HP). by rewrite Hrun in Hm. Qed.
End Rules.

(** One step through a computation; [leaf] settles what an assignment does
    to the invariant. *)
Ltac preserves_step leaf :=
  match goal with
  | |- preserves _ (mbind _ _) => apply preserves_bind; [| intros ?]
  | |- preserves _ (mret _) => apply preserves_ret
  | |- preserves _ (raise _) => apply preserves_raise
  | |- preserves _ (raise_exception _ _ _) => apply preserves_raise
  | |- preserves _ out_of_fuel => apply preserves_out_of_fuel
  | |- preserves _ (try_except _ _) => apply preserves_try_except; [| intros ?]
  | |- preserves _ self_ => apply preserves_self
  | |- preserves _ get_sys => apply preserves_get_sys
  | |- preserves _ (getitem _ _) => apply preserves_getitem
  | |- preserves _ (assign _) => apply preserves_assign; leaf
  | |- preserves _ (update _) => apply preserves_update; leaf
  | |- preserves _ (record _) => apply preserves_update; leaf
  | |- preserves _ (log _) => apply preserves_update; leaf
  | |- preserves _ (reply_put _) => apply preserves_update; leaf
  | |- preserves _ (set_thread _ _) => apply preserves_update; leaf
  | |- preserves _ (call _) => apply preserves_call; leaf
  | |- preserves _ (match ?x with _ => _ end) => destruct x
  | |- preserves _ (let '(_, _) := ?x in _) => destruct x
  end.

Ltac ensures_step :=
  match goal with
  | |- ensures _ (mbind _ _) => apply ensures_bind; intros ?
  | |- ensures _ (mret _) => apply ensures_ret
  | |- ensures _ (raise _) => apply ensures_raise
  | |- ensures _ (raise_exception _ _ _) => apply ensures_raise
  | |- ensures _ (try_except _ _) => apply ensures_try_except; [| intros ?]
  | |- ensures _ (match ?x with _ => _ end) => destruct x
  end.

Ltac keeps_step :=
  match goal with
  | |- keeps _ (mbind _ _) => apply keeps_bind; [| intros ?]
  | |- keeps _ (mret _) => apply keeps_ret
  | |- keeps _ (raise _) => apply keeps_raise
  | |- keeps _ (raise_exception _ _ _) => apply keeps_raise
  | |- keeps _ out_of_fuel => apply keeps_out_of_fuel
  | |- keeps _ (try_except _ _) => apply keeps_try_except; [| intros ?]
  | |- keeps _ self_ => apply keeps_self
  | |- keeps _ get_sys => apply keeps_get_sys
  | |- keeps _ (getitem _ _) => apply keeps_getitem
  | |- keeps _ (assign _) => apply keeps_assign; intros; reflexivity
  | |- keeps _ (update _) => apply keeps_update; intros; reflexivity
  | |- keeps _ (call _) => apply keeps_call; intros; reflexivity
  | |- keeps _ (match ?x with _ => _ end) => destruct x
  end.

Ltac split_view H :=
  unfold sched_view, acc_view, stop_view, thread_view, remote_view, egg_view in H;
  cbn [fst snd] in H;
  repeat (let H' := fresh "Hv" in
          apply pair_equal_spec in H; destruct H as [H H']).

Section Frames.
Context {W : Type} (E : Env W) (self : Traits).

Lemma queue_put_sched s item : keeps sched_view (queue_put (W:=W) s item).
Proof. unfold queue_put. repeat keeps_step. Qed.

Lemma _load_model_sched s : keeps sched_view (_load_model (W:=W) s).
Proof. unfold _load_model. repeat keeps_step. all: apply queue_put_sched. Qed.

Lemma _model_set_sched s name idx v : keeps sched_view (_model_set E s name idx v).
Proof. unfold _model_set. repeat keeps_step. Qed.

Lemma _model_get_sched s name idx : keeps sched_view (_model_get E s name idx).
Proof. unfold _model_get. repeat keeps_step. Qed.

Lemma queue_put_acc s item : keeps acc_view (queue_put (W:=W) s item).
Proof. unfold queue_put. repeat keeps_step. Qed.

Lemma _model_execute_acc s : keeps acc_view (_model_execute E s).
Proof. unfold _model_execute, stop. repeat keeps_step. all: apply queue_put_acc. Qed.

(** The only thing [_model_execute] does to the stop flag is to raise it,
    when the workflow asked for a stop. *)
Lemma _model_execute_stop s st :
  stop_raised (_stop (drv st)) (_stop (drv (_model_execute E s st).2)).
Proof.
  intros Hstop. unfold _model_execute, stop. msimpl.
  destruct s as [k|]; msimpl.
  - pose proof (queue_put_sched (Some k)
      (Some (_remote_model_execute_req (Some k)))
      (set_drv (set_exceptions (<[Some k:=None]> (_exceptions (drv st))) (drv st)) st))
      as Hq.
    split_view Hq. msimpl. congruence.
  - destruct (workflow_run E (world st)) as [[w stopped] [[]|t]]; msimpl;
      destruct stopped; msimpl; done.
Qed.

Lemma set_events_sched s events : keeps sched_view (set_events E s events).
Proof.
  induction events as [|ev rest IH]; cbn [set_events]; repeat keeps_step; auto.
  apply _model_set_sched.
Qed.

Lemma set_inputs_sched s inputs : keeps sched_view (set_inputs E self s inputs).
Proof.
  induction inputs as [|[[name idx] v] rest IH]; cbn [set_inputs];
    repeat keeps_step; auto.
  apply _model_set_sched.
Qed.

Lemma get_outputs_sched s pending done case :
  keeps sched_view (get_outputs E self s pending done case).
Proof.
  revert done case.
  induction pending as [|[[name idx] old] rest IH]; intros done case;
    cbn [get_outputs]; repeat keeps_step; auto.
  apply _model_get_sched.
Qed.
End Frames.

(** Symbolic execution of a run [H : m st = (r, st')]: [mexpose] uncovers
    the first call that does not compute, [mcase] splits on its outcome. *)
Ltac mexpose H :=
  msimpl;
  repeat (first [rewrite try_except_raw in H | rewrite bind_raw in H]; cbn beta in H);
  msimpl.

Ltac mcase H name :=
  mexpose H;
  match type of H with
  | context [match ?x with _ => _ end] =>
      lazymatch x with
      | match _ with _ => _ end => fail
      | _ => destruct x as [[?|?|] ?] eqn:name
      end
  end; msimpl.

(** From a run [H : m st = (r, st')] and a frame lemma, the equation between
    the observations. *)
Ltac frame H lem :=
  let Hv := fresh "Hv" in
  lazymatch type of H with
  | ?m ?st = _ =>
      pose proof (lem st) as Hv; rewrite H in Hv; split_view Hv; msimpl
  end.

Section RunCase.
Context {W : Type} (E : Env W) (self : Traits).
Implicit Types st : Sys W.

(** The [try] block of [_run_case]. *)
Lemma _run_case_try_effect s inputs st r st' :
  (set_events E s (get_events self);;
   set_inputs E self s inputs;;
   _model_execute E s;;
   assign (fun d => set_server_states (<[s:=_COMPLETE]> (_server_states d)) d))
    st = (r, st') ->
  recorded st' = recorded st /\ _iter (drv st') = _iter (drv st) /\
  _todo (drv st') = _todo (drv st) /\ _rerun (drv st') = _rerun (drv st) /\
  _server_cases (drv st') = _server_cases (drv st) /\
  _in_use (drv st') = _in_use (drv st) /\
  stop_raised (_stop (drv st)) (_stop (drv st')) /\
  _server_states (drv st') =
    match r with
    | Ok _ => <[s:=_COMPLETE]> (_server_states (drv st))
    | _ => _server_states (drv st)
    end.
Proof.
  intros Hrun. unfold stop_raised.
  mcase Hrun Rev; frame Rev (set_events_sched E s (get_events self)).
  2,3: simplify_eq; repeat split; congruence.
  mcase Hrun Rin; frame Rin (set_inputs_sched E self s inputs).
  2,3: simplify_eq; repeat split; congruence.
  mcase Hrun Rex; frame Rex (_model_execute_acc E s).
  all: pose proof (_model_execute_stop E s s1) as Hstop; rewrite Rex in Hstop.
  all: unfold stop_raised in Hstop; cbn [snd] in Hstop.
  all: simplify_eq; msimpl; repeat split; try congruence.
  all: intros; apply Hstop; congruence.
Qed.

(** What [_run_case] does to the books. *)
Lemma _run_case_effect case s rerun st r st' :
  _run_case E self case s rerun st = (r, st') ->
  let c := prepare self case rerun in
  let d := drv st in
  let d' := drv st' in
  _iter d' = _iter d /\ _todo d' = _todo d /\ _in_use d' = _in_use d /\
  stop_raised (_stop d) (_stop d') /\
  match r with
  | Ok _ =>
      (_server_states d' = <[s := _COMPLETE]> (_server_states d) /\
       _server_cases d' = <[s := Some c]> (_server_cases d) /\
       _rerun d' = _rerun d /\ recorded st' = recorded st)
      \/
      (_server_states d' = <[s := _ERROR]> (_server_states d) /\
       lt_int_opt (Case.retries c) (Case.max_retries c) = true /\
       let c' := Case.set_retries (Case.retries c + 1) c in
       _server_cases d' = <[s := Some c']> (_server_cases d) /\
       _rerun d' = _rerun d ++ [c'] /\ recorded st' = recorded st)
      \/
      (_server_states d' = <[s := _ERROR]> (_server_states d) /\
       lt_int_opt (Case.retries c) (Case.max_retries c) = false /\
       exists t,
         let c' := Case.set_msg (Some t) c in
         _server_cases d' = <[s := Some c']> (_server_cases d) /\
         _rerun d' = _rerun d /\
         recorded st' = recorded st ++ (if recorder self then [c'] else []))
  | _ =>
      _server_states d' = _server_states d /\
      _server_cases d' = <[s := Some c]> (_server_cases d) /\
      _rerun d' = _rerun d /\ recorded st' = recorded st
  end.
Proof.
  intros Hrun c d d'. subst d d'. unfold _run_case in Hrun.
  fold (prepare self case rerun) in Hrun. fold c in Hrun. msimpl.
  set (st1 := set_drv _ st) in Hrun.
  rewrite try_except_raw in Hrun.
  match type of Hrun with context [match ?x with _ => _ end] =>
    destruct x as [[[]|e|] st2] eqn:Hbody end.
  all: apply _run_case_try_effect in Hbody; subst st1; msimpl.
  all: destruct Hbody as (Hrec & Hiter & Htodo & Hrerun & Hcases & Huse & Hstop & Hstates).
  all: assert (forall st3 : Sys W, _stop (drv st3) = _stop (drv st2) ->
         stop_raised (_stop (drv st)) (_stop (drv st3))) as Hstop'
         by (intros st3 Heq; unfold stop_raised in *; rewrite Heq; exact Hstop).
  1,3: simplify_eq; split_and!; try congruence; auto.
  destruct e; msimpl; simplify_eq; try (split_and!; auto; congruence).
  destruct (lt_int_opt (Case.retries c) (Case.max_retries c)) eqn:Hlt; msimpl.
  - simplify_eq; msimpl. split_and!; try congruence; auto. right; left.
    rewrite Hstates, Hcases, Hrerun, insert_insert_eq. by split_and!.
  - destruct (recorder self); unfold record in Hrun; msimpl; simplify_eq; msimpl.
    all: split_and!; try congruence; auto; right; right.
    all: rewrite Hstates, Hcases, Hrerun, ?Hrec, insert_insert_eq.
    all: split; [done|]; split; [done|]; eexists; split_and!; try done.
    by rewrite app_nil_r.
Qed.

(** [_run_case] refines its relation on the books. *)
Lemma _run_case_refines case s rerun st st' :
  _run_case E self case s rerun st = (Ok tt, st') ->
  run_rel self case rerun (books s st) (books s st') /\
  agree_off s (drv st) (drv st') /\
  _in_use (drv st') = _in_use (drv st).
Proof.
  intros Hrun. apply _run_case_effect in Hrun.
  destruct Hrun as (Hiter & Htodo & Huse & Hstop & Hcases).
  assert (forall x y, _server_states (drv st') = <[s:=x]> (_server_states (drv st)) ->
          _server_cases (drv st') = <[s:=y]> (_server_cases (drv st)) ->
          agree_off s (drv st) (drv st')) as Hoff.
  { intros x y Hx Hy s' Hne. rewrite Hx, Hy. by rewrite !lookup_insert_ne. }
  destruct Hcases as [(Hs & Hc & Hr & Hrec)|[(Hs & Hlt & Hc & Hr & Hrec)|(Hs & Hlt & t & Hc & Hr & Hrec)]].
  - split_and!; eauto.
    replace (books s st') with
      {| b_recorded := b_recorded (books s st); b_todo := b_todo (books s st);
         b_rerun := b_rerun (books s st); b_iter := b_iter (books s st);
         b_state := Some _COMPLETE;
         b_case := Some (Some (prepare self case rerun));
         b_stop := _stop (drv st') |}.
    { by constructor. }
    unfold books; cbn. rewrite Hs, Hc, Hr, Hrec, Hiter, Htodo, !lookup_insert_eq. done.
  - split_and!; eauto.
    replace (books s st') with
      {| b_recorded := b_recorded (books s st); b_todo := b_todo (books s st);
         b_rerun := b_rerun (books s st) ++
           [Case.set_retries (Case.retries (prepare self case rerun) + 1)
              (prepare self case rerun)];
         b_iter := b_iter (books s st);
         b_state := Some _ERROR;
         b_case := Some (Some (Case.set_retries
                 (Case.retries (prepare self case rerun) + 1)
                 (prepare self case rerun)));
         b_stop := _stop (drv st') |}.
    { by constructor. }
    unfold books; cbn. rewrite Hs, Hc, Hr, Hrec, Hiter, Htodo, !lookup_insert_eq. done.
  - split_and!; eauto.
    replace (books s st') with
      {| b_recorded := b_recorded (books s st) ++
           record_if self (Case.set_msg (Some t) (prepare self case rerun));
         b_todo := b_todo (books s st);
         b_rerun := b_rerun (books s st);
         b_iter := b_iter (books s st);
         b_state := Some _ERROR;
         b_case := Some (Some (Case.set_msg (Some t) (prepare self case rerun)));
         b_stop := _stop (drv st') |}.
    { by constructor. }
    unfold books; cbn. rewrite Hs, Hc, Hr, Hrec, Hiter, Htodo, !lookup_insert_eq. done.
Qed.
End RunCase.

(** Rewrites the fields of later states into those of earlier ones. *)
Ltac chase :=
  repeat match goal with
         | H : recorded ?x = _ |- context [recorded ?x] => rewrite H
         | H : _iter (drv ?x) = _ |- context [_iter (drv ?x)] => rewrite H
         | H : _todo (drv ?x) = _ |- context [_todo (drv ?x)] => rewrite H
         | H : _rerun (drv ?x) = _ |- context [_rerun (drv ?x)] => rewrite H
         | H : _server_states (drv ?x) = _ |- context [_server_states (drv ?x)] =>
             rewrite H
         | H : _server_cases (drv ?x) = _ |- context [_server_cases (drv ?x)] =>
             rewrite H
         | H : _in_use (drv ?x) = _ |- context [_in_use (drv ?x)] => rewrite H
         | H : _stop (drv ?x) = _ |- context [_stop (drv ?x)] => rewrite H
         end.

Ltac solve_books :=
  unfold books, with_state, with_todo, with_rerun, with_iter; msimpl; chase;
  rewrite ?lookup_insert_eq; f_equal; congruence.

Ltac books_is B' :=
  match goal with
  | |- tick_rel _ _ _ _ ?B => replace B with B'; [|solve_books]
  | |- run_rel _ _ _ _ ?B => replace B with B'; [|solve_books]
  end.

Ltac solve_agree :=
  let s' := fresh "s'" in
  let Hne := fresh "Hne" in
  intros s' Hne; msimpl; chase; rewrite ?lookup_insert_ne by done; done.

Section Tick.
Context {W : Type} (E : Env W) (self : Traits).
Implicit Types st : Sys W.

Lemma _load_model_run s st r st' :
  _load_model s st = (r, st') ->
  (r = Ok true \/ r = Raise KeyError) /\ sched_view st' = sched_view st.
Proof.
  intros Hrun. frame Hrun (_load_model_sched (W:=W) s).
  split; [|unfold sched_view; congruence].
  unfold _load_model, queue_put, getitem in Hrun. destruct s as [k|]; mexpose Hrun.
  - destruct (_queues (drv st) !! Some k); msimpl; simplify_eq; auto.
  - simplify_eq; auto.
Qed.

Lemma get_outputs_run s pending done case st :
  exists c' st',
    get_outputs E self s pending done case st = (Ok c', st') /\
    harvested case c' /\ sched_view st' = sched_view st.
Proof.
  revert done case st.
  induction pending as [|[[name idx] old] rest IH]; intros done case st;
    cbn [get_outputs].
  - eexists _, _. split; [reflexivity|]. by split.
  - msimpl. rewrite bind_raw, try_except_raw, bind_raw.
    destruct (_model_get E s name idx st) as [[v|e|] st1] eqn:Hget.
    all: frame Hget (_model_get_sched E s name idx).
    + destruct (IH (done ++ [(name, idx, Some v)]) case st1) as (c' & st' & Hrun & Hh & Hv').
      eexists _, _. split; [exact Hrun|]. split; [done|].
      rewrite Hv'. unfold sched_view. congruence.
    + match goal with |- context [get_outputs _ _ _ _ ?d ?c] =>
        destruct (IH d c st1) as (c' & st' & Hrun & Hh & Hv') end.
      eexists _, _. split; [exact Hrun|]. split.
      * destruct Hh as (? & ? & ? & ?). by split_and!.
      * rewrite Hv'. unfold sched_view. congruence.
    + (* [_model_get] has no loop *)
      exfalso. unfold _model_get, call, getitem in Hget. destruct s; msimpl.
      * destruct (_top_levels (drv st) !! Some n); msimpl; [|done].
        by destruct (tlo_get E t name idx (world st)) as [? []].
      * by destruct (parent_get E name idx (world st)) as [? []].
Qed.

Lemma agree_off_refl s d : agree_off s d d.
Proof. by intros s' _. Qed.

(** [_server_ready] refines the state machine on the books. *)
Lemma _server_ready_refines s stepping st b st' :
  _server_ready E self s stepping st = (Ok b, st') ->
  tick_rel self stepping (books s st) b (books s st') /\
  agree_off s (drv st) (drv st') /\
  _in_use (drv st') = _in_use (drv st).
Proof.
  intros Hrun. unfold _server_ready, getitem in Hrun. mexpose Hrun.
  destruct (_server_states (drv st) !! s) as [state|] eqn:Hstate; msimpl; [|done].
  destruct state.
  - (* _EMPTY *)
    destruct (negb (truthy_list (_todo (drv st))) && negb (truthy_list (_rerun (drv st)))
              && bool_decide (_iter (drv st) = None)) eqn:Hidle; msimpl.
    + injection Hrun as <- <-. split_and!; [|apply agree_off_refl|done].
      apply andb_prop in Hidle as [Hidle Hiter].
      apply andb_prop in Hidle as [Htodo Hrerun].
      apply bool_decide_eq_true in Hiter.
      apply tick_empty_idle; cbn; auto.
      * by destruct (_todo (drv st)).
      * by destruct (_rerun (drv st)).
    + mcase Hrun Hload; apply _load_model_run in Hload as [Hr Hv];
        split_view Hv.
      2,3: destruct Hr as [Hr|Hr]; simplify_eq.
      injection Hrun as <- <-. split_and!.
      * books_is (with_state _READY (books s st)).
        apply tick_empty_load; [done|]. cbn. intros (Ht & Hr' & Hi).
        rewrite Ht, Hr', Hi in Hidle. by cbn in Hidle.
      * solve_agree.
      * msimpl. congruence.
  - (* _READY *)
    destruct (_stop (drv st)) eqn:Hstop; msimpl.
    { injection Hrun as <- <-.
      split_and!; [by apply tick_ready_stop|apply agree_off_refl|done]. }
    destruct (_todo (drv st)) as [|case todo] eqn:Htodo.
    2: { mcase Hrun Hcase; try done. injection Hrun as <- <-. destruct a.
         apply _run_case_refines in Hcase as (Hrel & Hoff & Huse).
         split_and!; [|exact Hoff|exact Huse].
         eapply tick_ready_todo; [done..|exact Hrel]. }
    destruct (_rerun (drv st)) as [|case rerun] eqn:Hrerun.
    2: { mcase Hrun Hcase; try done. injection Hrun as <- <-. destruct a.
         apply _run_case_refines in Hcase as (Hrel & Hoff & Huse).
         split_and!; [|exact Hoff|exact Huse].
         eapply tick_ready_rerun; [done..|exact Hrel]. }
    destruct (_iter (drv st)) as [it|] eqn:Hiter.
    2: { injection Hrun as <- <-.
         split_and!; [apply tick_ready_idle; auto|apply agree_off_refl|done]. }
    destruct stepping.
    { injection Hrun as <- <-.
      split_and!; [apply tick_ready_idle; auto|apply agree_off_refl|done]. }
    unfold next in Hrun. mexpose Hrun. rewrite Hiter in Hrun.
    destruct it as [|case rest]; msimpl.
    + injection Hrun as <- <-. split_and!; [|solve_agree|done].
      books_is (with_iter None (books s st)). by apply tick_ready_exhausted.
    + mcase Hrun Hcase; try done. injection Hrun as <- <-. destruct a.
      apply _run_case_refines in Hcase as (Hrel & Hoff & Huse).
      split_and!; [|exact Hoff|exact Huse].
      eapply tick_ready_next; [done..|exact Hrel].
  - (* _COMPLETE *)
    destruct (_server_cases (drv st) !! s) as [case|] eqn:Hcase; mexpose Hrun;
      [|done].
    unfold _model_status, getitem in Hrun. mexpose Hrun.
    destruct (_exceptions (drv st) !! s) as [exc|]; msimpl; [|done].
    destruct case as [case|]; msimpl; [|done].
    set (st1 := set_drv (set_server_cases _ _) st) in Hrun.
    pose (reload := fun c' : Case =>
            (if negb (truthy_str (Case.msg c'))
             then if reload_model self then _load_model s;; mret () else mret ()
             else _load_model s;; mret ()) : M W unit).
    assert (exists c' st2, harvested case c' /\ sched_view st2 = sched_view st1 /\
              match (if recorder self then record c' else mret ()) st2 with
              | (Ok _, st3) =>
                  match reload c' st3 with
                  | (Ok _, st4) =>
                      (Ok true,
                       set_drv (set_server_states (<[s:=_READY]> (_server_states (drv st4)))
                                  (drv st4)) st4)
                  | (Raise e, st4) =>
                      match e with
                      | _ServerError _ => (Ok true, st4)
                      | _ => (Raise e, st4)
                      end
                  | (OutOfFuel, st4) => (OutOfFuel, st4)
                  end
              | (Raise e, st3) => (Raise e, st3)
              | (OutOfFuel, st3) => (OutOfFuel, st3)
              end = (Ok b, st')) as (c' & st2 & Hh & Hv2 & Htail).
    { subst reload. cbn beta. destruct exc as [exc|].
      - exists (Case.set_msg (Some (str exc)) case), st1. split; [done|]. split; [done|].
        rewrite <- Hrun. clear Hrun. unfold record. msimpl.
        destruct (recorder self); msimpl.
        all: repeat match goal with
                    | |- context [if ?c then _ else _] => destruct c
                    end; msimpl; try reflexivity.
        all: rewrite ?bind_raw; try reflexivity.
        all: match goal with |- context [_load_model ?k ?x] =>
               destruct (_load_model k x) as [[?|[]|] ?] end; reflexivity.
      - destruct (get_outputs_run s (Case.outputs case) [] case st1)
          as (c' & st2 & Hget & Hh & Hv2).
        exists c', st2. split; [done|]. split; [done|].
        rewrite bind_raw, Hget in Hrun.
        rewrite <- Hrun. clear Hrun. unfold record. msimpl.
        destruct (recorder self); msimpl.
        all: repeat match goal with
                    | |- context [if ?c then _ else _] => destruct c
                    end; msimpl; try reflexivity.
        all: rewrite ?bind_raw; try reflexivity.
        all: match goal with |- context [_load_model ?k ?x] =>
               destruct (_load_model k x) as [[?|[]|] ?] end; reflexivity. }
    clear Hrun.
    assert (forall (m : M W unit) st3 r st4,
              m = (_load_model s;; mret ()) \/ m = mret () ->
              m st3 = (r, st4) ->
              (r = Ok () \/ r = Raise KeyError) /\ sched_view st4 = sched_view st3)
      as Hreload.
    { intros m st3 r st4 [->| ->] Hm.
      - rewrite bind_run in Hm.
        destruct (_load_model s st3) as [r' st5] eqn:Hload.
        apply _load_model_run in Hload as [[->| ->] Hv]; msimpl;
          injection Hm as <- <-; auto.
      - msimpl. injection Hm as <- <-. auto. }
    assert (reload c' = (_load_model s;; mret ()) \/ reload c' = mret ()) as Hm.
    { subst reload. cbn beta. repeat case_match; auto. }
    clearbody reload.
    set (st3 := (if recorder self then record c' else mret ()) st2) in Htail.
    assert (st3 = (Ok (), set_recorded (recorded st2 ++ record_if self c') st2)) as Hst3.
    { subst st3. unfold record_if, record. destruct (recorder self); msimpl; [done|].
      rewrite app_nil_r. by destruct st2. }
    rewrite Hst3 in Htail. clear st3 Hst3.
    destruct (reload c' _) as [r4 st4] eqn:Hr4.
    apply (Hreload _ _ _ _ Hm) in Hr4 as [[->| ->] Hv4]; [|done].
    injection Htail as <- <-.
    split_view Hv2. split_view Hv4. subst st1. msimpl.
    split_and!; [|solve_agree|congruence].
    books_is {| b_recorded := b_recorded (books s st) ++ record_if self c';
                b_todo := b_todo (books s st);
                b_rerun := b_rerun (books s st); b_iter := b_iter (books s st);
                b_state := Some _READY;
                b_case := Some None; b_stop := b_stop (books s st) |}.
    by eapply tick_complete.
  - (* _ERROR *)
    mcase Hrun Hload; apply _load_model_run in Hload as [Hr Hv]; split_view Hv.
    2,3: destruct Hr as [Hr|Hr]; simplify_eq.
    injection Hrun as <- <-. split_and!; [|solve_agree|msimpl; congruence].
    books_is {| b_recorded := b_recorded (books s st);
                b_todo := b_todo (books s st);
                b_rerun := b_rerun (books s st); b_iter := b_iter (books s st);
                b_state := Some _READY;
                b_case := Some None; b_stop := b_stop (books s st) |}.
    by apply tick_error.
Qed.
End Tick.

(** ** What can be raised *)

Section Raises.
Context {W : Type}.
Implicit Types st : Sys W.

Lemma raises_ret {A} P (a : A) : raises_only (W:=W) P (mret a).
Proof. by intros st e. Qed.

Lemma raises_raise {A} (P : exn -> Prop) e : P e -> raises_only (W:=W) (A:=A) P (raise e).
Proof. intros He st e'. cbn. by intros [= <-]. Qed.

Lemma raises_self P : raises_only (W:=W) P self_.
Proof. by intros st e. Qed.

Lemma raises_get_sys P : raises_only (W:=W) P get_sys.
Proof. by intros st e. Qed.

Lemma raises_assign P f : raises_only (W:=W) P (assign f).
Proof. by intros st e. Qed.

Lemma raises_update P f : raises_only (W:=W) P (update f).
Proof. by intros st e. Qed.

Lemma raises_getitem {K A} `{Countable K} (P : exn -> Prop) (m : gmap K A) k :
  P KeyError -> raises_only (W:=W) P (getitem m k).
Proof. intros HP st e. unfold getitem. destruct (m !! k); cbn; [done|]. by intros [= <-]. Qed.

Lemma raises_call {A} (P : exn -> Prop) (f : W -> W * outcome A) :
  (forall t, P (Exception t)) -> raises_only P (call f).
Proof.
  intros HP st e. unfold call. destruct (f (world st)) as [w [a|t]]; cbn; [done|].
  by intros [= <-].
Qed.

Lemma raises_bind {A B} P (m : M W A) (f : A -> M W B) :
  raises_only P m -> (forall a, raises_only P (f a)) -> raises_only P (m ≫= f).
Proof.
  intros Hm Hf st e. rewrite bind_run. specialize (Hm st).
  destruct (m st) as [[a|e'|] st1]; cbn in *.
  - apply Hf.
  - intros [= <-]. by apply Hm.
  - done.
Qed.

Lemma raises_try_except {A} P Q (m : M W A) h :
  raises_only Q m -> (forall e, Q e -> raises_only P (h e)) ->
  raises_only P (try_except m h).
Proof.
  intros Hm Hh st e. unfold try_except. specialize (Hm st).
  destruct (m st) as [[a|e'|] st1]; cbn in *; [done| |done].
  apply Hh. by apply Hm.
Qed.

Lemma raises_weaken {A} (P Q : exn -> Prop) (m : M W A) :
  raises_only Q m -> (forall e, Q e -> P e) -> raises_only P m.
Proof. intros Hm HQ st e He. apply HQ. by eapply Hm. Qed.
End Raises.

Ltac raises_step :=
  match goal with
  | |- raises_only _ (mbind _ _) => apply raises_bind; [| intros ?]
  | |- raises_only _ (mret _) => apply raises_ret
  | |- raises_only _ self_ => apply raises_self
  | |- raises_only _ get_sys => apply raises_get_sys
  | |- raises_only _ (assign _) => apply raises_assign
  | |- raises_only _ (update _) => apply raises_update
  | |- raises_only _ (record _) => apply raises_update
  | |- raises_only _ (getitem _ _) => apply raises_getitem; unfold crash; auto
  | |- raises_only _ (raise _) => apply raises_raise; unfold crash; eauto
  | |- raises_only _ (match ?x with _ => _ end) => destruct x
  end.

Section RaisesDriver.
Context {W : Type} (E : Env W) (self : Traits).

Lemma queue_put_raises s item : raises_only (W:=W) crash (queue_put s item).
Proof. unfold queue_put. repeat raises_step. Qed.

Lemma _load_model_raises s : raises_only (W:=W) crash (_load_model s).
Proof. unfold _load_model. repeat raises_step. all: apply queue_put_raises. Qed.

Lemma _model_set_raises s name idx v :
  raises_only (fun e => e = KeyError \/ exists t, e = Exception t)
    (_model_set E s name idx v).
Proof.
  unfold _model_set. repeat raises_step. all: apply raises_call; eauto.
Qed.

Lemma set_events_raises s events : raises_only crash (set_events E s events).
Proof.
  induction events as [|ev rest IH]; cbn [set_events]; repeat raises_step; auto.
  eapply raises_try_except; [apply _model_set_raises|].
  intros e _. repeat raises_step.
Qed.

Lemma set_inputs_raises s inputs :
  raises_only (fun e => exists t, e = _ServerError t) (set_inputs E self s inputs).
Proof.
  induction inputs as [|[[name idx] v] rest IH]; cbn [set_inputs];
    repeat raises_step; auto.
  eapply raises_try_except; [apply _model_set_raises|].
  intros e _. unfold raise_exception. repeat raises_step.
Qed.

Lemma _model_execute_raises s : raises_only crash (_model_execute E s).
Proof.
  unfold _model_execute, stop. repeat raises_step. apply queue_put_raises.
Qed.

Lemma _run_case_raises case s rerun :
  raises_only crash (_run_case E self case s rerun).
Proof.
  unfold _run_case. repeat raises_step.
  eapply raises_try_except with (Q := fun e => crash e \/ exists t, e = _ServerError t).
  - repeat raises_step.
    + eapply raises_weaken; [apply set_events_raises|auto].
    + eapply raises_weaken; [apply set_inputs_raises|auto].
    + eapply raises_weaken; [apply _model_execute_raises|auto].
  - intros e [He|[t ->]].
    + destruct He as [->|[->| ->]]; repeat raises_step.
    + repeat raises_step.
Qed.

Lemma _server_ready_raises s stepping :
  raises_only crash (_server_ready E self s stepping).
Proof.
  unfold _server_ready, _model_status, next. repeat raises_step.
  all: try apply _run_case_raises.
  - eapply raises_try_except with (Q := crash).
    + repeat raises_step. apply _load_model_raises.
    + intros e [->|[->| ->]]; repeat raises_step.
  - eapply raises_try_except
      with (Q := fun e => e = StopIteration \/ e = AttributeError).
    + repeat raises_step.
    + intros e [->| ->]; repeat raises_step.
  - eapply raises_try_except with (Q := crash).
    + repeat raises_step.
      all: try apply _load_model_raises.
      intros st e He.
      match type of He with
      | context [get_outputs _ _ _ ?p ?d ?c] =>
          destruct (get_outputs_run E self s p d c st) as (c' & st' & Hg & _)
      end.
      by rewrite Hg in He.
    + intros e [->|[->| ->]]; repeat raises_step.
  - eapply raises_try_except with (Q := crash).
    + repeat raises_step. apply _load_model_raises.
    + intros e [->|[->| ->]]; repeat raises_step.
Qed.
End RaisesDriver.

(** ** Properties of the state machine on the books *)

(** Permutations that only move single elements to the front. *)
Ltac perm :=
  rewrite <- ?app_assoc; cbn [app];
  rewrite <- ?Permutation_middle, ?app_nil_r; try reflexivity.

Section BooksProperties.
Context (self : Traits).

Lemma prepare_cid case rerun : Case.cid (prepare self case rerun) = Case.cid case.
Proof. unfold prepare. by repeat case_match. Qed.

Lemma run_rel_acct case rerun b b' :
  recorder self = true -> fly b = [] ->
  run_rel self case rerun b b' -> acct b' ≡ₚ Case.cid case :: acct b.
Proof.
  intros Hrec Hfly Hrun. unfold acct.
  destruct Hrun; unfold fly, record_if in *; cbn in *; rewrite ?Hrec, ?Hfly;
    unfold cids; rewrite ?fmap_app; cbn; rewrite ?prepare_cid.
  all: perm.
  all: subst c; by rewrite prepare_cid.
Qed.

(** Every case stays on the books exactly once through a step. *)
Lemma tick_rel_acct stepping b r b' :
  recorder self = true -> tick_rel self stepping b r b' -> acct b' ≡ₚ acct b.
Proof.
  intros Hrec Htick.
  destruct Htick as [| | |case todo b' Hs Hstop Htodo Hrun
                      |case rerun b' Hs Hstop Htodo Hrerun Hrun| |
                      |case rest b' Hs Hstop Htodo Hrerun Hiter Hstep Hrun
                      |case case' Hs Hc Hh|]; try done.
  - unfold acct, fly, with_state; cbn. by rewrite H.
  - apply run_rel_acct in Hrun; [|done|unfold fly; cbn; by rewrite Hs].
    rewrite Hrun. unfold acct, fly; cbn. rewrite Htodo, Hs. cbn. perm.
  - apply run_rel_acct in Hrun; [|done|unfold fly; cbn; by rewrite Hs].
    rewrite Hrun. unfold acct, fly; cbn. rewrite Htodo, Hrerun, Hs. cbn. perm.
  - unfold acct, fly; cbn. by rewrite H3.
  - apply run_rel_acct in Hrun; [|done|unfold fly; cbn; by rewrite Hs].
    rewrite Hrun. unfold acct, fly; cbn. rewrite Htodo, Hrerun, Hiter, Hs. cbn. perm.
  - unfold acct, fly, record_if; cbn. rewrite Hs, Hc, Hrec. cbn.
    destruct Hh as (Hcid & _). unfold cids. rewrite fmap_app. cbn.
    rewrite Hcid. perm.
  - unfold acct, fly; cbn. by rewrite H.
Qed.

(** A server that [_server_ready] reports as no longer in use holds no
    case, and was let go because a stop is pending or because both queues
    are empty and, unless stepping, so is the iterator. *)
Lemma tick_rel_retire stepping b b' :
  tick_rel self stepping b false b' ->
  fly b' = [] /\
  (b_stop b' = true \/
   (b_todo b' = [] /\ b_rerun b' = [] /\ (b_iter b' = None \/ stepping = true))).
Proof.
  inversion 1; subst; unfold fly; cbn;
    repeat match goal with H : b_state _ = _ |- _ => rewrite H; clear H end;
    cbn; split; auto; right; split_and!; auto.
Qed.

(** Once nothing is left to hand out, nothing ever is again. *)
Lemma tick_rel_drained stepping b r b' :
  tick_rel self stepping b r b' ->
  b_todo b = [] -> b_rerun b = [] -> b_iter b = None ->
  b_todo b' = [] /\ b_rerun b' = [] /\ b_iter b' = None.
Proof.
  intros Htick Htodo Hrerun Hiter.
  inversion Htick; subst; cbn; try congruence; by split_and!.
Qed.


(** While stepping, [_server_ready] leaves the iterator alone. *)
Lemma tick_rel_stepping b r b' :
  tick_rel self true b r b' -> b_iter b' = b_iter b.
Proof.
  assert (forall case rerun b b', run_rel self case rerun b b' ->
            b_iter b' = b_iter b) as Hrun.
  { intros case rerun b0 b0'. by inversion 1. }
  inversion 1; subst; cbn; try done.
  all: match goal with H : run_rel _ _ _ _ _ |- _ => apply Hrun in H; cbn in H end.
  all: done.
Qed.

(** The recorder only ever receives more. *)
Lemma tick_rel_recorded stepping b r b' :
  tick_rel self stepping b r b' ->
  exists more, b_recorded b' = b_recorded b ++ more.
Proof.
  assert (forall case rerun b b', run_rel self case rerun b b' ->
            exists more, b_recorded b' = b_recorded b ++ more) as Hrun.
  { intros case rerun b0 b0'. inversion 1; subst; cbn; eauto.
    all: exists []; by rewrite app_nil_r. }
  inversion 1; subst; cbn; eauto.
  all: try (exists []; by rewrite app_nil_r).
  all: match goal with H : run_rel _ _ _ _ _ |- _ => apply Hrun in H; cbn in H end.
  all: done.
Qed.
End BooksProperties.

(** ** The account of a system *)

Section Account.
Context {W : Type}.
Implicit Types (st : Sys W) (d : Driver).

Lemma flights_lookup d s :
  flights d !! s = flight (_server_states d !! s) (_server_cases d !! s).
Proof.
  unfold flights. rewrite lookup_merge.
  by destruct (_server_states d !! s), (_server_cases d !! s).
Qed.

Lemma fly_books s st :
  fly (books s st) =
    match flights (drv st) !! s with Some i => [i] | None => [] end.
Proof. unfold fly, books; cbn. by rewrite flights_lookup. Qed.

Lemma inflight_split s d :
  inflight d ≡ₚ
    match flights d !! s with Some i => [i] | None => [] end ++ others s d.
Proof.
  unfold inflight, others. destruct (flights d !! s) as [i|] eqn:Hs.
  - rewrite <- (map_to_list_delete _ _ _ Hs). done.
  - by rewrite delete_id.
Qed.

Lemma others_agree s d d' : agree_off s d d' -> others s d' = others s d.
Proof.
  intros Hoff. unfold others. f_equal. f_equal. apply map_eq. intros s'.
  destruct (decide (s' = s)) as [->|Hne].
  - by rewrite !lookup_delete_eq.
  - rewrite !lookup_delete_ne by done. rewrite !flights_lookup.
    by destruct (Hoff s' Hne) as [-> ->].
Qed.

Lemma account_books s st :
  account st ≡ₚ acct (books s st) ++ others s (drv st).
Proof.
  unfold account, acct. rewrite fly_books, (inflight_split s). cbn.
  unfold remaining. rewrite <- !app_assoc.
  do 4 apply Permutation_app_head. apply Permutation_app_comm.
Qed.
End Account.

(** ** One call of [_server_ready] *)

Section TickSys.
Context {W : Type} (E : Env W) (self : Traits).
Implicit Types st : Sys W.

Lemma _server_ready_account s stepping st b st' :
  recorder self = true ->
  _server_ready E self s stepping st = (Ok b, st') ->
  account st' ≡ₚ account st.
Proof.
  intros Hrec Hrun. apply _server_ready_refines in Hrun as (Htick & Hoff & _).
  rewrite (account_books s st'), (account_books s st).
  rewrite (others_agree _ _ _ Hoff). f_equiv. by eapply tick_rel_acct.
Qed.

Lemma _server_ready_recorded s stepping st b st' :
  _server_ready E self s stepping st = (Ok b, st') ->
  exists more, recorded st' = recorded st ++ more.
Proof.
  intros Hrun. apply _server_ready_refines in Hrun as (Htick & _).
  by apply tick_rel_recorded in Htick.
Qed.

End TickSys.

(** ** Setting up and cleaning up *)

Section Setup.
Context {W : Type} (E : Env W) (self : Traits).
Implicit Types st : Sys W.

Lemma _cleanup_run remove_egg st :
  exists w egg_file,
    _cleanup E remove_egg st =
      (Ok (), set_world w (set_drv (cleaned egg_file (drv st)) st)).
Proof.
  destruct st as [[f1 f2 f3 f4 f5 f6 f7 f8 f9 f10 f11 f12 f13 f14 f15 f16]
                    w0 rec rq rqs th tr].
  unfold _cleanup. mcompute.
  destruct f4 as [f|].
  - destruct (truthy_str (Some f) && path_exists E f w0).
    + by exists (os_remove E f w0), None.
    + by exists w0, (Some f).
  - by exists w0, None.
Qed.

Lemma setup_run replicate st r st' :
  setup E self replicate st = (r, st') ->
  match r with
  | Ok _ =>
      exists cases w replicants egg_file,
        iterator self = Some cases /\
        st' = set_world w
                (set_drv (set_iter (Some cases)
                            (set_replicants replicants (cleaned egg_file (drv st)))) st)
  | Raise e => exists text, e = ValueError text
  | OutOfFuel => False
  end.
Proof.
  intros Hrun. unfold setup in Hrun.
  destruct (_cleanup_run replicate st) as (w & egg_file & Hclean).
  rewrite bind_run, Hclean in Hrun. unfold get_case_iterator, raise_exception in Hrun.
  destruct (sequential self); mexpose Hrun.
  - destruct (iterator self) as [cases|]; mexpose Hrun.
    + injection Hrun as Hr Hst. subst r st'.
      exists cases, w, (_replicants (drv st)), egg_file. split; [done|].
      destruct st as [[] ? ? ? ? ? ?]. reflexivity.
    + injection Hrun as Hr Hst. subst r. eauto.
  - match type of Hrun with
    | context [if ?c then _ else _] => destruct c
    end; mexpose Hrun.
    + destruct (save_to_egg E (S (_replicants (drv st))) w) as [w' egg_info] eqn:Hegg.
      mexpose Hrun.
      destruct (iterator self) as [cases|]; mexpose Hrun.
      * injection Hrun as Hr Hst. subst r st'.
        exists cases, w', (S (_replicants (drv st))), (Some egg_info). split; [done|].
        destruct st as [[] ? ? ? ? ? ?]. reflexivity.
      * injection Hrun as Hr Hst. subst r. eauto.
    + destruct (iterator self) as [cases|]; mexpose Hrun.
      * injection Hrun as Hr Hst. subst r st'.
        exists cases, w, (_replicants (drv st)), egg_file. split; [done|].
        destruct st as [[] ? ? ? ? ? ?]. reflexivity.
      * injection Hrun as Hr Hst. subst r. eauto.
Qed.
End Setup.

(** ** The sequential path *)

Section Sequential.
Context {W : Type} (E : Env W) (self : Traits).
Implicit Types st : Sys W.

Lemma evolves_refl st : evolves st st.
Proof. split_and!; [done..|]. exists []. by rewrite app_nil_r. Qed.

Lemma evolves_trans st1 st2 st3 :
  evolves st1 st2 -> evolves st2 st3 -> evolves st1 st3.
Proof.
  intros (Ha & Ho & m & Hm) (Ha' & Ho' & m' & Hm'). split_and!.
  - by rewrite Ha'.
  - congruence.
  - exists (m ++ m'). by rewrite Hm', Hm, app_assoc.
Qed.

Lemma _server_ready_evolves stepping st b st' :
  recorder self = true ->
  _server_ready E self None stepping st = (Ok b, st') -> evolves st st'.
Proof.
  intros Hrec Hrun. split_and!.
  - by eapply _server_ready_account.
  - apply _server_ready_refines in Hrun as (_ & Hoff & _). by apply others_agree.
  - by eapply _server_ready_recorded.
Qed.

Lemma evolves_books st st' :
  agree_off None (drv st) (drv st') ->
  recorded st' = recorded st ->
  acct (books None st') ≡ₚ acct (books None st) ->
  evolves st st'.
Proof.
  intros Hoff Hrec Hacct. split_and!.
  - rewrite (account_books None st'), (account_books None st).
    by rewrite (others_agree _ _ _ Hoff), Hacct.
  - by apply others_agree.
  - exists []. by rewrite app_nil_r.
Qed.

Lemma while_server_ready_run fuel st st' :
  recorder self = true ->
  while_server_ready E self fuel st = (Ok (), st') ->
  evolves st st' /\ settled st' /\ _iter (drv st') = _iter (drv st).
Proof.
  intros Hrec. revert st. induction fuel as [|fuel IH]; intros st Hrun; [done|].
  cbn [while_server_ready] in Hrun. rewrite bind_run in Hrun.
  destruct (_server_ready E self None true st) as [[b| |] st1] eqn:Htick; [|done..].
  assert (_iter (drv st1) = _iter (drv st)) as Hit.
  { apply _server_ready_refines in Htick as (Htick & _).
    by apply tick_rel_stepping in Htick. }
  destruct b.
  - apply IH in Hrun as (Hev & Hset & Hit'). split_and!; [|done|congruence].
    eapply evolves_trans; [|exact Hev]. by eapply _server_ready_evolves.
  - injection Hrun as <-. split_and!; [by eapply _server_ready_evolves| |done].
    apply _server_ready_refines in Htick as (Htick & _).
    apply tick_rel_retire in Htick as [Hfly Hq]. split; [done|].
    destruct Hq as [Hq|(Ht & Hr & _)]; [by left|by right].
Qed.

Lemma while_server_ready_raises fuel :
  raises_only crash (while_server_ready E self fuel).
Proof.
  induction fuel as [|fuel IH]; cbn [while_server_ready].
  - by intros st e.
  - apply raises_bind; [apply _server_ready_raises|]. intros []; [done|].
    apply raises_ret.
Qed.

Lemma while_server_ready_no_stop fuel st st' :
  while_server_ready E self fuel st <> (Raise StopIteration, st').
Proof.
  intros Hrun. pose proof (while_server_ready_raises fuel st StopIteration) as Hc.
  rewrite Hrun in Hc. by destruct Hc as [|[|]].
Qed.

(** One [step()] of a run in progress. *)
Lemma step_run fuel st r st' :
  recorder self = true ->
  _iter (drv st) <> None -> fly (books None st) = [] ->
  step E self fuel st = (r, st') ->
  match r with
  | Ok _ => evolves st st' /\ settled st' /\ _iter (drv st') <> None
  | Raise StopIteration =>
      st' = set_drv (set_iter None (set_stop false (drv st))) st /\
      _iter (drv st) = Some [] /\ _rerun (drv st) = []
  | _ => True
  end.
Proof.
  intros Hrec Hiter Hfly Hrun. unfold step, next in Hrun. mexpose Hrun.
  rewrite (bool_decide_eq_false_2 _ Hiter) in Hrun. mexpose Hrun.
  assert (flight (Some _EMPTY) (Some None) = None) as Hempty by done.
  unfold fly in Hfly. cbn [books b_state b_case] in Hfly.
  destruct (_iter (drv st)) as [[|case rest]|] eqn:Hit; [| |done]; mexpose Hrun.
  - (* the iterator is exhausted *)
    destruct (_rerun (drv st)) as [|c rerun] eqn:Hrerun; mexpose Hrun.
    + injection Hrun as <- <-. split_and!; [|done..]. reflexivity.
    + set (st1 := set_drv _ _) in Hrun.
      destruct r as [[]|e|]; [| |done].
      2: { destruct e; try done. by apply while_server_ready_no_stop in Hrun. }
      apply while_server_ready_run in Hrun as (Hev & Hset & Hit'); [|done].
      split_and!; [|done|].
      * eapply evolves_trans; [|exact Hev]. subst st1.
        apply evolves_books; [solve_agree|done|].
        unfold acct, fly, books; msimpl. rewrite !lookup_insert_eq, Hit, Hrerun.
        cbn [flight]. by destruct (flight _ _).
      * rewrite Hit'. subst st1. msimpl. by rewrite Hit.
  - set (st1 := set_drv _ _) in Hrun.
    destruct r as [[]|e|]; [| |done].
    2: { destruct e; try done. by apply while_server_ready_no_stop in Hrun. }
    apply while_server_ready_run in Hrun as (Hev & Hset & Hit'); [|done].
    split_and!; [|done|].
    * eapply evolves_trans; [|exact Hev]. subst st1.
      apply evolves_books; [solve_agree|done|].
      unfold acct, fly, books; msimpl. rewrite !lookup_insert_eq, Hit.
      cbn [flight]. destruct (flight _ _); [done|].
      unfold cids. rewrite !fmap_app. cbn. perm.
    * rewrite Hit'. subst st1. by msimpl.
Qed.

Lemma sequential_loop_run n fuel st st' :
  recorder self = true -> settled st ->
  sequential_loop E self n fuel st = (Ok (), st') ->
  evolves st st' /\ settled st' /\
  (_stop (drv st') = true \/ _iter (drv st') = None).
Proof.
  intros Hrec. revert st. induction n as [|n IH]; intros st Hset Hrun; [done|].
  cbn [sequential_loop] in Hrun. mexpose Hrun.
  destruct (bool_decide (_iter (drv st) = None)) eqn:Hnone; mexpose Hrun.
  { injection Hrun as <-. apply bool_decide_eq_true in Hnone.
    split_and!; auto using evolves_refl. }
  apply bool_decide_eq_false in Hnone.
  destruct (_stop (drv st)) eqn:Hstop; mexpose Hrun.
  { injection Hrun as <-. split_and!; auto using evolves_refl. }
  destruct (step E self fuel st) as [r st1] eqn:Hstep.
  destruct Hset as [Hfly Hq].
  pose proof (step_run _ _ _ _ Hrec Hnone Hfly Hstep) as Hs.
  destruct r as [[]|e|]; msimpl; [| |done].
  - destruct Hs as (Hev & Hset1 & _).
    apply IH in Hrun as (Hev' & Hset' & Hend); [|done].
    split_and!; [|done..]. by eapply evolves_trans.
  - destruct e; try done. injection Hrun as <-.
    destruct Hs as (-> & Hit & Hrerun).
    destruct Hq as [Hq|[Htodo _]]; [congruence|].
    split_and!.
    + apply evolves_books; [solve_agree|done|].
      unfold acct, fly, books; msimpl. by rewrite Hit.
    + split; [done|]. right. by msimpl.
    + by right.
Qed.

Lemma inflight_empty d :
  _server_states d = ∅ -> inflight d = [].
Proof.
  intros Hs. unfold inflight, flights.
  replace (merge flight (_server_states d) (_server_cases d)) with (∅ : gmap server nat).
  { by rewrite map_to_list_empty. }
  symmetry. apply map_eq. intros s. rewrite lookup_merge, Hs, !lookup_empty.
  by destruct (_server_cases d !! s).
Qed.

(** Every case of a sequential run that comes to its end is recorded
    once. *)
Lemma execute_sequential fuel sched st st' :
  recorder self = true -> sequential self = true ->
  execute E self fuel sched st = (Ok (), st') ->
  exists cases new,
    iterator self = Some cases /\
    recorded st' = recorded st ++ new /\
    cids new ≡ₚ cids cases.
Proof.
  intros Hrec Hseq Hrun. unfold execute in Hrun. rewrite bind_run in Hrun.
  destruct (setup E self true st) as [r st0] eqn:Hsetup.
  apply setup_run in Hsetup. destruct r as [[]| |]; [|done..].
  destruct Hsetup as (cases & w & rep & egg_file & Hcases & ->).
  exists cases. unfold resume in Hrun. rewrite Hseq in Hrun. mexpose Hrun.
  rewrite (bool_decide_eq_false_2 (Some cases = None)) in Hrun by done.
  mexpose Hrun.
  match type of Hrun with context [try_finally _ _ ?s] => set (st0 := s) in * end.
  unfold try_finally in Hrun.
  destruct (sequential_loop E self fuel fuel st0) as [r st1] eqn:Hloop.
  destruct (_cleanup_run E true st1) as (w' & egg_file' & Hclean).
  rewrite Hclean in Hrun. destruct r as [[]| |]; [|done..]. mexpose Hrun.
  destruct (_stop (drv st1)) eqn:Hstop; [done|]. injection Hrun as <-.
  assert (settled st0) as Hset0.
  { split; [|by right]. unfold fly, books; subst st0; msimpl.
    by rewrite !lookup_empty. }
  apply sequential_loop_run in Hloop as (Hev & [Hfly Hq] & Hend); [|done..].
  destruct Hend as [Hend|Hend]; [congruence|].
  destruct Hq as [Hq|[Htodo Hrerun]]; [congruence|].
  destruct Hev as (Hacc & Hoth & more & Hmore).
  exists more. split; [done|]. split; [by subst st0|].
  assert (account st0 = cids (recorded st) ++ cids cases) as Hacc0.
  { unfold account. rewrite inflight_empty by (by subst st0).
    subst st0. unfold remaining. msimpl. done. }
  assert (account st1 ≡ₚ cids (recorded st1)) as Hacc1.
  { rewrite (account_books None). unfold acct. rewrite Hfly, Hoth.
    unfold others. replace (flights (drv st0)) with (∅ : gmap server nat).
    2: { symmetry. apply map_eq. intros s. unfold flights.
         rewrite lookup_merge. subst st0. msimpl. by rewrite !lookup_empty. }
    rewrite delete_empty, map_to_list_empty. cbn [books b_recorded b_todo b_rerun b_iter].
    rewrite Htodo, Hrerun, Hend. cbn. by rewrite !app_nil_r. }
  rewrite Hacc1, Hacc0, Hmore in Hacc. unfold cids in Hacc. rewrite fmap_app in Hacc.
  replace (recorded st0) with (recorded st) in Hacc by (by subst st0).
  by apply Permutation_app_inv_l in Hacc.
Qed.
End Sequential.

(** ** A stop that is pending stays pending *)


Section Stopping.
Context {W : Type} (E : Env W) (self : Traits).
Implicit Types st : Sys W.

Lemma stopping_sched {A} (m : M W A) : keeps sched_view m -> preserves stopping m.
Proof.
  intros Hm. apply (keeps_preserves _ _ _ Hm). intros st st' Hv.
  split_view Hv. unfold stopping. congruence.
Qed.

Lemma queue_put_stopping s item : preserves (W:=W) stopping (queue_put s item).
Proof. apply stopping_sched, queue_put_sched. Qed.









End Stopping.

(** ** Worker threads and their server handles *)

Section Threads.
Context {W : Type} (E : Env W) (self : Traits).
Implicit Types st : Sys W.

Lemma held_insert_fresh (ts : gmap nat thread) k t :
  ts !! k = None ->
  held (<[k := t]> ts) ≡ₚ option_list (owes t) ++ held ts.
Proof.
  intros Hk. unfold held. rewrite map_to_list_insert by done. cbn.
  by destruct (owes t).
Qed.

Lemma held_lookup (ts : gmap nat thread) k t :
  ts !! k = Some t ->
  held ts ≡ₚ option_list (owes t) ++ held (delete k ts).
Proof.
  intros Hk. rewrite <- (insert_delete_id ts k t) at 1 by done.
  apply held_insert_fresh, lookup_delete_eq.
Qed.

Lemma held_insert (ts : gmap nat thread) k t :
  held (<[k := t]> ts) ≡ₚ option_list (owes t) ++ held (delete k ts).
Proof.
  rewrite <- insert_delete_eq. apply held_insert_fresh, lookup_delete_eq.
Qed.

Lemma queue_put_threads s item : keeps (W:=W) thread_view (queue_put s item).
Proof. unfold queue_put. repeat keeps_step. Qed.

Lemma _load_model_threads s : keeps (W:=W) thread_view (_load_model s).
Proof. unfold _load_model. repeat keeps_step. all: apply queue_put_threads. Qed.

Lemma _model_set_threads s name idx v : keeps thread_view (_model_set E s name idx v).
Proof. unfold _model_set. repeat keeps_step. Qed.

Lemma _model_get_threads s name idx : keeps thread_view (_model_get E s name idx).
Proof. unfold _model_get. repeat keeps_step. Qed.

Lemma _model_execute_threads s : keeps thread_view (_model_execute E s).
Proof.
  unfold _model_execute, stop. repeat keeps_step. all: apply queue_put_threads.
Qed.

Lemma set_events_threads s events : keeps thread_view (set_events E s events).
Proof.
  induction events as [|ev rest IH]; cbn [set_events]; repeat keeps_step; auto.
  apply _model_set_threads.
Qed.

Lemma set_inputs_threads s inputs : keeps thread_view (set_inputs E self s inputs).
Proof.
  induction inputs as [|[[name idx] v] rest IH]; cbn [set_inputs];
    repeat keeps_step; auto.
  apply _model_set_threads.
Qed.

Lemma get_outputs_threads s pending done case :
  keeps thread_view (get_outputs E self s pending done case).
Proof.
  revert done case.
  induction pending as [|[[name idx] old] rest IH]; intros done case;
    cbn [get_outputs]; repeat keeps_step; auto.
  apply _model_get_threads.
Qed.

Lemma _run_case_threads case s rerun :
  keeps thread_view (_run_case E self case s rerun).
Proof.
  unfold _run_case, record. repeat keeps_step.
  - apply set_events_threads.
  - apply set_inputs_threads.
  - apply _model_execute_threads.
Qed.

Lemma _server_ready_threads s stepping :
  keeps thread_view (_server_ready E self s stepping).
Proof.
  unfold _server_ready, _model_status, next, record. repeat keeps_step.
  all: try apply _run_case_threads.
  all: try apply _load_model_threads.
  all: apply get_outputs_threads.
Qed.

Lemma _cleanup_threads remove_egg : keeps thread_view (_cleanup E remove_egg).
Proof. unfold _cleanup. repeat keeps_step. Qed.

Lemma setup_threads replicate : keeps thread_view (setup E self replicate).
Proof.
  unfold setup, get_case_iterator. repeat keeps_step.
  all: apply _cleanup_threads.
Qed.

Lemma while_server_ready_threads fuel :
  keeps thread_view (while_server_ready E self fuel).
Proof.
  induction fuel as [|fuel IH]; cbn [while_server_ready]; repeat keeps_step; auto.
  apply _server_ready_threads.
Qed.

Lemma step_threads fuel : keeps thread_view (step E self fuel).
Proof.
  unfold step, next. repeat keeps_step.
  all: first [apply setup_threads|apply while_server_ready_threads].
Qed.

Lemma sequential_loop_threads n fuel :
  keeps thread_view (sequential_loop E self n fuel).
Proof.
  induction n as [|n IH]; cbn [sequential_loop]; repeat keeps_step; auto.
  apply step_threads.
Qed.
(** What one [_remote_load_model] does to the log of transfers and to the
    server's cached egg name. *)
Lemma _remote_load_model_run s st r st' :
  _remote_load_model E s st = (r, st') ->
  _egg_file (drv st') = _egg_file (drv st) /\
  threads st' = threads st /\ acc_view st' = acc_view st /\
  stop_view st' = stop_view st /\
  (forall s', s' <> s -> _server_info (drv st') !! s' = _server_info (drv st) !! s') /\
  match _server_info (drv st) !! s with
  | None => r = Raise KeyError /\ trace st' = trace st
  | Some cached =>
      (if bool_decide (cached = _egg_file (drv st))
       then trace st' = trace st /\ _server_info (drv st') = _server_info (drv st)
       else match _servers (drv st) !! s with
            | Some h => trace st' = trace st ++ [Filexfer s (_egg_file (drv st))]
            | None => r = Raise KeyError /\ trace st' = trace st
            end) /\
      forall b, r = Ok b -> _server_info (drv st') !! s = Some (_egg_file (drv st))
  end.
Proof.
  intros Hrun. unfold _remote_load_model, getitem, log, call in Hrun. mexpose Hrun.
  destruct (_server_info (drv st) !! s) as [cached|] eqn:Hinfo; msimpl.
  2: { by injection Hrun as <- <-. }
  destruct (bool_decide (cached = _egg_file (drv st))) eqn:Hsame; msimpl.
  - apply bool_decide_eq_true in Hsame. subst cached.
    destruct (_servers (drv st) !! s) as [[h|]|]; mexpose Hrun.
    2,3: by injection Hrun as <- <-.
    match type of Hrun with context [server_load_model E ?h ?e ?w0] =>
      destruct (server_load_model E h e w0) as [w' [[t|]|text]] end; mexpose Hrun.
    all: by injection Hrun as <- <-.
  - destruct (_servers (drv st) !! s) as [h|] eqn:Hsrv; mexpose Hrun.
    2: { by injection Hrun as <- <-. }
    match type of Hrun with context [filexfer E ?h ?e ?w0] =>
      destruct (filexfer E h e w0) as [w [[]|text]] end; mexpose Hrun.
    2: { injection Hrun as <- <-. by split_and!. }
    rewrite Hsrv in Hrun. mexpose Hrun.
    destruct h as [h|]; mexpose Hrun.
    2: { injection Hrun as <- <-. msimpl. split_and!; try done.
         - intros s' Hne. by rewrite lookup_insert_ne. }
    match type of Hrun with context [server_load_model E ?h ?e ?w0] =>
      destruct (server_load_model E h e w0) as [w' [[t|]|text]] end; mexpose Hrun.
    all: injection Hrun as <- <-; msimpl; split_and!; try done.
    all: try (intros s' Hne; by rewrite lookup_insert_ne).
    all: intros; by rewrite lookup_insert_eq.
Qed.

Lemma _remote_model_execute_threads s :
  keeps thread_view (_remote_model_execute E s).
Proof. unfold _remote_model_execute. repeat keeps_step. Qed.

(** Serving a request allocates and releases nothing. *)
Lemma serve_threads req st r st' :
  serve E req st = (r, st') ->
  threads st' = threads st /\
  exists evs, trace st' = trace st ++ evs /\
    handles_allocated evs = [] /\ handles_released evs = [].
Proof.
  intros Hrun. destruct req as [s|s]; unfold serve in Hrun.
  - rewrite bind_run in Hrun.
    destruct (_remote_load_model E s st) as [r1 st1] eqn:Hload.
    assert (st' = st1) as -> by (destruct r1; by injection Hrun as <- <-).
    apply _remote_load_model_run in Hload as (_ & Hth & _ & _ & _ & Hload).
    split; [done|].
    destruct (_server_info (drv st) !! s) as [cached|].
    + destruct Hload as [Hload _]. case_bool_decide.
      * exists []. rewrite app_nil_r. by destruct Hload.
      * destruct (_servers (drv st) !! s).
        -- by eexists.
        -- exists []. rewrite app_nil_r. by destruct Hload.
    + exists []. rewrite app_nil_r. by destruct Hload.
  - rewrite bind_run in Hrun.
    pose proof (_remote_model_execute_threads s st) as Hv.
    destruct (_remote_model_execute E s st) as [r1 st1].
    assert (st' = st1) as -> by (destruct r1; by injection Hrun as <- <-).
    split_view Hv. split; [done|]. exists []. by rewrite app_nil_r.
Qed.

Lemma balanced_step t0 st st' k t t' evs :
  threads st !! k = Some t ->
  trace st' = trace st ++ evs ->
  threads st' = <[k := t']> (threads st) ->
  handles_allocated evs ++ option_list (owes t)
    ≡ₚ handles_released evs ++ option_list (owes t') ->
  balanced t0 st -> balanced t0 st'.
Proof.
  intros Hk Htr Hth Hstep (evs0 & Htr0 & Hbal).
  exists (evs0 ++ evs). split; [by rewrite Htr, Htr0, app_assoc|].
  unfold handles_allocated, handles_released in *. rewrite !omap_app.
  rewrite Hth, held_insert. rewrite (held_lookup _ _ _ Hk) in Hbal.
  rewrite Hbal. rewrite <- !app_assoc. apply Permutation_app_head.
  set (ot := option_list (owes t)) in *. set (ot' := option_list (owes t')) in *.
  set (hd := held (delete k (threads st))).
  transitivity ((omap (fun e => match e with Allocated _ (Some h) => Some h | _ => None end) evs
                 ++ ot) ++ hd).
  - rewrite (app_assoc ot), (Permutation_app_comm (ot ++ hd)).
    by rewrite !app_assoc.
  - by rewrite Hstep, <- !app_assoc.
Qed.

Lemma balanced_frame t0 st st' :
  thread_view st' = thread_view st -> balanced t0 st -> balanced t0 st'.
Proof.
  intros Hv (evs & Htr & Hbal). split_view Hv. exists evs. by rewrite Hv, Hv0.
Qed.

Lemma same_threads_insert (ts : gmap nat thread) k t t' k' :
  ts !! k = Some t -> is_Some (<[k := t']> ts !! k') <-> is_Some (ts !! k').
Proof.
  intros Hk. destruct (decide (k' = k)) as [->|Hne].
  - rewrite lookup_insert_eq, Hk. split; eauto.
  - by rewrite lookup_insert_ne.
Qed.

(** A step of a worker thread keeps the balance of handles: it allocates
    before it holds one, and it gives back the one it holds on its way
    out, whichever way that is. *)
Lemma _service_loop_step_balanced k st r st' t0 :
  _service_loop_step E k st = (r, st') ->
  balanced t0 st ->
  balanced t0 st' /\
  forall k', is_Some (threads st' !! k') <-> is_Some (threads st !! k').
Proof.
  intros Hrun Hbal. unfold _service_loop_step, log, reply_put, set_thread in Hrun.
  mexpose Hrun.
  destruct (threads st !! k) as [t|] eqn:Hk; [|by injection Hrun as <- <-].
  assert (forall evs t',
            trace st' = trace st ++ evs ->
            threads st' = <[k := t']> (threads st) ->
            handles_allocated evs ++ option_list (owes t)
              ≡ₚ handles_released evs ++ option_list (owes t') ->
            balanced t0 st' /\
            forall k', is_Some (threads st' !! k') <-> is_Some (threads st !! k'))
    as Hgoal.
  { intros evs t' Htr Hth Hstep. split; [by eapply balanced_step|].
    intros k'. rewrite Hth. by eapply same_threads_insert. }
  destruct t as [|h|h|h res|h|]; mexpose Hrun.
  - (* TAllocate *)
    destruct (RAM_allocate E k (world st)) as [w [h|]]; mexpose Hrun.
    + injection Hrun as <- <-. by eapply (Hgoal [Allocated k (Some h)]).
    + destruct (_reply_q (drv st)); mexpose Hrun; injection Hrun as <- <-;
        by eapply (Hgoal [Allocated k None]); [|done|]; rewrite ?app_nil_r.
  - (* TRegister *)
    destruct (_server_lock (drv st)); mexpose Hrun; injection Hrun as <- <-;
      by eapply (Hgoal []); [by rewrite app_nil_r|done|].
  - (* TAckStartup *)
    injection Hrun as <- <-. by eapply (Hgoal []); [by rewrite app_nil_r|done|].
  - (* TServe *)
    destruct (request_qs st !! k) as [[|[req|] rest]|]; mexpose Hrun.
    1,4: by injection Hrun as <- <-.
    + match type of Hrun with context [serve E req ?x] =>
        destruct (serve E req x) as [r1 st1] eqn:Hserve end.
      apply serve_threads in Hserve as (Hth & evs & Htr & Ha & Hr).
      cbn in Hth, Htr.
      destruct r1 as [x|e|]; mexpose Hrun.
      * injection Hrun as <- <-. eapply (Hgoal evs); cbn; rewrite ?Ha, ?Hr, ?Hth; done.
      * destruct res; mexpose Hrun; injection Hrun as <- <-;
          eapply (Hgoal evs); cbn; rewrite ?Ha, ?Hr, ?Hth; done.
      * injection Hrun as <- <-. split.
        -- destruct Hbal as (evs0 & Htr0 & Hbal). exists (evs0 ++ evs).
           split; [by rewrite Htr, Htr0, app_assoc|].
           unfold handles_allocated, handles_released in *.
           rewrite !omap_app, Ha, Hr, !app_nil_r, Hth. done.
        -- by rewrite Hth.
    + injection Hrun as <- <-. by eapply (Hgoal []); [by rewrite app_nil_r|done|].
  - (* TRelease *)
    injection Hrun as <- <-. by eapply (Hgoal [Released h]).
  - (* TExit *)
    by injection Hrun as <- <-.
Qed.

(** The phases of [_start] come in order. *)
Lemma _start_step_follows pc : ensures (follows pc) (_start_step E self pc).
Proof.
  unfold _start_step. destruct pc as [m n|m n| |[|i]| |e]; repeat ensures_step;
    cbn; eauto.
Qed.

Lemma _start_step_threads pc :
  (forall m n, pc <> CStartup m n) -> keeps thread_view (_start_step E self pc).
Proof.
  intros Hpc. unfold _start_step, reply_get, shut_down_servers.
  destruct pc as [m n|m n| |[|i]| |e]; [by destruct (Hpc m n)|..];
    repeat keeps_step.
  all: apply _server_ready_threads.
Qed.

(** Starting a worker is all the startup loop does to the threads. *)
Lemma _start_step_startup m n st r st' :
  _start_step E self (CStartup m n) st = (r, st') ->
  trace st' = trace st /\
  (threads st' = threads st /\ r <> Ok (CPoll m (S n)) \/
   threads st' = <[S n := TAllocate]> (threads st)).
Proof.
  intros Hrun. unfold _start_step, next, set_thread in Hrun. mexpose Hrun.
  repeat match type of Hrun with
         | context [if ?c then _ else _] => destruct c; mexpose Hrun
         end.
  all: try (injection Hrun as <- <-; split; [done|]; left; by split).
  all: destruct (_iter (drv st)) as [[|c rest]|]; mexpose Hrun.
  all: repeat match type of Hrun with
         | context [if ?c then _ else _] => destruct c; mexpose Hrun
         end.
  all: injection Hrun as <- <-; split; [done|]; auto.
  all: left; by split.
Qed.

Lemma _start_step_balanced pc st r st' t0 :
  _start_step E self pc st = (r, st') ->
  balanced t0 st -> numbered pc st ->
  balanced t0 st' /\ forall pc', r = Ok pc' -> numbered pc' st'.
Proof.
  intros Hrun Hbal Hnum.
  assert (forall pc', r = Ok pc' -> follows pc pc') as Hnext.
  { intros pc' ->. by eapply ensures_run; [apply _start_step_follows|]. }
  assert ((exists m n, pc = CStartup m n) \/ forall m n, pc <> CStartup m n)
    as [(m & n & ->)|Hpc] by (destruct pc; eauto; by right).
  - apply _start_step_startup in Hrun as (Htr & [[Hth Hr]|Hth]).
    + split.
      * eapply balanced_frame; [|exact Hbal]. unfold thread_view. congruence.
      * intros pc' ->. destruct (Hnext _ eq_refl) as [->| ->]; [done|].
        by destruct Hr.
    + assert (threads st !! S n = None) as Hfresh.
      { destruct (threads st !! S n) eqn:Hk; [|done].
        cbn in Hnum. specialize (Hnum (S n)). rewrite Hk in Hnum.
        specialize (Hnum (mk_is_Some _ _ eq_refl)). lia. }
      split.
      * destruct Hbal as (evs & Htr0 & Hbal). exists evs.
        split; [congruence|]. by rewrite Hth, held_insert_fresh.
      * intros pc' ->. destruct (Hnext _ eq_refl) as [->| ->]; [done|].
        cbn. intros k. rewrite Hth. destruct (decide (k = S n)) as [->|Hne]; [lia|].
        rewrite lookup_insert_ne by done. intros Hk. cbn in Hnum.
        specialize (Hnum k Hk). lia.
  - pose proof (_start_step_threads pc) as Hkeep.
    assert (thread_view st' = thread_view st) as Hv.
    { specialize (Hkeep Hpc st). by rewrite Hrun in Hkeep. }
    split; [by eapply balanced_frame|].
    intros pc' ->. specialize (Hnext _ eq_refl). split_view Hv.
    destruct pc as [m n|m n| |i| |e]; cbn in Hnext.
    + by destruct (Hpc m n).
    + destruct Hnext as [->| ->]; cbn; by rewrite Hv.
    + by destruct Hnext as [->|[i ->]].
    + by destruct Hnext as [->|(j & -> & _)].
    + by subst.
    + by subst.
Qed.

(** The balance holds through any interleaving of the coordinator and the
    worker threads. *)
Lemma run_schedule_balanced sched pc st r st' t0 :
  run_schedule E self sched pc st = (r, st') ->
  balanced t0 st -> numbered pc st -> balanced t0 st'.
Proof.
  revert pc st. induction sched as [|a sched IH]; intros pc st Hrun Hbal Hnum.
  { destruct pc; by injection Hrun as <- <-. }
  assert (forall st1, stop st1 = (Ok (), set_drv (set_stop true (drv st1)) st1))
    as Hstop by done.
  destruct a as [|k|].
  - (* the coordinator *)
    assert (run_schedule E self (Coord :: sched) pc st =
            match pc with
            | CDone | CRaised _ => (Ok pc, st)
            | _ => (pc' ← try_except (_start_step E self pc)
                             (fun exc => mret (CRaised exc));
                    run_schedule E self sched pc') st
            end) as Heq by (by destruct pc).
    rewrite Heq in Hrun. clear Heq.
    assert ((pc = CDone \/ exists e, pc = CRaised e) \/
            (pc <> CDone /\ forall e, pc <> CRaised e)) as [Hfin|Hgo]
      by (destruct pc; eauto; by right).
    { destruct Hfin as [->|[e ->]]; by injection Hrun as <- <-. }
    assert ((pc' ← try_except (_start_step E self pc)
                      (fun exc => mret (CRaised exc));
             run_schedule E self sched pc') st = (r, st')) as Hrun'.
    { destruct Hgo as [Hd He]. destruct pc; try done; by destruct (He e). }
    clear Hrun. rewrite bind_run, try_except_raw in Hrun'.
    destruct (_start_step E self pc st) as [r1 st1] eqn:Hstep.
    apply (_start_step_balanced _ _ _ _ t0) in Hstep as [Hbal1 Hnum1]; [|done..].
    destruct r1 as [pc1|e|]; cbn in Hrun'.
    + eapply IH; [exact Hrun'|done|by apply Hnum1].
    + eapply IH; [exact Hrun'|done..].
    + by injection Hrun' as <- <-.
  - (* a worker thread *)
    assert (run_schedule E self (Work k :: sched) pc st =
            match pc with
            | CDone | CRaised _ => (Ok pc, st)
            | _ => (_service_loop_step E k;; run_schedule E self sched pc) st
            end) as Heq by (by destruct pc).
    rewrite Heq in Hrun. clear Heq.
    assert ((pc = CDone \/ exists e, pc = CRaised e) \/
            (pc <> CDone /\ forall e, pc <> CRaised e)) as [Hfin|Hgo]
      by (destruct pc; eauto; by right).
    { destruct Hfin as [->|[e ->]]; by injection Hrun as <- <-. }
    assert ((_service_loop_step E k;; run_schedule E self sched pc) st = (r, st'))
      as Hrun'.
    { destruct Hgo as [Hd He]. destruct pc; try done; by destruct (He e). }
    clear Hrun. rewrite bind_run in Hrun'.
    destruct (_service_loop_step E k st) as [r1 st1] eqn:Hstep.
    apply (_service_loop_step_balanced _ _ _ _ t0) in Hstep as [Hbal1 Hdom]; [|done].
    destruct r1 as [[]|e|]; cbn in Hrun'.
    + eapply IH; [exact Hrun'|done|].
      destruct pc; cbn in *; try done; intros k' Hk'; apply Hnum; by apply Hdom.
    + by injection Hrun' as <- <-.
    + by injection Hrun' as <- <-.
  - (* stop() *)
    assert (run_schedule E self (Stop :: sched) pc st =
            match pc with
            | CDone | CRaised _ => (Ok pc, st)
            | _ => run_schedule E self sched pc
                     (set_drv (set_stop true (drv st)) st)
            end) as Heq by (by destruct pc).
    rewrite Heq in Hrun. clear Heq.
    assert ((pc = CDone \/ exists e, pc = CRaised e) \/
            (pc <> CDone /\ forall e, pc <> CRaised e)) as [Hfin|Hgo]
      by (destruct pc; eauto; by right).
    { destruct Hfin as [->|[e ->]]; by injection Hrun as <- <-. }
    eapply (IH pc (set_drv (set_stop true (drv st)) st)).
    + destruct Hgo as [Hd He]. destruct pc; try done; by destruct (He e).
    + by eapply balanced_frame.
    + by destruct pc.
Qed.

Lemma balanced_init st : threads st = ∅ -> balanced (trace st) st.
Proof.
  intros Hth. exists []. rewrite app_nil_r, Hth. split; [done|].
  unfold held. by rewrite map_to_list_empty.
Qed.

Lemma _start_init_threads : keeps thread_view (_start_init E self).
Proof. unfold _start_init. repeat keeps_step. Qed.

Lemma _start_init_follows :
  ensures (fun pc => exists m, pc = CStartup m 0) (_start_init E self).
Proof. unfold _start_init. repeat ensures_step. eauto. Qed.

Lemma _start_balanced sched st r st' :
  threads st = ∅ ->
  _start E self sched st = (r, st') -> balanced (trace st) st'.
Proof.
  intros Hth Hrun. unfold _start in Hrun. rewrite bind_run in Hrun.
  pose proof (_start_init_threads st) as Hv.
  destruct (_start_init E self st) as [r0 st0] eqn:Hinit. split_view Hv.
  assert (balanced (trace st) st0) as Hbal0.
  { eapply balanced_frame; [|by apply balanced_init].
    unfold thread_view. congruence. }
  destruct r0 as [pc| |]; [|by injection Hrun as <- <-..].
  apply (ensures_run _ _ _ _ _ _start_init_follows) in Hinit as [m ->].
  rewrite bind_run in Hrun.
  destruct (run_schedule E self sched (CStartup m 0) st0) as [r1 st1] eqn:Hsched.
  apply (run_schedule_balanced _ _ _ _ _ (trace st)) in Hsched; [|done|].
  - destruct r1 as [[]| |]; by injection Hrun as <- <-.
  - cbn. intros k. rewrite Hv, Hth, lookup_empty. by intros [? ?].
Qed.

Lemma execute_balanced fuel sched st r st' :
  threads st = ∅ ->
  execute E self fuel sched st = (r, st') -> balanced (trace st) st'.
Proof.
  intros Hth Hrun. unfold execute in Hrun. rewrite bind_run in Hrun.
  pose proof (setup_threads true st) as Hv0.
  destruct (setup E self true st) as [r0 st0]. split_view Hv0.
  destruct r0 as [[]| |].
  2,3: injection Hrun as <- <-; eapply balanced_frame; [|by apply balanced_init];
    unfold thread_view; congruence.
  unfold resume in Hrun. rewrite !bind_run in Hrun. cbn in Hrun.
  set (st1 := set_drv _ st0) in Hrun.
  assert (threads st1 = ∅ /\ trace st1 = trace st) as [Hth1 Htr1]
    by (subst st1; cbn; split; congruence).
  clearbody st1. unfold raise_exception in Hrun. mexpose Hrun.
  destruct (bool_decide (_iter (drv st1) = None)); mexpose Hrun;
    [by injection Hrun as <- <-; rewrite <- Htr1; apply balanced_init|].
  unfold try_finally in Hrun.
  match type of Hrun with context [(if sequential self then ?a else ?b) st1] =>
    destruct ((if sequential self then a else b) st1) as [r2 st2] eqn:Hbody end.
  assert (balanced (trace st) st2) as Hbal2.
  { rewrite <- Htr1. destruct (sequential self).
    - pose proof (sequential_loop_threads fuel fuel st1) as Hseq.
      rewrite Hbody in Hseq.
      eapply balanced_frame; [exact Hseq|by apply balanced_init].
    - by eapply _start_balanced. }
  pose proof (_cleanup_threads true st2) as Hv3.
  destruct (_cleanup E true st2) as [r3 st3].
  assert (balanced (trace st) st3) as Hbal3 by (by eapply balanced_frame).
  destruct r3 as [[]| |]; [|by injection Hrun as <- <-..].
  destruct r2 as [[]| |]; [|by injection Hrun as <- <-..].
  mexpose Hrun. destruct (_stop (drv st3)); by injection Hrun as <- <-.
Qed.
End Threads.

(** ** Concurrent runs *)

Section Wire.
Context {W : Type} (E : Env W) (self : Traits).
Implicit Types st : Sys W.

Lemma queue_put_wire s item : keeps (W:=W) wire_view (queue_put s item).
Proof. unfold queue_put. repeat keeps_step. Qed.

Lemma _load_model_wire s : keeps (W:=W) wire_view (_load_model s).
Proof. unfold _load_model. repeat keeps_step. all: apply queue_put_wire. Qed.

Lemma _model_set_wire s name idx v : keeps wire_view (_model_set E s name idx v).
Proof. unfold _model_set. repeat keeps_step. Qed.

Lemma _model_get_wire s name idx : keeps wire_view (_model_get E s name idx).
Proof. unfold _model_get. repeat keeps_step. Qed.

Lemma _model_execute_wire s : keeps wire_view (_model_execute E s).
Proof.
  unfold _model_execute, stop. repeat keeps_step. all: apply queue_put_wire.
Qed.

Lemma set_events_wire s events : keeps wire_view (set_events E s events).
Proof.
  induction events as [|ev rest IH]; cbn [set_events]; repeat keeps_step; auto.
  apply _model_set_wire.
Qed.

Lemma set_inputs_wire s inputs : keeps wire_view (set_inputs E self s inputs).
Proof.
  induction inputs as [|[[name idx] v] rest IH]; cbn [set_inputs];
    repeat keeps_step; auto.
  apply _model_set_wire.
Qed.

Lemma get_outputs_wire s pending done case :
  keeps wire_view (get_outputs E self s pending done case).
Proof.
  revert done case.
  induction pending as [|[[name idx] old] rest IH]; intros done case;
    cbn [get_outputs]; repeat keeps_step; auto.
  apply _model_get_wire.
Qed.

Lemma _run_case_wire case s rerun : keeps wire_view (_run_case E self case s rerun).
Proof.
  unfold _run_case, record. repeat keeps_step.
  - apply set_events_wire.
  - apply set_inputs_wire.
  - apply _model_execute_wire.
Qed.

Lemma _server_ready_wire s stepping :
  keeps wire_view (_server_ready E self s stepping).
Proof.
  unfold _server_ready, _model_status, next, record. repeat keeps_step.
  all: try apply _run_case_wire.
  all: try apply _load_model_wire.
  all: apply get_outputs_wire.
Qed.

(** What a request does in a worker thread is invisible to the
    scheduler's books. *)
Lemma _remote_load_model_sched s : keeps sched_view (_remote_load_model E s).
Proof. unfold _remote_load_model, log. repeat keeps_step. Qed.

Lemma _remote_load_model_wire s : keeps wire_view (_remote_load_model E s).
Proof. unfold _remote_load_model, log. repeat keeps_step. Qed.

Lemma _remote_model_execute_sched s : keeps sched_view (_remote_model_execute E s).
Proof. unfold _remote_model_execute. repeat keeps_step. Qed.

Lemma _remote_model_execute_wire s : keeps wire_view (_remote_model_execute E s).
Proof. unfold _remote_model_execute. repeat keeps_step. Qed.

Lemma serve_sched req : keeps sched_view (serve E req).
Proof.
  unfold serve. destruct req; repeat keeps_step.
  - apply _remote_load_model_sched.
  - apply _remote_model_execute_sched.
Qed.

Lemma serve_wire req : keeps wire_view (serve E req).
Proof.
  unfold serve. destruct req; repeat keeps_step.
  - apply _remote_load_model_wire.
  - apply _remote_model_execute_wire.
Qed.

Lemma _service_loop_step_sched k : keeps sched_view (_service_loop_step E k).
Proof.
  unfold _service_loop_step, log, reply_put, set_thread. repeat keeps_step.
  all: apply serve_sched.
Qed.
End Wire.

Section ThreadSteps.
Context {W : Type} (E : Env W) (self : Traits).
Implicit Types st : Sys W.

Lemma wired_step st st' k t t' extra :
  threads st !! k = Some t ->
  threads st' = <[k := t']> (threads st) ->
  reply_q st' = reply_q st ++ extra ->
  (forall k', registered (drv st) k' -> registered (drv st') k') ->
  (replies t' = true -> registered (drv st') k) ->
  (forall r, r ∈ extra -> r.1.1 = Some k /\ registered (drv st') k) ->
  wired st -> wired st'.
Proof.
  intros Hk Hth Hq Hreg Hnew Hextra [Hreplies Hthreads]. split.
  - intros r. rewrite Hq, elem_of_app. intros [Hr|Hr].
    + destruct (Hreplies r Hr) as (k' & Hname & Hk'). eauto.
    + destruct (Hextra r Hr). eauto.
  - intros k' t1. rewrite Hth. destruct (decide (k' = k)) as [->|Hne].
    + rewrite lookup_insert_eq. intros [= <-]. exact Hnew.
    + rewrite lookup_insert_ne by done. intros Hk' Hrep. eauto.
Qed.

Lemma bounded_step n st st' k t t' :
  threads st !! k = Some t ->
  threads st' = <[k := t']> (threads st) ->
  (forall k', registered (drv st') k' -> registered (drv st) k' \/ k' = k) ->
  bounded n st -> bounded n st'.
Proof.
  intros Hk Hth Hreg [Hthreads Hregs]. split.
  - intros k'. rewrite Hth. rewrite same_threads_insert by done. apply Hthreads.
  - intros k' [Hk'| ->]%Hreg; [by apply Hregs|]. apply Hthreads. by rewrite Hk.
Qed.

Local Ltac wire_solve :=
  try done;
  try match goal with
      | |- forall r, r ∈ [] -> _ =>
          let Hr := fresh in intros ? Hr; by apply elem_of_nil in Hr
      | |- forall r, r ∈ [_] -> _ =>
          intros ? ->%list_elem_of_singleton; split; [done|]; auto
      | |- _ = true -> registered _ _ => intros _; auto
      end.

(** A step of a worker thread, when every allocation gives a server. *)
Lemma _service_loop_step_wired k st st' :
  allocates E ->
  _service_loop_step E k st = (Ok (), st') ->
  wired st ->
  wired st' /\ forall n, bounded n st -> bounded n st'.
Proof.
  intros Halloc Hrun Hwired.
  unfold _service_loop_step, log, reply_put, set_thread in Hrun. mexpose Hrun.
  destruct (threads st !! k) as [t|] eqn:Hk; [|by injection Hrun as <-].
  assert (forall t' extra,
            threads st' = <[k := t']> (threads st) ->
            reply_q st' = reply_q st ++ extra ->
            (_servers (drv st') = _servers (drv st) \/
             exists h, _servers (drv st') = <[Some k := Some h]> (_servers (drv st))) ->
            (replies t' = true -> registered (drv st') k) ->
            (forall r, r ∈ extra -> r.1.1 = Some k /\ registered (drv st') k) ->
            wired st' /\ forall n, bounded n st -> bounded n st') as Hgoal.
  { intros t' extra Hth Hq Hsrv Hnew Hextra.
    assert (forall k', registered (drv st) k' -> registered (drv st') k') as Hup.
    { intros k' [h Hh]. unfold registered.
      destruct Hsrv as [->|[h' ->]]; [by exists h|].
      destruct (decide (k' = k)) as [->|Hne].
      - exists h'. by rewrite lookup_insert_eq.
      - exists h. rewrite lookup_insert_ne by congruence. done. }
    assert (forall k', registered (drv st') k' -> registered (drv st) k' \/ k' = k)
      as Hdown.
    { intros k' [h Hh]. destruct Hsrv as [Heq|[h' Heq]]; rewrite Heq in Hh.
      - left. by exists h.
      - destruct (decide (k' = k)) as [->|Hne]; [by right|].
        left. exists h. rewrite lookup_insert_ne in Hh by congruence. done. }
    split; [by eapply wired_step|]. intros n. by eapply bounded_step. }
  assert (replies t = true -> registered (drv st) k) as Hmine.
  { destruct Hwired as [_ Hthreads]. by apply Hthreads. }
  destruct t as [|h|h|h res|h|]; mexpose Hrun.
  - (* TAllocate *)
    pose proof (Halloc k (world st)) as Hsome.
    destruct (RAM_allocate E k (world st)) as [w [h|]]; [|done]. mexpose Hrun.
    injection Hrun as <-.
    apply (Hgoal (TRegister h) []); cbn; rewrite ?app_nil_r; auto; wire_solve.
  - (* TRegister *)
    destruct (_server_lock (drv st)); mexpose Hrun; injection Hrun as <-.
    + apply (Hgoal (TAckStartup h) []); cbn; rewrite ?app_nil_r; eauto; wire_solve.
      exists h. cbn. by rewrite lookup_insert_eq.
    + apply (Hgoal (TRelease h) []); cbn; rewrite ?app_nil_r; auto; wire_solve.
  - (* TAckStartup *)
    injection Hrun as <-.
    apply (Hgoal (TServe h None) [(Some k, RBool true, None)]); cbn; auto;
      wire_solve.
  - (* TServe *)
    destruct (request_qs st !! k) as [[|[req|] rest]|]; mexpose Hrun.
    1,4: injection Hrun as <-; split; [done|auto].
    + match type of Hrun with context [serve E req ?x] =>
        pose proof (serve_wire E req x) as Hv;
        destruct (serve E req x) as [r1 st1] eqn:Hserve end.
      split_view Hv. cbn in Hv, Hv0, Hv1.
      assert (registered (drv st1) k) as Hsame.
      { destruct (Hmine eq_refl) as [h' Hh']. exists h'. by rewrite Hv. }
      destruct r1 as [x|e|]; mexpose Hrun.
      * injection Hrun as <-.
        apply (Hgoal (TServe h (Some x)) [(Some k, x, None)]); cbn;
          rewrite ?Hv, ?Hv0, ?Hv1; auto; wire_solve.
      * destruct res as [x|]; mexpose Hrun; injection Hrun as <-.
        -- apply (Hgoal (TServe h (Some x)) [(Some k, x, Some e)]); cbn;
             rewrite ?Hv, ?Hv0, ?Hv1; auto; wire_solve.
        -- apply (Hgoal (TRelease h) []); cbn;
             rewrite ?Hv, ?Hv0, ?Hv1, ?app_nil_r; auto; wire_solve.
      * done.
    + injection Hrun as <-.
      apply (Hgoal (TRelease h) [(Some k, RBool true, None)]); cbn; auto;
        wire_solve.
  - (* TRelease *)
    injection Hrun as <-.
    apply (Hgoal TExit []); cbn; rewrite ?app_nil_r; auto; wire_solve.
  - (* TExit *)
    injection Hrun as <-. split; [done|auto].
Qed.
End ThreadSteps.

Section CoordinatorSteps.
Context {W : Type} (E : Env W) (self : Traits).
Implicit Types st : Sys W.

Lemma _busy_false d : _busy d = false <-> forall s, _in_use d !! s <> Some true.
Proof.
  unfold _busy. rewrite bool_decide_eq_false. split.
  - intros Hno s Hs. apply Hno. by exists s, true.
  - intros Hno (s & b & Hs & ->). by apply (Hno s).
Qed.

Lemma _busy_true d s : _in_use d !! s = Some true -> _busy d = true.
Proof.
  intros Hs. destruct (_busy d) eqn:Hb; [done|].
  by apply _busy_false with (s := s) in Hb.
Qed.

Lemma wired_frame st st' : wire_view st' = wire_view st -> wired st -> wired st'.
Proof.
  intros Hv [Hr Ht]. split_view Hv.
  unfold wired, registered. by rewrite Hv, Hv0, Hv1.
Qed.

Lemma bounded_frame n st st' :
  wire_view st' = wire_view st -> bounded n st -> bounded n st'.
Proof.
  intros Hv [Ht Hr]. split_view Hv.
  unfold bounded, registered. by rewrite Hv, Hv0.
Qed.

Lemma account_frame st st' : acc_view st' = acc_view st -> account st' = account st.
Proof.
  intros Hv. split_view Hv. unfold account, inflight, flights, remaining.
  chase. reflexivity.
Qed.

(** The coordinator takes a reply for server [s], calls [_server_ready]
    and stores what it returns in [_in_use]. *)
Lemma tick_update acc0 s st b st1 :
  recorder self = true ->
  _server_ready E self s false st = (Ok b, st1) ->
  let st' := set_drv (set_in_use (<[s := b]> (_in_use (drv st1))) (drv st1)) st1 in
  account st ≡ₚ acc0 -> flights_in_use (drv st) -> wired st ->
  account st' ≡ₚ acc0 /\ flights_in_use (drv st') /\ wired st' /\
  (_busy (drv st') = false -> winding_down st') /\
  (forall n, bounded n st -> bounded n st') /\
  _in_use (drv st') = <[s := b]> (_in_use (drv st)).
Proof.
  intros Hrec Hrun st' Hacc Hfly Hwired.
  pose proof (_server_ready_account _ _ _ _ _ _ _ Hrec Hrun) as Hacc1.
  pose proof (_server_ready_wire E self s false st) as Hv. rewrite Hrun in Hv.
  cbn [snd] in Hv.
  apply _server_ready_refines in Hrun as (Htick & Hoff & Huse).
  split_and!.
  - by rewrite <- Hacc, <- Hacc1.
  - intros s' i Hs'.
    assert (flights (drv st') = flights (drv st1)) as Hfl by reflexivity.
    assert (_in_use (drv st') = <[s:=b]> (_in_use (drv st1))) as -> by reflexivity.
    rewrite Hfl in Hs'. clear Hfl.
    destruct (decide (s' = s)) as [->|Hne].
    + rewrite lookup_insert_eq. f_equal. destruct b; [done|].
      apply tick_rel_retire in Htick as [Hnone _].
      rewrite fly_books in Hnone. by rewrite Hs' in Hnone.
    + rewrite lookup_insert_ne by done. rewrite Huse. apply (Hfly s' i).
      rewrite flights_lookup in Hs' |- *.
      by destruct (Hoff s' Hne) as [<- <-].
  - eapply wired_frame; [|exact Hwired]. by rewrite <- Hv.
  - intros Hbusy. rewrite _busy_false in Hbusy. specialize (Hbusy s).
    subst st'. cbn in Hbusy. rewrite lookup_insert_eq in Hbusy.
    destruct b; [done|].
    apply tick_rel_retire in Htick as [_ Hq]. unfold winding_down, stopping, drained.
    cbn in Hq |- *. destruct Hq as [Hq|(Ht & Hr & [Hi|Hi])]; auto. done.
  - intros n Hb. eapply bounded_frame; [|exact Hb]. by rewrite <- Hv.
  - subst st'. cbn. by rewrite Huse.
Qed.

Lemma flights_in_use_frame st st' :
  acc_view st' = acc_view st -> flights_in_use (drv st) -> flights_in_use (drv st').
Proof.
  intros Hv Hfly. split_view Hv. unfold flights_in_use, flights. chase. exact Hfly.
Qed.

Lemma winding_down_frame st st' :
  sched_view st' = sched_view st -> winding_down st -> winding_down st'.
Proof.
  intros Hv. split_view Hv. unfold winding_down, stopping, drained. by chase.
Qed.

Lemma phase_frame pc st st' :
  sched_view st' = sched_view st ->
  (forall n, bounded n st -> bounded n st') ->
  phase pc st -> phase pc st'.
Proof.
  intros Hv Hb.
  assert (winding_down st -> winding_down st') as Hw by (by apply winding_down_frame).
  split_view Hv.
  assert (_busy (drv st') = _busy (drv st)) as Hbusy by (unfold _busy; by chase).
  assert (forall n, in_use_bounded n (drv st) -> in_use_bounded n (drv st')) as Hu.
  { intros n. unfold in_use_bounded. by chase. }
  destruct pc as [m [|n]|m [|n]| |i| |e]; cbn; rewrite ?Hbusy; chase.
  all: try tauto.
  all: intros; split_and?; try tauto; intuition auto.
Qed.

Lemma sched_acc_view st st' :
  sched_view st' = sched_view st -> acc_view st' = acc_view st.
Proof. intros Hv. split_view Hv. unfold acc_view. by chase. Qed.

Lemma concurrent_inv_frame acc0 pc st st' :
  sched_view st' = sched_view st ->
  _servers (drv st') = _servers (drv st) -> threads st' = threads st ->
  (forall r, r ∈ reply_q st' -> r ∈ reply_q st) ->
  concurrent_inv acc0 pc st -> concurrent_inv acc0 pc st'.
Proof.
  intros Hv Hsrv Hth Hq (Hacc & Hfly & [Hr Ht] & Hphase).
  pose proof (sched_acc_view _ _ Hv) as Hav. split_and!.
  - by rewrite (account_frame _ _ Hav).
  - by eapply flights_in_use_frame.
  - split; unfold registered; rewrite ?Hsrv, ?Hth; auto.
  - eapply phase_frame; [exact Hv| |exact Hphase].
    intros n. unfold bounded, registered. by rewrite Hsrv, Hth.
Qed.

Lemma started_inv acc0 m n todo it st :
  cids (_todo (drv st)) ++ cids (remaining (drv st))
    ≡ₚ cids todo ++ cids (match it with Some l => l | None => [] end) ->
  concurrent_inv acc0 (CStartup m n) st ->
  concurrent_inv acc0 (CPoll m (S n)) (started n todo it st).
Proof.
  intros Hmove (Hacc & Hfly & [Hr Ht] & Hphase).
  assert (bounded n st /\ in_use_bounded n (drv st)) as [[Hbt Hbr] Hbu].
  { destruct n; cbn in Hphase; tauto. }
  assert (flights (drv st) !! Some (S n) = None) as Hfresh.
  { destruct (flights (drv st) !! Some (S n)) as [i|] eqn:Hi; [|done].
    apply Hfly in Hi. specialize (Hbu (S n)). rewrite Hi in Hbu.
    specialize (Hbu (mk_is_Some _ _ eq_refl)). lia. }
  assert (flights (drv (started n todo it st)) = flights (drv st)) as Hsame.
  { apply map_eq. intros s. rewrite !flights_lookup. cbn.
    destruct (decide (s = Some (S n))) as [->|Hne].
    - rewrite !lookup_insert_eq. rewrite flights_lookup in Hfresh. by rewrite Hfresh.
    - by rewrite !lookup_insert_ne. }
  assert (forall k, registered (drv (started n todo it st)) k <->
                    registered (drv st) k) as Hreg.
  { intros k. unfold registered. cbn.
    destruct (decide (k = S n)) as [->|Hne].
    - rewrite lookup_insert_eq. split; [by intros [h [=]]|].
      intros Hk. specialize (Hbr _ Hk). lia.
    - rewrite lookup_insert_ne by congruence. done. }
  split_and!.
  - rewrite <- Hacc. unfold account, inflight. rewrite Hsame.
    assert (forall a b c : list nat, a ++ b ++ c ≡ₚ (a ++ c) ++ b) as Hswap.
    { intros a b c. rewrite <- app_assoc. apply Permutation_app_head.
      apply Permutation_app_comm. }
    apply Permutation_app_head.
    change (_todo (drv (started n todo it st))) with todo.
    change (_rerun (drv (started n todo it st))) with (_rerun (drv st)).
    change (remaining (drv (started n todo it st)))
      with (match it with Some l => l | None => [] end).
    set (R := cids (_rerun (drv st))). set (F := (map_to_list (flights (drv st))).*2).
    transitivity ((cids todo ++ cids (match it with Some l => l | None => [] end))
                  ++ (R ++ F)).
    { rewrite (app_assoc R). apply Hswap. }
    rewrite <- Hmove. symmetry. rewrite (app_assoc R). apply Hswap.
  - intros s i. rewrite Hsame. intros Hs. cbn.
    destruct (decide (s = Some (S n))) as [->|Hne]; [congruence|].
    rewrite lookup_insert_ne by done. exact (Hfly s i Hs).
  - split.
    + intros r Hin. destruct (Hr r Hin) as (k & Hname & Hk).
      exists k. split; [done|]. by apply Hreg.
    + intros k t. cbn. destruct (decide (k = S n)) as [->|Hne].
      * rewrite lookup_insert_eq. by intros [= <-].
      * rewrite lookup_insert_ne by done. intros Hk Hrep. apply Hreg. eauto.
  - cbn. split_and!.
    + intros Hbusy. rewrite _busy_false in Hbusy. specialize (Hbusy (Some (S n))).
      cbn in Hbusy. by rewrite lookup_insert_eq in Hbusy.
    + split.
      * intros k. cbn. destruct (decide (k = S n)) as [->|Hne]; [lia|].
        rewrite lookup_insert_ne by done. intros Hk. specialize (Hbt _ Hk). lia.
      * intros k Hk%Hreg. specialize (Hbr _ Hk). lia.
    + intros k. cbn. destruct (decide (k = S n)) as [->|Hne]; [lia|].
      rewrite lookup_insert_ne by congruence. intros Hk.
      specialize (Hbu _ Hk). lia.
Qed.

Lemma concurrent_inv_reply acc0 pc st rest :
  (forall r, r ∈ rest -> r ∈ reply_q st) ->
  concurrent_inv acc0 pc st ->
  concurrent_inv acc0 pc (set_reply_q_obj rest st).
Proof. intros Hsub. by apply concurrent_inv_frame. Qed.

(** The startup loop. *)
Lemma _start_step_startup_inv acc0 m n st pc' st' :
  _start_step E self (CStartup m n) st = (Ok pc', st') ->
  concurrent_inv acc0 (CStartup m n) st -> concurrent_inv acc0 pc' st'.
Proof.
  intros Hrun Hinv.
  assert (_stop (drv st) = true \/ _iter (drv st) = None ->
          concurrent_inv acc0 CMain st) as Hleave.
  { intros Hwhy. destruct Hinv as (Hacc & Hfly & Hwired & Hphase).
    split_and!; try done. cbn. intros Hbusy.
    destruct n as [|n]; cbn in Hphase; [|tauto].
    destruct Hphase as (_ & Ht & Hr & _).
    unfold winding_down, stopping, drained. tauto. }
  unfold _start_step, next, set_thread in Hrun. mexpose Hrun.
  destruct (Z.of_nat n <? m)%Z eqn:Hlt; mexpose Hrun.
  2: { injection Hrun as <- <-. destruct Hinv as (Hacc & Hfly & Hwired & Hphase).
       split_and!; try done. cbn. destruct n as [|n]; cbn in Hphase; [|tauto].
       apply Z.ltb_ge in Hlt. lia. }
  destruct (_stop (drv st)) eqn:Hstop; mexpose Hrun.
  { injection Hrun as <- <-. auto. }
  destruct (bool_decide (_iter (drv st) = None)) eqn:Hnone; mexpose Hrun.
  { injection Hrun as <- <-. apply bool_decide_eq_true in Hnone. auto. }
  destruct (_iter (drv st)) as [[|c rest]|] eqn:Hiter; mexpose Hrun; [| |done].
  - (* StopIteration *)
    destruct (_rerun (drv st)) as [|c rerun] eqn:Hrerun; mexpose Hrun.
    + injection Hrun as <- <-.
      destruct Hinv as (Hacc & Hfly & Hwired & Hphase). split_and!.
      * rewrite <- Hacc. unfold account, remaining. cbn. by rewrite Hiter.
      * done.
      * done.
      * cbn. intros Hbusy. unfold winding_down, stopping, drained. cbn.
        destruct n as [|n]; cbn in Hphase.
        -- right. rewrite Hrerun. tauto.
        -- destruct Hphase as (Hw & _). destruct (Hw Hbusy) as [Hs|(Ht & _ & Hi)].
           ++ unfold stopping in Hs. congruence.
           ++ congruence.
    + injection Hrun as <- <-.
      match goal with |- concurrent_inv _ _ ?x =>
        change x with (started n (_todo (drv st)) (_iter (drv st)) st) end.
      apply started_inv; [|done]. unfold remaining. by rewrite Hiter.
  - (* a case is pulled *)
    injection Hrun as <- <-.
    match goal with |- concurrent_inv _ _ ?x =>
      change x with (started n (_todo (drv st) ++ [c]) (Some rest) st) end.
    apply started_inv; [|done].
    unfold remaining, cids. rewrite Hiter, fmap_app, <- app_assoc. done.
Qed.

(** One step of the coordinator that does not raise. *)
Lemma _start_step_inv acc0 pc st pc' st' :
  recorder self = true ->
  _start_step E self pc st = (Ok pc', st') ->
  concurrent_inv acc0 pc st -> concurrent_inv acc0 pc' st'.
Proof.
  intros Hrec Hrun Hinv.
  destruct pc as [m n|m n| |i| |e].
  - by eapply _start_step_startup_inv.
  - (* the poll loop *)
    unfold _start_step, reply_get, getitem in Hrun. mexpose Hrun.
    assert (concurrent_inv acc0 (CStartup m n) st) as Hback.
    { destruct Hinv as (Hacc & Hfly & Hwired & Hphase).
      split_and!; try done. by destruct n. }
    destruct (_busy (drv st)) eqn:Hbusy; mexpose Hrun;
      [|by injection Hrun as <- <-].
    destruct (reply_q st) as [|r rest] eqn:Hq; mexpose Hrun;
      [by injection Hrun as <- <-|].
    destruct Hinv as (Hacc & Hfly & Hwired & Hphase).
    destruct n as [|n]; [done|]. cbn in Hphase.
    destruct Hphase as (Hw & Hb & Hu).
    destruct (proj1 Hwired r) as (k & Hname & [h Hk]); [rewrite Hq; by left|].
    rewrite Hname, Hk in Hrun. mexpose Hrun.
    set (st1 := set_reply_q_obj rest st) in Hrun.
    destruct (_server_ready E self (Some k) false st1) as [[b| |] st2] eqn:Htick;
      mexpose Hrun; [|done..].
    injection Hrun as <- <-.
    assert (concurrent_inv acc0 (CPoll m (S n)) st1)
      as (Hacc1 & Hfly1 & Hwired1 & Hphase1).
    { apply concurrent_inv_reply.
      - intros r' Hr'. rewrite Hq. by right.
      - split_and!; try done; cbn; tauto. }
    eapply (tick_update acc0) in Htick as (Ha & Hf & Hwi & Hwd & Hbd & Huse);
      [|done..].
    split_and!; try done. cbn. split_and!; [done| |].
    + apply Hbd. cbn in Hphase1. tauto.
    + intros k'. cbn in Huse |- *. rewrite Huse.
      destruct (decide (k' = k)) as [->|Hne].
      * intros _. apply Hb. by exists h.
      * rewrite lookup_insert_ne by congruence. apply Hu.
  - (* the main loop *)
    unfold _start_step, reply_get, shut_down_servers in Hrun. mexpose Hrun.
    destruct (_busy (drv st)) eqn:Hbusy; mexpose Hrun.
    2: { injection Hrun as <- <-.
         match goal with |- concurrent_inv _ _ ?x =>
           assert (concurrent_inv acc0 CMain x) as (Ha & Hf & Hwi & Hp)
             by (by apply (concurrent_inv_frame acc0 CMain st))
         end.
         split_and!; try done. cbn in Hp |- *. auto. }
    destruct (reply_q st) as [|r rest] eqn:Hq; mexpose Hrun;
      [by injection Hrun as <- <-|].
    set (st1 := set_reply_q_obj rest st) in Hrun.
    destruct (_server_ready E self r.1.1 false st1) as [[b| |] st2] eqn:Htick;
      mexpose Hrun; [|done..].
    injection Hrun as <- <-.
    assert (concurrent_inv acc0 CMain st1) as (Hacc1 & Hfly1 & Hwired1 & Hphase1).
    { apply concurrent_inv_reply; [|done]. intros r' Hr'. rewrite Hq. by right. }
    eapply (tick_update acc0) in Htick as (Ha & Hf & Hwi & Hwd & Hbd & Huse);
      [|done..].
    by split_and!.
  - (* the shut-down wait *)
    unfold _start_step, reply_get, getitem in Hrun. mexpose Hrun.
    assert (forall j st1,
              sched_view st1 = sched_view st ->
              _servers (drv st1) = _servers (drv st) -> threads st1 = threads st ->
              (forall r, r ∈ reply_q st1 -> r ∈ reply_q st) ->
              concurrent_inv acc0 (CShutdown j) st1) as Hsame.
    { intros j st1 Hv Hs Ht Hr.
      destruct (concurrent_inv_frame acc0 (CShutdown i) st st1)
        as (Ha & Hf & Hwi & Hp); try done. }
    destruct i as [|i]; mexpose Hrun.
    { injection Hrun as <- <-. by apply (Hsame 0). }
    destruct (reply_q st) as [|r rest] eqn:Hq; mexpose Hrun.
    { injection Hrun as <- <-. apply Hsame; try done.
      intros r' Hr'. by rewrite Hq in Hr'. }
    destruct (_queues (drv st) !! r.1.1); mexpose Hrun; [|done].
    injection Hrun as <- <-. apply Hsame; try done.
    intros r' Hr'. by right.
  - unfold _start_step in Hrun. mexpose Hrun. by injection Hrun as <- <-.
  - unfold _start_step in Hrun. mexpose Hrun. by injection Hrun as <- <-.
Qed.
End CoordinatorSteps.

(** ** The recorder's contents only grow *)

Ltac extends_leaf :=
  let more := fresh "more" in
  let Hm := fresh "Hm" in
  intros ? [more Hm];
  first [ by exists more
        | eexists; cbn; rewrite Hm, <- app_assoc; reflexivity ].

Section Extends.
Context {W : Type} (E : Env W) (self : Traits).
Implicit Types st : Sys W.

Lemma extends_sched {A} rec0 (m : M W A) :
  keeps sched_view m -> preserves (extends rec0) m.
Proof.
  intros Hm. apply (keeps_preserves _ _ _ Hm). intros st st' Hv.
  split_view Hv. unfold extends. by rewrite Hv.
Qed.

Lemma _run_case_extends rec0 case s rerun :
  preserves (extends rec0) (_run_case E self case s rerun).
Proof.
  unfold _run_case. repeat preserves_step extends_leaf.
  - apply extends_sched, set_events_sched.
  - apply extends_sched, set_inputs_sched.
  - apply (keeps_preserves _ _ _ (_model_execute_acc E s)).
    intros st st' Hv. split_view Hv. unfold extends. by rewrite Hv.
Qed.

Lemma _server_ready_extends rec0 s stepping :
  preserves (extends rec0) (_server_ready E self s stepping).
Proof.
  unfold _server_ready, _model_status, next. repeat preserves_step extends_leaf.
  all: try apply _run_case_extends.
  all: try (apply extends_sched, _load_model_sched).
  all: apply extends_sched, get_outputs_sched.
Qed.

Lemma _start_step_extends rec0 pc :
  preserves (extends rec0) (_start_step E self pc).
Proof.
  unfold _start_step, reply_get, shut_down_servers, next.
  repeat preserves_step extends_leaf.
  all: apply _server_ready_extends.
Qed.

Lemma run_schedule_extends rec0 sched pc :
  preserves (extends rec0) (run_schedule E self sched pc).
Proof.
  revert pc. induction sched as [|a sched IH]; intros pc.
  - destruct pc; apply preserves_ret.
  - destruct pc, a; cbn [run_schedule]; unfold stop;
      repeat preserves_step extends_leaf; auto.
    all: first [apply _start_step_extends
               |apply extends_sched, _service_loop_step_sched].
Qed.

Lemma _start_extends rec0 sched : preserves (extends rec0) (_start E self sched).
Proof.
  unfold _start, _start_init. repeat preserves_step extends_leaf.
  all: apply run_schedule_extends.
Qed.








End Extends.

Section ConcurrentRun.
Context {W : Type} (E : Env W) (self : Traits).
Implicit Types st : Sys W.

Lemma run_schedule_raised sched e st :
  run_schedule E self sched (CRaised e) st = (Ok (CRaised e), st).
Proof. by destruct sched as [|[] ?]. Qed.

Lemma run_schedule_done sched st :
  run_schedule E self sched CDone st = (Ok CDone, st).
Proof. by destruct sched as [|[] ?]. Qed.

Lemma concurrent_inv_stop acc0 pc st :
  concurrent_inv acc0 pc st ->
  concurrent_inv acc0 pc (set_drv (set_stop true (drv st)) st).
Proof.
  intros (Hacc & Hfly & Hwired & Hphase). split_and!; try done.
  assert (winding_down (set_drv (set_stop true (drv st)) st)) as Hw by (by left).
  destruct pc as [m [|n]|m [|n]| |i| |e]; cbn in Hphase |- *; try tauto.
Qed.

Lemma concurrent_inv_work acc0 pc k st st' :
  allocates E ->
  _service_loop_step E k st = (Ok (), st') ->
  concurrent_inv acc0 pc st -> concurrent_inv acc0 pc st'.
Proof.
  intros Halloc Hrun (Hacc & Hfly & Hwired & Hphase).
  pose proof (_service_loop_step_sched E k st) as Hv. rewrite Hrun in Hv.
  cbn [snd] in Hv.
  apply _service_loop_step_wired in Hrun as [Hwired' Hb]; [|done..].
  pose proof (sched_acc_view _ _ Hv) as Hav. split_and!.
  - by rewrite (account_frame _ _ Hav).
  - by eapply flights_in_use_frame.
  - done.
  - by eapply phase_frame.
Qed.

(** The invariant holds when the coordinator is through. *)
Lemma run_schedule_inv acc0 sched pc st st' :
  recorder self = true -> allocates E ->
  run_schedule E self sched pc st = (Ok CDone, st') ->
  concurrent_inv acc0 pc st -> concurrent_inv acc0 CDone st'.
Proof.
  intros Hrec Halloc. revert pc st.
  induction sched as [|a sched IH]; intros pc st Hrun Hinv.
  { destruct pc; try done. cbn in Hrun. by injection Hrun as <-. }
  assert ((pc = CDone \/ exists e, pc = CRaised e) \/
          (pc <> CDone /\ forall e, pc <> CRaised e)) as [Hfin|[Hd He]]
    by (destruct pc; eauto; by right).
  { destruct Hfin as [->|[e ->]].
    - rewrite run_schedule_done in Hrun. by injection Hrun as <-.
    - by rewrite run_schedule_raised in Hrun. }
  destruct a as [|k|].
  - assert ((pc' ← try_except (_start_step E self pc)
                      (fun exc => mret (CRaised exc));
             run_schedule E self sched pc') st = (Ok CDone, st')) as Hrun'.
    { destruct pc; try done; by destruct (He e). }
    clear Hrun. rewrite bind_run, try_except_raw in Hrun'.
    destruct (_start_step E self pc st) as [[pc1|e|] st1] eqn:Hstep; cbn in Hrun'.
    + eapply IH; [exact Hrun'|]. by eapply _start_step_inv.
    + by rewrite run_schedule_raised in Hrun'.
    + done.
  - assert ((_service_loop_step E k;; run_schedule E self sched pc) st
            = (Ok CDone, st')) as Hrun'.
    { destruct pc; try done; by destruct (He e). }
    clear Hrun. rewrite bind_run in Hrun'.
    destruct (_service_loop_step E k st) as [[[]|e|] st1] eqn:Hstep; [|done..].
    eapply IH; [exact Hrun'|]. by eapply concurrent_inv_work.
  - eapply (IH pc (set_drv (set_stop true (drv st)) st)).
    + destruct pc; try done; by destruct (He e).
    + by apply concurrent_inv_stop.
Qed.

(** What the invariant gives at the end of a run that was not stopped. *)
Lemma concurrent_inv_done acc0 st :
  concurrent_inv acc0 CDone st -> _stop (drv st) = false ->
  cids (recorded st) ≡ₚ acc0.
Proof.
  intros (Hacc & Hfly & _ & Hbusy & Hw) Hstop. rewrite <- Hacc.
  destruct Hw as [Hw|(Ht & Hr & Hi)]; [unfold stopping in Hw; congruence|].
  assert (flights (drv st) = ∅) as Hnone.
  { apply map_eq. intros s. rewrite lookup_empty.
    destruct (flights (drv st) !! s) as [i|] eqn:Hs; [|done].
    apply Hfly in Hs. rewrite _busy_false in Hbusy. by destruct (Hbusy s). }
  unfold account, inflight, remaining.
  rewrite Ht, Hr, Hi, Hnone, map_to_list_empty. cbn. by rewrite app_nil_r.
Qed.

Lemma _start_inv sched st st' :
  recorder self = true -> allocates E ->
  threads st = ∅ -> _todo (drv st) = [] -> _rerun (drv st) = [] ->
  _in_use (drv st) = ∅ -> _servers (drv st) = ∅ -> _server_states (drv st) = ∅ ->
  _start E self sched st = (Ok (), st') ->
  concurrent_inv (account st) CDone st'.
Proof.
  intros Hrec Halloc Hth Htodo Hrerun Huse Hsrv Hstates Hrun.
  unfold _start, _start_init, raise_exception in Hrun. mexpose Hrun.
  destruct (RAM_max_servers E (world st) <=? 0)%Z eqn:Hcap; mexpose Hrun; [done|].
  match type of Hrun with context [run_schedule E self sched ?pc ?x] =>
    destruct (run_schedule E self sched pc x) as [[pc1|e|] st1] eqn:Hsched end;
    mexpose Hrun; [|done..].
  destruct pc1; try done. injection Hrun as <-.
  eapply run_schedule_inv; [done..|exact Hsched|].
  assert (forall k, ~ registered (drv st) k) as Hnoreg.
  { intros k [h Hh]. by rewrite Hsrv, lookup_empty in Hh. }
  split_and!.
  - done.
  - intros s i. rewrite flights_lookup. cbn. by rewrite Hstates, lookup_empty.
  - split; cbn.
    + intros r Hr. by apply elem_of_nil in Hr.
    + intros k t. by rewrite Hth, lookup_empty.
  - cbn. apply Z.leb_gt in Hcap. split_and!; try done.
    + split; cbn.
      * intros k. rewrite Hth, lookup_empty. by intros [? ?].
      * intros k Hk. by destruct (Hnoreg k).
    + unfold in_use_bounded. cbn. intros k. rewrite Huse, lookup_empty.
      by intros [? ?].
Qed.

(** Every case of a concurrent run that comes to its end is recorded
    once, if every worker gets its server. *)
Lemma execute_concurrent fuel sched st st' :
  recorder self = true -> sequential self = false -> allocates E ->
  threads st = ∅ ->
  execute E self fuel sched st = (Ok (), st') ->
  exists cases new,
    iterator self = Some cases /\
    recorded st' = recorded st ++ new /\
    cids new ≡ₚ cids cases.
Proof.
  intros Hrec Hseq Halloc Hth Hrun. unfold execute in Hrun. rewrite bind_run in Hrun.
  destruct (setup E self true st) as [r st0] eqn:Hsetup.
  apply setup_run in Hsetup. destruct r as [[]| |]; [|done..].
  destruct Hsetup as (cases & w & rep & egg_file & Hcases & ->).
  exists cases. unfold resume in Hrun. rewrite Hseq in Hrun. mexpose Hrun.
  rewrite (bool_decide_eq_false_2 (Some cases = None)) in Hrun by done.
  mexpose Hrun.
  match type of Hrun with context [try_finally _ _ ?s] => set (st0 := s) in * end.
  unfold try_finally in Hrun.
  destruct (_start E self sched st0) as [r st1] eqn:Hstart.
  destruct (_cleanup_run E true st1) as (w' & egg_file' & Hclean).
  rewrite Hclean in Hrun. destruct r as [[]| |]; [|done..]. mexpose Hrun.
  destruct (_stop (drv st1)) eqn:Hstop; [done|]. injection Hrun as <-.
  pose proof Hstart as Hstart0.
  apply _start_inv in Hstart; [|done..].
  apply concurrent_inv_done in Hstart; [|done].
  assert (account st0 = cids (recorded st) ++ cids cases) as Hacc0.
  { unfold account. rewrite inflight_empty by (by subst st0).
    subst st0. unfold remaining. msimpl. done. }
  rewrite Hacc0 in Hstart.
  assert (exists more, recorded st1 = recorded st ++ more) as [more Hmore].
  { eapply (preserves_run _ _ _ _ _ (_start_extends E self (recorded st) sched));
      [exact Hstart0|]. exists []. subst st0. cbn. by rewrite app_nil_r. }
  exists more. split; [done|]. split; [done|].
  rewrite Hmore in Hstart. unfold cids in Hstart. rewrite fmap_app in Hstart.
  by apply Permutation_app_inv_l in Hstart.
Qed.
End ConcurrentRun.

(** * The claims *)

Section Claims.
Context {W : Type} (E : Env W) (self : Traits).
Implicit Types st : Sys W.

(** C9.  On a first assignment (not a rerun) a case whose [max_retries] is
    0 is run with the driver's [max_retries] in its place: the test
    [not case.max_retries] takes 0 for an absent limit.  A limit of 0
    does not survive when the driver's default is positive. *)
Theorem zero_limit_is_replaced case s st r st' :
  Case.max_retries case = Some 0%Z ->
  _run_case E self case s false st = (r, st') ->
  exists c,
    _server_cases (drv st') !! s = Some (Some c) /\
    Case.cid c = Case.cid case /\
    Case.max_retries c = Some (max_retries self) /\
    ((0 < max_retries self)%Z -> Case.max_retries c <> Some 0%Z).
Proof.
  intros Hzero Hrun. apply _run_case_effect in Hrun.
  destruct Hrun as (_ & _ & _ & _ & Hcases).
  assert (Case.max_retries (prepare self case false) = Some (max_retries self)) as Hmax.
  { unfold prepare. rewrite Hzero. reflexivity. }
  assert (forall c, Case.max_retries c = Some (max_retries self) ->
            (0 < max_retries self)%Z -> Case.max_retries c <> Some 0%Z) as Hpos.
  { intros c -> Hlt [= Heq]. lia. }
  assert (forall c, Case.cid c = Case.cid case ->
            Case.max_retries c = Some (max_retries self) ->
            forall cases : gmap server (option Case),
              exists c', <[s := Some c]> cases !! s = Some (Some c') /\
                Case.cid c' = Case.cid case /\
                Case.max_retries c' = Some (max_retries self) /\
                ((0 < max_retries self)%Z -> Case.max_retries c' <> Some 0%Z))
    as Hgoal.
  { intros c Hcid Hm cases. exists c. rewrite lookup_insert_eq. split_and!; auto. }
  pose proof (prepare_cid self case false) as Hcid.
  destruct r as [[]|e|].
  - destruct Hcases as [(_ & Hc & _)|[(_ & _ & Hc & _)|(_ & _ & t & Hc & _)]];
      rewrite Hc; by apply Hgoal.
  - destruct Hcases as (_ & Hc & _). rewrite Hc. by apply Hgoal.
  - destruct Hcases as (_ & Hc & _). rewrite Hc. by apply Hgoal.
Qed.

Lemma run_rel_assigned case rerun b b' :
  run_rel self case rerun b b' ->
  (exists c', b_case b' = Some (Some c') /\ Case.cid c' = Case.cid case) /\
  b_todo b' = b_todo b /\ b_iter b' = b_iter b /\
  exists more, b_rerun b' = b_rerun b ++ more.
Proof.
  intros Hrun. pose proof (prepare_cid self case rerun) as Hcid.
  destruct Hrun; cbn; split_and!; try done; eauto.
  all: exists []; by rewrite app_nil_r.
Qed.

(** C8.  A [_READY] server with no stop pending is given the first case of
    [_todo] if there is one, else the first case of [_rerun] if there is
    one, else the next case of the iterator; with nothing in the queues
    and the iterator exhausted it is retired.  (With [stepping], the
    iterator is left alone and the server is retired.) *)
Theorem ready_server_priority s stepping st b st' :
  _server_states (drv st) !! s = Some _READY ->
  _stop (drv st) = false ->
  _server_ready E self s stepping st = (Ok b, st') ->
  match _todo (drv st), _rerun (drv st), _iter (drv st) with
  | c :: todo, rerun, it =>
      b = true /\ assigned s c st' /\ _todo (drv st') = todo /\
      (exists more, _rerun (drv st') = rerun ++ more) /\ _iter (drv st') = it
  | [], c :: rerun, it =>
      b = true /\ assigned s c st' /\ _todo (drv st') = [] /\
      (exists more, _rerun (drv st') = rerun ++ more) /\ _iter (drv st') = it
  | [], [], Some (c :: rest) =>
      if stepping then b = false /\ st' = st
      else b = true /\ assigned s c st' /\ _todo (drv st') = [] /\
           _iter (drv st') = Some rest
  | [], [], Some [] =>
      b = false /\ recorded st' = recorded st /\
      _server_cases (drv st') = _server_cases (drv st) /\
      _iter (drv st') = (if stepping then Some [] else None)
  | [], [], None => b = false /\ st' = st
  end.
Proof.
  intros Hstate Hstop Hrun. unfold _server_ready, getitem in Hrun. mexpose Hrun.
  rewrite Hstate in Hrun. msimpl. rewrite Hstop in Hrun.
  assert (forall case rerun st1 st2 b1,
            _run_case E self case s rerun st1 = (Ok (), st2) ->
            b1 = books s st1 ->
            assigned s case st2 /\ _todo (drv st2) = b_todo b1 /\
            _iter (drv st2) = b_iter b1 /\
            exists more, _rerun (drv st2) = b_rerun b1 ++ more) as Hgiven.
  { intros case rerun st1 st2 b1 Hcase ->.
    apply _run_case_refines in Hcase as (Hrel & _).
    by apply run_rel_assigned in Hrel. }
  destruct (_todo (drv st)) as [|c todo] eqn:Htodo.
  2: { mcase Hrun Hcase; try done. injection Hrun as <- <-. destruct a.
       eapply Hgiven in Hcase as (Ha & Ht & Hi & Hr); [|reflexivity].
       cbn in Ht, Hi, Hr. by split_and!. }
  destruct (_rerun (drv st)) as [|c rerun] eqn:Hrerun.
  2: { mcase Hrun Hcase; try done. injection Hrun as <- <-. destruct a.
       eapply Hgiven in Hcase as (Ha & Ht & Hi & Hr); [|reflexivity].
       cbn in Ht, Hi, Hr. rewrite Htodo in Ht. by split_and!. }
  destruct (_iter (drv st)) as [it|] eqn:Hiter.
  2: { by injection Hrun as <- <-. }
  destruct stepping.
  { injection Hrun as <- <-. by destruct it. }
  unfold next in Hrun. mexpose Hrun. rewrite Hiter in Hrun.
  destruct it as [|c rest]; msimpl.
  - by injection Hrun as <- <-.
  - mcase Hrun Hcase; try done. injection Hrun as <- <-. destruct a.
    eapply Hgiven in Hcase as (Ha & Ht & Hi & Hr); [|reflexivity].
    cbn in Ht, Hi, Hr. rewrite Htodo in Ht. by split_and!.
Qed.


(** C7.  [_remote_load_model] calls [filexfer] only if the egg name the
    server has cached differs from the driver's current one; a load that
    returns leaves the current name cached, and a further load (the egg of
    a run does not change) transfers nothing. *)
Theorem egg_sent_only_if_changed s st r st' :
  _remote_load_model E s st = (r, st') ->
  let current := _egg_file (drv st) in
  _egg_file (drv st') = current /\
  (_server_info (drv st) !! s = Some current -> trace st' = trace st) /\
  (trace st' = trace st \/
   trace st' = trace st ++ [Filexfer s current] /\
   _server_info (drv st) !! s <> Some current) /\
  (forall b, r = Ok b ->
     _server_info (drv st') !! s = Some current /\
     forall r2 st2, _remote_load_model E s st' = (r2, st2) -> trace st2 = trace st').
Proof.
  intros Hrun current. subst current.
  apply _remote_load_model_run in Hrun as (Hegg & _ & _ & _ & _ & Hrun).
  assert (forall st1 r1 st2,
            _remote_load_model E s st1 = (r1, st2) ->
            _server_info (drv st1) !! s = Some (_egg_file (drv st1)) ->
            trace st2 = trace st1) as Hskip.
  { intros st1 r1 st2 Hrun1 Hinfo.
    apply _remote_load_model_run in Hrun1 as (_ & _ & _ & _ & _ & Hrun1).
    rewrite Hinfo, bool_decide_eq_true_2 in Hrun1 by done.
    by destruct Hrun1 as [[? _] _]. }
  split_and!; [done| | |].
  - intros Hinfo. rewrite Hinfo, bool_decide_eq_true_2 in Hrun by done.
    by destruct Hrun as [[? _] _].
  - destruct (_server_info (drv st) !! s) as [cached|]; [|by left; destruct Hrun].
    destruct Hrun as [Hrun _]. case_bool_decide as Hsame.
    + left. by destruct Hrun.
    + destruct (_servers (drv st) !! s); [|by left; destruct Hrun].
      right. split; [done|]. by intros [= ->].
  - intros b ->.
    destruct (_server_info (drv st) !! s) as [cached|]; [|by destruct Hrun].
    destruct Hrun as [_ Hrun]. specialize (Hrun b eq_refl). split; [done|].
    intros r2 st2 Hrun2. eapply Hskip; [exact Hrun2|]. by rewrite Hegg.
Qed.




(** C4, as the code has it.  A concurrent run for which the allocator
    reports no capacity ([max_servers <= 0]) raises [RuntimeError] before
    anything else happens: no case is pulled from the iterator, none is
    recorded, no worker thread is started and the allocator is not asked
    for a server. *)
Theorem no_capacity_is_fatal fuel sched remove_egg st :
  sequential self = false ->
  _iter (drv st) <> None ->
  (RAM_max_servers E (world st) <= 0)%Z ->
  exists st',
    resume E self fuel sched remove_egg st =
      (Raise (RuntimeError
                (exception_text self "No servers supporting required resources")),
       st') /\
    recorded st' = recorded st /\ _iter (drv st') = _iter (drv st) /\
    threads st' = threads st /\ trace st' = trace st.
Proof.
  intros Hseq Hiter Hcap.
  destruct (resume _ _ _ _ _ _) as [r st'] eqn:Hrun.
  unfold resume in Hrun. mexpose Hrun.
  rewrite (bool_decide_eq_false_2 _ Hiter) in Hrun. mexpose Hrun.
  rewrite Hseq in Hrun. unfold try_finally in Hrun.
  match type of Hrun with context [_start E self sched ?x] =>
    destruct (_start E self sched x) as [r1 st1] eqn:Hstart end.
  unfold _start, _start_init, raise_exception in Hstart. mexpose Hstart.
  apply Z.leb_le in Hcap. rewrite Hcap in Hstart. mexpose Hstart.
  injection Hstart as <- <-.
  match type of Hrun with context [_cleanup E remove_egg ?x] =>
    destruct (_cleanup_run E remove_egg x) as (w & egg_file & Hclean) end.
  rewrite Hclean in Hrun. injection Hrun as <- <-.
  eexists. split; [reflexivity|]. by msimpl.
Qed.

(** C3, as the code has it.  Over a run that starts with no worker thread
    alive, the handles the allocator handed out are those given back plus
    those the threads still hold: a thread releases the handle it got
    once, on every way out of its loop, and not before.  The two numbers
    agree as soon as every thread has come to its end, which the end of
    the run does not wait for. *)
Theorem handles_are_released fuel sched st r st' :
  threads st = ∅ ->
  execute E self fuel sched st = (r, st') ->
  exists evs,
    trace st' = trace st ++ evs /\
    handles_allocated evs ≡ₚ handles_released evs ++ held (threads st') /\
    ((forall k t, threads st' !! k = Some t -> t = TExit) ->
     handles_allocated evs ≡ₚ handles_released evs).
Proof.
  intros Hth Hrun. apply execute_balanced in Hrun as (evs & Htr & Hbal); [|done].
  exists evs. split_and!; [done..|].
  intros Hexit. rewrite Hbal.
  assert (held (threads st') = []) as ->; [|by rewrite app_nil_r].
  unfold held.
  assert (forall l : list (nat * thread),
            (forall kt, kt ∈ l -> kt.2 = TExit) ->
            omap (fun kt => owes kt.2) l = []) as Hnone.
  { induction l as [|kt l IH]; intros Hl; [done|]. cbn.
    rewrite (Hl kt) by left. cbn. apply IH. intros kt' Hin. apply Hl. by right. }
  apply Hnone. intros [k t] Hin%elem_of_map_to_list. by apply (Hexit k).
Qed.

(** C1, as the code has it.  A run with a recorder that comes to its
    end, sequential or concurrent with a server for every worker that
    asks (and no worker thread of an earlier run alive), hands every
    case of the iterator to the recorder once: what it adds to the
    recorder's contents is, up to order, the cases of the iterator. *)
Theorem every_case_recorded_once fuel sched st st' :
  recorder self = true ->
  sequential self = true \/ (allocates E /\ threads st = ∅) ->
  execute E self fuel sched st = (Ok (), st') ->
  exists cases new,
    iterator self = Some cases /\
    recorded st' = recorded st ++ new /\
    cids new ≡ₚ cids cases.
Proof.
  intros Hrec Hhow Hrun. destruct (sequential self) eqn:Hseq.
  - by eapply execute_sequential.
  - destruct Hhow as [|[Halloc Hth]]; [done|]. by eapply execute_concurrent.
Qed.
End Claims.

(** * The claims at concrete systems *)

(** A run of [m] from [st], as the equation the theorems take. *)
Lemma run_eq {W A} (m : M W A) (st : Sys W) : m st = ((m st).1, (m st).2).
Proof. by destruct (m st). Defined.

Lemma zero_limit_is_replaced_witness :
  let case := a_case 2 (Some 0%Z) in
  let self := some_traits true [case] in
  Case.max_retries case = Some 0%Z /\
  exists c,
    _server_cases (drv (_run_case (quiet 1) self case None false (fresh 0)).2) !! None
      = Some (Some c) /\
    Case.cid c = 2 /\ Case.max_retries c = Some 1%Z /\
    ((0 < 1)%Z -> Case.max_retries c <> Some 0%Z).
Proof.
  intros case self. split; [reflexivity|].
  exact (zero_limit_is_replaced (quiet 1) self case None (fresh 0) _ _
           eq_refl (run_eq _ _)).
Defined.

Lemma ready_server_priority_witness :
  let self := some_traits true [] in
  let run := _server_ready (quiet 1) self None false ready_system in
  _server_states (drv ready_system) !! None = Some _READY /\
  _stop (drv ready_system) = false /\
  run.1 = Ok true /\
  assigned None (a_case 1 None) run.2 /\
  _todo (drv run.2) = [] /\
  (exists more, _rerun (drv run.2) = [a_case 2 (Some 1%Z)] ++ more) /\
  _iter (drv run.2) = Some [a_case 3 None].
Proof.
  intros self run.
  assert (_server_states (drv ready_system) !! None = Some _READY) as Hstate
    by reflexivity.
  assert (_stop (drv ready_system) = false) as Hstop by reflexivity.
  assert (run = (Ok true, run.2)) as Hrun by (vm_compute; reflexivity).
  split; [exact Hstate|]. split; [exact Hstop|].
  split; [by rewrite Hrun|].
  pose proof (ready_server_priority (quiet 1) self None false ready_system true run.2
                Hstate Hstop Hrun) as Hp.
  cbn in Hp. tauto.
Defined.


Lemma egg_sent_only_if_changed_witness :
  let self := some_traits false [] in
  let run := _remote_load_model (quiet 1) (Some 1) registered_system in
  run.1 = Ok true /\
  trace run.2 = [Filexfer (Some 1) (Some "replicant.egg")] /\
  _server_info (drv run.2) !! Some 1 = Some (Some "replicant.egg") /\
  forall r2 st2,
    _remote_load_model (quiet 1) (Some 1) run.2 = (r2, st2) -> trace st2 = trace run.2.
Proof.
  intros self run.
  assert (run = (Ok true, run.2)) as Hrun by (vm_compute; reflexivity).
  pose proof (egg_sent_only_if_changed (quiet 1) (Some 1) registered_system _ _ Hrun)
    as (_ & _ & _ & Hafter).
  destruct (Hafter true eq_refl) as [Hinfo Hnext].
  split; [by rewrite Hrun|]. split; [vm_compute; reflexivity|].
  split; [exact Hinfo|exact Hnext].
Defined.




(** C3 as stated fails: the run below comes to its end while the worker,
    which has acknowledged the shut-down, has still to release its server. *)
Lemma run_ends_before_release :
  let run := execute (quiet 1) (some_traits false [a_case 1 None]) 10
               coordinator_first (fresh 0) in
  run.1 = Ok () /\
  handles_allocated (trace run.2) = [101] /\
  handles_released (trace run.2) = [] /\
  threads run.2 !! 1 = Some (TRelease 101).
Proof. vm_compute. by split_and!. Qed.

Lemma handles_are_released_witness :
  let self := some_traits false [a_case 1 None; a_case 2 None] in
  let run := execute (quiet 1) self 10 (round_robin 1 12) (fresh 0) in
  threads (fresh 0) = ∅ /\
  run.1 = Ok () /\
  exists evs,
    trace run.2 = trace (fresh 0) ++ evs /\
    handles_allocated evs ≡ₚ handles_released evs ++ held (threads run.2) /\
    ((forall k t, threads run.2 !! k = Some t -> t = TExit) ->
     handles_allocated evs ≡ₚ handles_released evs).
Proof.
  intros self run. split; [reflexivity|]. split; [vm_compute; reflexivity|].
  exact (handles_are_released (quiet 1) self 10 (round_robin 1 12) (fresh 0) _ _
           eq_refl (run_eq _ _)).
Defined.

(** C4 as stated fails: the allocator announces one server and hands out
    none; the run comes to its end without an error, with nothing
    recorded. *)
Lemma no_worker_started_is_silent :
  let run := execute no_server (some_traits false [a_case 1 None]) 10
               early_reply (fresh 0) in
  run.1 = Ok () /\
  recorded run.2 = [] /\
  trace run.2 = [Allocated 1 None].
Proof. vm_compute. by split_and!. Qed.

Lemma no_capacity_is_fatal_witness :
  let self := some_traits false [a_case 1 None] in
  let st := (setup (quiet 0) self true (fresh 0)).2 in
  sequential self = false /\ _iter (drv st) <> None /\
  (RAM_max_servers (quiet 0) (world st) <= 0)%Z /\
  exists st',
    resume (quiet 0) self 10 (round_robin 1 12) true st =
      (Raise (RuntimeError "top.driver: No servers supporting required resources"),
       st') /\
    recorded st' = recorded st /\ _iter (drv st') = _iter (drv st) /\
    threads st' = threads st /\ trace st' = trace st.
Proof.
  intros self st.
  assert (_iter (drv st) <> None) as Hiter by (vm_compute; discriminate).
  assert (RAM_max_servers (quiet 0) (world st) <= 0)%Z as Hcap by (cbn; lia).
  split; [reflexivity|]. split; [exact Hiter|]. split; [exact Hcap|].
  exact (no_capacity_is_fatal (quiet 0) self 10 (round_robin 1 12) true st
           eq_refl Hiter Hcap).
Defined.

(** C1 as stated fails: the first case is pulled from the iterator for a
    worker whose allocation fails; the run comes to its end and the case is
    nowhere in the recorder. *)
Lemma pulled_case_is_dropped :
  let cases := [a_case 1 None; a_case 2 None] in
  let run := execute no_server (some_traits false cases) 10 early_reply (fresh 0) in
  run.1 = Ok () /\
  _iter (drv run.2) = Some [a_case 2 None] /\
  recorded run.2 = [].
Proof. vm_compute. by split_and!. Qed.

Lemma quiet_allocates capacity : allocates (quiet capacity).
Proof. intros k w. discriminate. Defined.

Lemma every_case_recorded_once_witness :
  let cases := [a_case 1 None; a_case 2 (Some 0%Z)] in
  let self := some_traits false cases in
  let run := execute (quiet 1) self 10 (round_robin 1 12) (fresh 0) in
  recorder self = true /\
  (sequential self = true \/ (allocates (quiet 1) /\ threads (fresh 0) = ∅)) /\
  run.1 = Ok () /\
  exists cases' new,
    iterator self = Some cases' /\
    recorded run.2 = recorded (fresh 0) ++ new /\
    cids new ≡ₚ cids cases'.
Proof.
  intros cases self run.
  assert (sequential self = true \/ (allocates (quiet 1) /\ threads (fresh 0) = ∅))
    as Hhow by (right; split; [apply quiet_allocates|reflexivity]).
  assert (run = (Ok (), run.2)) as Hrun by (vm_compute; reflexivity).
  split; [reflexivity|]. split; [exact Hhow|]. split; [by rewrite Hrun|].
  exact (every_case_recorded_once (quiet 1) self 10 (round_robin 1 12) (fresh 0)
           run.2 eq_refl Hhow Hrun).
Defined.

(** C6 at a failing input.  One worker, two cases, and a server whose
    [load_model] works once: the reload after the first case raises.  The
    worker's reply carries the exception, the server's state is [_READY],
    not [_ERROR], and the coordinator's next step hands it the second
    case. *)
Theorem failed_reload_leaves_server_ready :
  let self := some_traits false [a_case 1 None; a_case 2 None] in
  let st0 := (setup reload_fails self true (fresh 0)).2 in
  let st1 := (_start reload_fails self until_reload st0).2 in
  let st2 := (_start reload_fails self (until_reload ++ [Coord]) st0).2 in
  cids (recorded st1) = [1] /\
  reply_q st1 = [(Some 1, RNone, Some (Exception "no model"))] /\
  _server_states (drv st1) !! Some 1 = Some _READY /\
  _server_states (drv st2) !! Some 1 = Some _COMPLETE /\
  (exists c, _server_cases (drv st2) !! Some 1 = Some (Some c) /\ Case.cid c = 2).
Proof. vm_compute. split_and!; try done. by eexists. Qed.

(** * Further properties of the driver *)

Section WhatIsRaised.
Context {W : Type} (E : Env W) (self : Traits).
Implicit Types st : Sys W.

Lemma raises_crash {A} (m : M W A) : raises_only crash m -> raises_only escapes m.
Proof. intros Hm. eapply raises_weaken; [exact Hm|]. by left. Qed.






Lemma _remote_load_model_raises_any s :
  raises_only (fun _ => True) (_remote_load_model E s).
Proof. by intros st e. Qed.







End WhatIsRaised.

Section Bookkeeping.
Context {W : Type} (E : Env W) (self : Traits).
Implicit Types st : Sys W.


(** X3.  One call of [_server_ready] that returns moves the server along
    the state machine empty -> ready -> complete or error -> ready and
    leaves the states and cases of all other servers alone; when it
    returns [False] (the server is not in use any more) the server was
    empty or ready and stays so. *)
Theorem server_state_machine s stepping st b st' :
  _server_ready E self s stepping st = (Ok b, st') ->
  (exists a a',
     _server_states (drv st) !! s = Some a /\
     _server_states (drv st') !! s = Some a' /\ moves a a' /\
     (b = false -> a' = a /\ (a = _EMPTY \/ a = _READY))) /\
  agree_off s (drv st) (drv st').
Proof.
  intros Hrun. apply _server_ready_refines in Hrun as (Htick & Hoff & _).
  split; [|done].
  remember (books s st) as b0 eqn:Hb0. remember (books s st') as b1 eqn:Hb1.
  assert (b_state b0 = _server_states (drv st) !! s) as H0 by (by subst b0).
  assert (b_state b1 = _server_states (drv st') !! s) as H1 by (by subst b1).
  rewrite <- H0, <- H1. clear Hb0 Hb1 H0 H1 Hoff.
  destruct Htick as [Hs|Hs|Hs|c todo b' Hs Hstop Htodo Hrel|c rerun b' Hs Hstop Htodo Hrerun Hrel
                    |Hs|Hs|c rest b' Hs Hstop Htodo Hrerun Hiter Hstep Hrel|c c' Hs|Hs];
    cbn; rewrite ?Hs.
  all: try (eexists _, _; split_and!; try reflexivity; cbn; auto; done).
  all: destruct Hrel; cbn; eexists _, _; split_and!; try reflexivity; cbn; auto; done.
Qed.

(** X4.  With a recorder, a call of [_server_ready] that returns keeps
    every case on the books exactly once: recorded, waiting in [_todo] or
    [_rerun], in flight on a server, or still in the iterator. *)
Theorem step_keeps_every_case s stepping st b st' :
  recorder self = true ->
  _server_ready E self s stepping st = (Ok b, st') ->
  account st' ≡ₚ account st.
Proof. intros Hrec Hrun. by eapply _server_ready_account. Qed.
End Bookkeeping.

Section SequentialOrder.
Context {W : Type} (E : Env W) (self : Traits).
Implicit Types st : Sys W.

Lemma inflight_nil_parts s d :
  inflight d = [] -> flights d !! s = None /\ others s d = [].
Proof.
  intros Hnil. pose proof (inflight_split s d) as Hsplit. rewrite Hnil in Hsplit.
  apply Permutation_nil in Hsplit.
  apply app_eq_nil in Hsplit as [Hs Ho]. split; [|done].
  by destruct (flights d !! s).
Qed.

Lemma step_iter fuel st st' c rest :
  recorder self = true ->
  _iter (drv st) = Some (c :: rest) ->
  step E self fuel st = (Ok (), st') ->
  _iter (drv st') = Some rest.
Proof.
  intros Hrec Hiter Hrun. unfold step, next in Hrun. mexpose Hrun.
  rewrite Hiter in Hrun. rewrite bool_decide_eq_false_2 in Hrun by done.
  mexpose Hrun. rewrite Hiter in Hrun. mexpose Hrun.
  apply while_server_ready_run in Hrun as (_ & _ & Hit); [|done].
  by rewrite Hit.
Qed.

(** One [step()] of a sequential run that was not asked to stop: the
    case pulled is recorded, and nothing is left over. *)
Lemma step_records_one fuel st st' c rest :
  recorder self = true ->
  _todo (drv st) = [] -> _rerun (drv st) = [] -> inflight (drv st) = [] ->
  _iter (drv st) = Some (c :: rest) ->
  step E self fuel st = (Ok (), st') ->
  _stop (drv st') = false ->
  (exists more, recorded st' = recorded st ++ more /\ cids more = [Case.cid c]) /\
  _todo (drv st') = [] /\ _rerun (drv st') = [] /\ inflight (drv st') = [] /\
  _iter (drv st') = Some rest.
Proof.
  intros Hrec Htodo Hrerun Hfl Hiter Hrun Hstop.
  pose proof (step_iter _ _ _ _ _ Hrec Hiter Hrun) as Hiter'.
  destruct (inflight_nil_parts None _ Hfl) as [Hnone Hothers].
  apply step_run in Hrun as ((Hacc & Hoth & more & Hmore) & [Hfly Hq] & _);
    [|done|by rewrite Hiter|by rewrite fly_books, Hnone].
  destruct Hq as [Hq|[Htodo' Hrerun']]; [congruence|].
  assert (inflight (drv st') = []) as Hfl'.
  { apply Permutation_nil. rewrite (inflight_split None).
    rewrite fly_books in Hfly. rewrite Hoth, Hothers, app_nil_r.
    by destruct (flights (drv st') !! None). }
  split_and!; try done. exists more. split; [done|].
  unfold account, remaining in Hacc.
  rewrite Htodo', Hrerun', Hfl', Hiter', Htodo, Hrerun, Hfl, Hiter, Hmore in Hacc.
  cbn in Hacc. unfold cids in *. rewrite fmap_app, <- app_assoc in Hacc.
  apply Permutation_app_inv_l in Hacc.
  apply (Permutation_app_inv_r (Case.cid <$> rest) (Case.cid <$> more) [Case.cid c])
    in Hacc.
  by apply Permutation_singleton_r in Hacc.
Qed.

Lemma sequential_loop_in_order n fuel st st' l :
  recorder self = true ->
  _todo (drv st) = [] -> _rerun (drv st) = [] -> inflight (drv st) = [] ->
  _iter (drv st) = Some l ->
  sequential_loop E self n fuel st = (Ok (), st') ->
  _stop (drv st') = false ->
  exists more, recorded st' = recorded st ++ more /\ cids more = cids l.
Proof.
  intros Hrec. revert st st' l.
  induction n as [|n IH]; intros st st' l Htodo Hrerun Hfl Hiter Hrun Hstop; [done|].
  cbn [sequential_loop] in Hrun. mexpose Hrun.
  rewrite Hiter in Hrun. rewrite bool_decide_eq_false_2 in Hrun by done.
  mexpose Hrun.
  destruct (_stop (drv st)) eqn:Hstop0; mexpose Hrun.
  { injection Hrun as <-. congruence. }
  destruct (step E self fuel st) as [r st1] eqn:Hstep.
  destruct r as [[]|e|]; mexpose Hrun; [| |done].
  - destruct l as [|c rest].
    { (* nothing to pull and nothing to rerun: [step] raises *)
      unfold step, next in Hstep. mexpose Hstep.
      rewrite Hiter in Hstep. rewrite bool_decide_eq_false_2 in Hstep by done.
      mexpose Hstep. rewrite Hiter in Hstep. mexpose Hstep.
      rewrite Hrerun in Hstep. by mexpose Hstep. }
    assert (_stop (drv st1) = false) as Hstop1.
    { destruct (_stop (drv st1)) eqn:Hs; [|done].
      destruct n as [|n']; [done|]. cbn [sequential_loop] in Hrun. mexpose Hrun.
      rewrite Hs in Hrun.
      destruct (bool_decide (_iter (drv st1) = None)); mexpose Hrun;
        injection Hrun as <-; congruence. }
    eapply step_records_one in Hstep
      as ((more & Hmore & Hids) & Htodo1 & Hrerun1 & Hfl1 & Hiter1); [|done..].
    eapply IH in Hrun as (more' & Hmore' & Hids'); [|done..].
    exists (more ++ more'). split.
    + by rewrite Hmore', Hmore, app_assoc.
    + unfold cids in *. by rewrite fmap_app, Hids, Hids'.
  - destruct e; mexpose Hrun; try done. injection Hrun as <-.
    pose proof (step_run E self fuel st (Raise StopIteration) st1 Hrec) as Hs.
    rewrite Hiter in Hs. specialize (Hs ltac:(done)).
    destruct (inflight_nil_parts None _ Hfl) as [Hnone _].
    rewrite fly_books, Hnone in Hs. specialize (Hs eq_refl Hstep).
    cbn in Hs. destruct Hs as (-> & Hl & _). exists [].
    rewrite app_nil_r. split; [done|]. congruence.
Qed.

(** X5.  A sequential run with a recorder that comes to its end records
    the cases in the order in which the iterator yields them, a case that
    was retried included: each [step()] sees its case through to the
    recorder before the next case is pulled. *)
Theorem sequential_run_records_in_order fuel sched st st' :
  recorder self = true -> sequential self = true ->
  execute E self fuel sched st = (Ok (), st') ->
  exists cases new,
    iterator self = Some cases /\
    recorded st' = recorded st ++ new /\
    cids new = cids cases.
Proof.
  intros Hrec Hseq Hrun. unfold execute in Hrun. rewrite bind_run in Hrun.
  destruct (setup E self true st) as [r st0] eqn:Hsetup.
  apply setup_run in Hsetup. destruct r as [[]| |]; [|done..].
  destruct Hsetup as (cases & w & rep & egg_file & Hcases & ->).
  exists cases. unfold resume in Hrun. rewrite Hseq in Hrun. mexpose Hrun.
  rewrite (bool_decide_eq_false_2 (Some cases = None)) in Hrun by done.
  mexpose Hrun.
  match type of Hrun with context [try_finally _ _ ?s] => set (st0 := s) in * end.
  unfold try_finally in Hrun.
  destruct (sequential_loop E self fuel fuel st0) as [r st1] eqn:Hloop.
  destruct (_cleanup_run E true st1) as (w' & egg_file' & Hclean).
  rewrite Hclean in Hrun. destruct r as [[]| |]; [|done..]. mexpose Hrun.
  destruct (_stop (drv st1)) eqn:Hstop; [done|]. injection Hrun as <-.
  eapply (sequential_loop_in_order _ _ _ _ cases) in Hloop
    as (more & Hmore & Hids); try done;
    try (apply inflight_empty; by subst st0).
  exists more. by split_and!.
Qed.
End SequentialOrder.

Section InProcess.
Context {W : Type} (E : Env W) (self : Traits).
Implicit Types st : Sys W.

Lemma _load_model_local : keeps (W:=W) remote_view (_load_model None).
Proof. unfold _load_model. cbn. repeat keeps_step. Qed.

Lemma _model_execute_local : keeps remote_view (_model_execute E None).
Proof. unfold _model_execute, stop. cbn. repeat keeps_step. Qed.

Lemma _model_set_local name idx v : keeps remote_view (_model_set E None name idx v).
Proof. unfold _model_set. repeat keeps_step. Qed.

Lemma _model_get_local name idx : keeps remote_view (_model_get E None name idx).
Proof. unfold _model_get. repeat keeps_step. Qed.

Lemma set_events_local events : keeps remote_view (set_events E None events).
Proof.
  induction events as [|ev rest IH]; cbn [set_events]; repeat keeps_step; auto.
  apply _model_set_local.
Qed.

Lemma set_inputs_local inputs : keeps remote_view (set_inputs E self None inputs).
Proof.
  induction inputs as [|[[name idx] v] rest IH]; cbn [set_inputs];
    repeat keeps_step; auto.
  apply _model_set_local.
Qed.

Lemma get_outputs_local pending done case :
  keeps remote_view (get_outputs E self None pending done case).
Proof.
  revert done case.
  induction pending as [|[[name idx] old] rest IH]; intros done case;
    cbn [get_outputs]; repeat keeps_step; auto.
  apply _model_get_local.
Qed.

Lemma _run_case_local case rerun :
  keeps remote_view (_run_case E self case None rerun).
Proof.
  unfold _run_case, record. repeat keeps_step.
  - apply set_events_local.
  - apply set_inputs_local.
  - apply _model_execute_local.
Qed.

Lemma _server_ready_local stepping :
  keeps remote_view (_server_ready E self None stepping).
Proof.
  unfold _server_ready, _model_status, next, record. repeat keeps_step.
  all: try apply _run_case_local.
  all: try apply _load_model_local.
  all: apply get_outputs_local.
Qed.

Lemma _cleanup_local remove_egg : keeps remote_view (_cleanup E remove_egg).
Proof. unfold _cleanup. repeat keeps_step. Qed.

Lemma setup_local replicate :
  sequential self = true -> keeps remote_view (setup E self replicate).
Proof.
  intros Hseq. unfold setup, get_case_iterator. rewrite Hseq. cbn [negb].
  repeat keeps_step. apply _cleanup_local.
Qed.

Lemma while_server_ready_local fuel :
  keeps remote_view (while_server_ready E self fuel).
Proof.
  induction fuel as [|fuel IH]; cbn [while_server_ready]; repeat keeps_step; auto.
  apply _server_ready_local.
Qed.

Lemma step_local fuel :
  sequential self = true -> keeps remote_view (step E self fuel).
Proof.
  intros Hseq. unfold step, next. repeat keeps_step.
  all: first [by apply setup_local|apply while_server_ready_local].
Qed.

Lemma sequential_loop_local n fuel :
  sequential self = true -> keeps remote_view (sequential_loop E self n fuel).
Proof.
  intros Hseq.
  induction n as [|n IH]; cbn [sequential_loop]; repeat keeps_step; auto.
  by apply step_local.
Qed.

Lemma keeps_try_finally {X A} (v : Sys W -> X) (m : M W A) f :
  keeps v m -> keeps v f -> keeps v (try_finally m f).
Proof.
  intros Hm Hf st. unfold try_finally. specialize (Hm st).
  destruct (m st) as [r st1]. specialize (Hf st1).
  destruct (f st1) as [[[]| |] st2]; cbn in *; congruence.
Qed.

(** X6.  A sequential run is evaluated in-process: however it ends, it
    has started no worker thread, has not called the allocator or the
    file transfer, has put nothing on a request or reply queue and has
    saved no egg. *)
Theorem sequential_run_is_in_process fuel sched st r st' :
  sequential self = true ->
  execute E self fuel sched st = (r, st') ->
  threads st' = threads st /\ trace st' = trace st /\
  reply_q st' = reply_q st /\ request_qs st' = request_qs st /\
  _replicants (drv st') = _replicants (drv st).
Proof.
  intros Hseq Hrun.
  assert (keeps remote_view (execute E self fuel sched)) as Hkeep.
  { unfold execute, resume. rewrite Hseq. repeat keeps_step.
    - by apply setup_local.
    - apply keeps_try_finally; [by apply sequential_loop_local|].
      apply _cleanup_local. }
  specialize (Hkeep st). rewrite Hrun in Hkeep. split_view Hkeep. by split_and!.
Qed.
End InProcess.

Section Capacity.
Context {W : Type} (E : Env W) (self : Traits).
Implicit Types st : Sys W.

Lemma _service_loop_step_same_threads k st r st' k' :
  _service_loop_step E k st = (r, st') ->
  is_Some (threads st' !! k') <-> is_Some (threads st !! k').
Proof.
  intros Hrun. unfold _service_loop_step, log, reply_put, set_thread in Hrun.
  mexpose Hrun.
  destruct (threads st !! k) as [t|] eqn:Hk; [|by injection Hrun as <- <-].
  assert (forall t', threads st' = <[k := t']> (threads st) ->
            is_Some (threads st' !! k') <-> is_Some (threads st !! k')) as Hgoal.
  { intros t' ->. by eapply same_threads_insert. }
  destruct t as [|h|h|h res|h|]; mexpose Hrun.
  - destruct (RAM_allocate E k (world st)) as [w [h|]]; mexpose Hrun.
    + injection Hrun as <- <-. by eapply Hgoal.
    + destruct (_reply_q (drv st)); mexpose Hrun; injection Hrun as <- <-;
        by eapply Hgoal.
  - destruct (_server_lock (drv st)); mexpose Hrun; injection Hrun as <- <-;
      by eapply Hgoal.
  - injection Hrun as <- <-. by eapply Hgoal.
  - destruct (request_qs st !! k) as [[|[req|] rest]|]; mexpose Hrun.
    1,4: by injection Hrun as <- <-.
    + match type of Hrun with context [serve E req ?x] =>
        pose proof (serve_wire E req x) as Hv;
        destruct (serve E req x) as [r1 st1] eqn:Hserve end.
      split_view Hv. cbn in Hv0.
      destruct r1 as [x|e|]; mexpose Hrun.
      * injection Hrun as <- <-. eapply Hgoal. cbn. by rewrite Hv0.
      * destruct res; mexpose Hrun; injection Hrun as <- <-;
          eapply Hgoal; cbn; by rewrite Hv0.
      * injection Hrun as <- <-. by rewrite Hv0.
    + injection Hrun as <- <-. by eapply Hgoal.
  - injection Hrun as <- <-. by eapply Hgoal.
  - by injection Hrun as <- <-.
Qed.

Lemma _start_step_startup_cap m n st r st' :
  _start_step E self (CStartup m n) st = (r, st') ->
  (threads st' = threads st /\ r <> Ok (CPoll m (S n))) \/
  (threads st' = <[S n := TAllocate]> (threads st) /\ (Z.of_nat n < m)%Z).
Proof.
  intros Hrun. unfold _start_step, next, set_thread in Hrun. mexpose Hrun.
  destruct (Z.of_nat n <? m)%Z eqn:Hlt; mexpose Hrun;
    [|injection Hrun as <- <-; by left].
  apply Z.ltb_lt in Hlt.
  repeat match type of Hrun with
         | context [if ?c then _ else _] => destruct c; mexpose Hrun
         end.
  all: try (injection Hrun as <- <-; by left).
  all: destruct (_iter (drv st)) as [[|c rest]|]; mexpose Hrun.
  all: repeat match type of Hrun with
         | context [if ?c then _ else _] => destruct c; mexpose Hrun
         end.
  all: injection Hrun as <- <-; auto.
  all: by left.
Qed.

Lemma _start_step_capped M pc st r st' :
  _start_step E self pc st = (r, st') ->
  capped M pc st ->
  capped M CMain st' /\ forall pc', r = Ok pc' -> capped M pc' st'.
Proof.
  intros Hrun [Hall Hpc].
  assert (forall pc', r = Ok pc' -> follows pc pc') as Hnext.
  { intros pc' ->. by eapply ensures_run; [apply _start_step_follows|]. }
  assert ((exists m n, pc = CStartup m n) \/ forall m n, pc <> CStartup m n)
    as [(m & n & ->)|Hno] by (destruct pc; eauto; by right).
  - destruct Hpc as (-> & Hn & Hkeys).
    apply _start_step_startup_cap in Hrun as [[Hth Hr]|[Hth Hlt]].
    + rewrite <- Hth in Hall, Hkeys. split; [by split|].
      intros pc' ->. by destruct (Hnext _ eq_refl) as [->| ->].
    + assert (forall k, is_Some (threads st' !! k) ->
                k <= S n /\ 1 <= k /\ (Z.of_nat k <= M)%Z) as Hnew.
      { intros k. rewrite Hth. destruct (decide (k = S n)) as [->|Hne].
        - intros _. lia.
        - rewrite lookup_insert_ne by done. intros Hk.
          specialize (Hkeys k Hk). specialize (Hall k Hk). lia. }
      split.
      * split; [intros k Hk; by apply Hnew|done].
      * intros pc' ->. destruct (Hnext _ eq_refl) as [->| ->].
        -- split; [|done]. intros k Hk. by apply Hnew.
        -- split; [intros k Hk; by apply Hnew|].
           split_and!; [done|lia|]. intros k Hk. by apply Hnew.
  - pose proof (_start_step_threads E self pc Hno st) as Hv. rewrite Hrun in Hv.
    split_view Hv. cbn in Hv. rewrite <- Hv in Hall, Hpc.
    split; [by split|]. intros pc' ->. specialize (Hnext _ eq_refl).
    split; [done|].
    destruct pc as [m n|m n| |i| |e]; cbn in Hnext.
    + by destruct (Hno m n).
    + by destruct Hnext as [->| ->].
    + by destruct Hnext as [->|[i ->]].
    + by destruct Hnext as [->|(j & -> & _)].
    + by subst.
    + by subst.
Qed.

Lemma run_schedule_capped M sched pc st r st' :
  run_schedule E self sched pc st = (r, st') ->
  capped M pc st -> capped M CMain st'.
Proof.
  revert pc st. induction sched as [|a sched IH]; intros pc st Hrun Hcap.
  { assert (st' = st) as -> by (destruct pc; by injection Hrun as <- <-).
    by destruct Hcap. }
  assert ((pc = CDone \/ exists e, pc = CRaised e) \/
          (pc <> CDone /\ forall e, pc <> CRaised e)) as [Hfin|[Hd He]]
    by (destruct pc; eauto; by right).
  { assert (st' = st) as ->.
    { destruct Hfin as [->|[e ->]].
      - rewrite run_schedule_done in Hrun. by injection Hrun as <- <-.
      - rewrite run_schedule_raised in Hrun. by injection Hrun as <- <-. }
    by destruct Hcap. }
  destruct a as [|k|].
  - assert ((pc' ← try_except (_start_step E self pc)
                      (fun exc => mret (CRaised exc));
             run_schedule E self sched pc') st = (r, st')) as Hrun'.
    { destruct pc; try done; by destruct (He e). }
    clear Hrun. rewrite bind_run, try_except_raw in Hrun'.
    destruct (_start_step E self pc st) as [r1 st1] eqn:Hstep.
    apply (_start_step_capped M) in Hstep as [Hany Hok]; [|done].
    destruct r1 as [pc1|e|]; cbn in Hrun'.
    + eapply IH; [exact Hrun'|]. by apply Hok.
    + eapply IH; [exact Hrun'|]. by destruct Hany.
    + by injection Hrun' as <- <-.
  - assert ((_service_loop_step E k;; run_schedule E self sched pc) st = (r, st'))
      as Hrun'.
    { destruct pc; try done; by destruct (He e). }
    clear Hrun. rewrite bind_run in Hrun'.
    destruct (_service_loop_step E k st) as [r1 st1] eqn:Hstep.
    assert (capped M pc st1) as Hcap1.
    { destruct Hcap as [Hall Hpc]. split.
      - intros k' Hk'. apply Hall.
        by apply (_service_loop_step_same_threads _ _ _ _ k' Hstep).
      - destruct pc; try done; destruct Hpc as (? & ? & Hkeys); split_and!;
          try done; intros k' Hk'; apply Hkeys;
          by apply (_service_loop_step_same_threads _ _ _ _ k' Hstep). }
    destruct r1 as [[]|e|]; cbn in Hrun'.
    + by eapply IH.
    + injection Hrun' as <- <-. by destruct Hcap1.
    + injection Hrun' as <- <-. by destruct Hcap1.
  - eapply (IH pc (set_drv (set_stop true (drv st)) st)); [|done].
    destruct pc; try done; by destruct (He e).
Qed.

(** X7.  [_start] never has more worker threads than the allocator
    announced: started with no thread alive, every thread there is at any
    later point is one of the workers numbered 1 to [max_servers]. *)
Theorem workers_within_capacity sched st r st' k :
  threads st = ∅ ->
  _start E self sched st = (r, st') ->
  is_Some (threads st' !! k) ->
  1 <= k /\ (Z.of_nat k <= RAM_max_servers E (world st))%Z.
Proof.
  intros Hth Hrun. unfold _start, _start_init, raise_exception in Hrun.
  mexpose Hrun.
  destruct (RAM_max_servers E (world st) <=? 0)%Z eqn:Hcap; mexpose Hrun.
  { injection Hrun as <- <-. rewrite Hth, lookup_empty. by intros [? ?]. }
  match type of Hrun with context [run_schedule E self sched ?pc ?x] =>
    destruct (run_schedule E self sched pc x) as [r1 st1] eqn:Hsched end.
  apply (run_schedule_capped (RAM_max_servers E (world st))) in Hsched as [Hall _].
  - assert (st' = st1) as ->; [|apply Hall].
    destruct r1 as [[]| |]; mexpose Hrun; by injection Hrun as <- <-.
  - apply Z.leb_gt in Hcap. split; cbn.
    + intros k'. rewrite Hth, lookup_empty. by intros [? ?].
    + split_and!; [done|lia|]. intros k'. rewrite Hth, lookup_empty. by intros [? ?].
Qed.
End Capacity.

Section Failures.
Context {W : Type} (E : Env W) (self : Traits).
Implicit Types st : Sys W.

(** X8.  When the in-process model refuses the first event of
    [get_events()], the handler in [_run_case] fails on its own message
    (it formats it with [name], which is not bound yet): [_run_case] ends
    with [UnboundLocalError], not with the server error it means to
    raise, so that the case is neither retried nor recorded. *)
Theorem failing_event_is_not_handled case rerun st ev rest text :
  get_events self = ev :: rest ->
  (parent_set E ev 1%Z None (world st)).2 = Raises text ->
  exists st',
    _run_case E self case None rerun st = (Raise UnboundLocalError, st') /\
    recorded st' = recorded st /\ _rerun (drv st') = _rerun (drv st) /\
    _server_states (drv st') = _server_states (drv st).
Proof.
  intros Hev Hset.
  destruct (_run_case E self case None rerun st) as [r st'] eqn:Hrun.
  exists st'. pose proof Hrun as Heff. apply _run_case_effect in Heff.
  unfold _run_case in Hrun. rewrite Hev in Hrun. cbn [set_events] in Hrun.
  unfold _model_set, call in Hrun. mexpose Hrun.
  destruct (parent_set E ev 1%Z None (world st)) as [w o]. cbn in Hset. subst o.
  mexpose Hrun. injection Hrun as <- <-. split; [done|]. cbn. by split_and!.
Qed.

(** X9.  When a request raises in a worker thread, the reply carries the
    result of the request before it; for the first request of the thread
    there is none ([result] is unbound), and the thread leaves its loop
    without a reply, on to the release of its server. *)
Theorem failed_request_reply k h res req rest st e st1 :
  threads st !! k = Some (TServe h res) ->
  request_qs st !! k = Some (Some req :: rest) ->
  serve E req (set_request_qs (<[k := rest]> (request_qs st)) st) = (Raise e, st1) ->
  exists st',
    _service_loop_step E k st = (Ok (), st') /\
    match res with
    | Some x =>
        reply_q st' = reply_q st1 ++ [(Some k, x, Some e)] /\
        threads st' !! k = Some (TServe h (Some x))
    | None =>
        reply_q st' = reply_q st1 /\ threads st' !! k = Some (TRelease h)
    end.
Proof.
  intros Hk Hq Hserve.
  destruct (_service_loop_step E k st) as [r st'] eqn:Hrun.
  unfold _service_loop_step, reply_put, set_thread in Hrun. mexpose Hrun.
  rewrite Hk in Hrun. mexpose Hrun. rewrite Hq in Hrun. mexpose Hrun.
  rewrite Hserve in Hrun. mexpose Hrun.
  destruct res as [x|]; mexpose Hrun; injection Hrun as <- <-.
  all: eexists; split; [reflexivity|]; cbn; by rewrite lookup_insert_eq.
Qed.

(** X10.  In-process, [_model_execute] keeps what [workflow.run()]
    raised, and [_model_status] right after hands back exactly that:
    the exception, or [None] if the workflow returned. *)
Theorem status_after_execute st :
  let '(w, stopped, r) := workflow_run E (world st) in
  exists st',
    (_model_execute E None;; _model_status None) st =
      (Ok (match r with
           | Returns _ => None
           | Raises text => Some (Exception text)
           end), st') /\
    world st' = w /\ _stop (drv st') = _stop (drv st) || stopped /\
    recorded st' = recorded st.
Proof.
  destruct (workflow_run E (world st)) as [[w stopped] r] eqn:Hw.
  destruct ((_model_execute E None;; _model_status None) st) as [r1 st'] eqn:Hrun.
  unfold _model_execute, _model_status, stop, getitem in Hrun. mexpose Hrun.
  rewrite Hw in Hrun. mexpose Hrun.
  destruct stopped, r as [[]|text]; mexpose Hrun.
  all: rewrite ?lookup_insert_eq in Hrun; mexpose Hrun.
  all: rewrite ?lookup_insert_eq in Hrun; mexpose Hrun.
  all: injection Hrun as <- <-; eexists; split; [reflexivity|]; cbn.
  all: by rewrite ?orb_true_r, ?orb_false_r.
Qed.
End Failures.

Section Outputs.
Context {W : Type} (E : Env W) (self : Traits).
Implicit Types st : Sys W.

Lemma _model_get_total s name idx st : (_model_get E s name idx st).1 <> OutOfFuel.
Proof.
  unfold _model_get, getitem, call. destruct s as [k|]; msimpl.
  - destruct (_top_levels (drv st) !! Some k) as [t|]; msimpl; [|done].
    by destruct (tlo_get E t name idx (world st)) as [w [?|?]].
  - by destruct (parent_get E name idx (world st)) as [w [?|?]].
Qed.

Lemma get_outputs_shape s pending done case st :
  exists c' st' outs,
    get_outputs E self s pending done case st = (Ok c', st') /\
    Case.outputs c' = done ++ outs /\
    outs.*1 = pending.*1 /\
    Case.cid c' = Case.cid case /\ Case.inputs c' = Case.inputs case /\
    Case.retries c' = Case.retries case /\
    Case.max_retries c' = Case.max_retries case.
Proof.
  revert done case st.
  induction pending as [|[[name idx] old] rest IH]; intros done case st;
    cbn [get_outputs].
  - exists (Case.set_outputs done case), st, []. rewrite app_nil_r. by split_and!.
  - rewrite bind_run, try_except_raw, bind_run.
    pose proof (_model_get_total s name idx st) as Hno.
    destruct (_model_get E s name idx st) as [[v|e|] st1]; cbn; [| |done].
    + destruct (IH (done ++ [(name, idx, Some v)]) case st1)
        as (c' & st' & outs & -> & Ho & Hn & Hc & Hi & Hr & Hm).
      exists c', st', ((name, idx, Some v) :: outs).
      rewrite Ho, <- app_assoc. cbn. rewrite Hn. by split_and!.
    + destruct (IH (done ++ [(name, idx, old)])
                  (Case.set_msg (Some (get_pathname self +:+ ": " +:+
                     ("Exception getting '" +:+ name +:+ "': " +:+ str e))) case) st1)
        as (c' & st' & outs & -> & Ho & Hn & Hc & Hi & Hr & Hm).
      exists c', st', ((name, idx, old) :: outs).
      rewrite Ho, <- app_assoc. cbn. rewrite Hn. by split_and!.
Qed.

(** X11.  The loop of the [_COMPLETE] branch that collects the outputs
    always comes to its end, also when the model cannot be read: the case
    it hands on has the same outputs by name and index, in the same order,
    and the same identity, inputs and retry counters; only values and the
    message are filled in, and the scheduler's books are not touched. *)
Theorem outputs_are_collected_in_place s case st :
  exists c' st',
    get_outputs E self s (Case.outputs case) [] case st = (Ok c', st') /\
    (Case.outputs c').*1 = (Case.outputs case).*1 /\
    length (Case.outputs c') = length (Case.outputs case) /\
    Case.cid c' = Case.cid case /\ Case.inputs c' = Case.inputs case /\
    Case.retries c' = Case.retries case /\
    Case.max_retries c' = Case.max_retries case /\
    sched_view st' = sched_view st.
Proof.
  destruct (get_outputs_shape s (Case.outputs case) [] case st)
    as (c' & st' & outs & Hrun & Ho & Hn & Hc & Hi & Hr & Hm).
  exists c', st'. cbn in Ho. rewrite Ho.
  pose proof (get_outputs_sched E self s (Case.outputs case) [] case st) as Hv.
  rewrite Hrun in Hv. split_and!; try done.
  by rewrite <- (length_fmap fst outs), Hn, length_fmap.
Qed.
End Outputs.

Section SetupAndCleanup.
Context {W : Type} (E : Env W) (self : Traits).
Implicit Types st : Sys W.

(** X12.  [_cleanup] empties every per-server dictionary and both queues
    and leaves the iterator, the stop flag and the recorder alone.  It does
    not look at its argument: the egg file is removed, and its name
    forgotten, whenever the driver has one and the file exists, also under
    [remove_egg = False]. *)
Theorem cleanup_resets remove_egg st :
  exists st',
    _cleanup E remove_egg st = (Ok (), st') /\
    _cleanup E (negb remove_egg) st = (Ok (), st') /\
    clean (drv st') /\
    _iter (drv st') = _iter (drv st) /\ _stop (drv st') = _stop (drv st) /\
    _replicants (drv st') = _replicants (drv st) /\
    recorded st' = recorded st /\
    match _egg_file (drv st) with
    | Some f =>
        if negb (String.eqb f "") && path_exists E f (world st)
        then world st' = os_remove E f (world st) /\ _egg_file (drv st') = None
        else world st' = world st /\ _egg_file (drv st') = Some f
    | None => world st' = world st /\ _egg_file (drv st') = None
    end.
Proof.
  destruct st as [[f1 f2 f3 f4 f5 f6 f7 f8 f9 f10 f11 f12 f13 f14 f15 f16]
                    w0 rec rq rqs th tr].
  unfold _cleanup, clean. mcompute. destruct f4 as [f|]; cbn.
  - destruct (negb (String.eqb f "") && path_exists E f w0);
      eexists; split_and!; reflexivity.
  - eexists; split_and!; reflexivity.
Qed.

End SetupAndCleanup.

Section Edges.
Context {W : Type} (E : Env W) (self : Traits).
Implicit Types st : Sys W.

(** X14.  The reply of a worker whose allocation failed (its entry in
    [_servers] is still [None], it has no queue) is tolerated by the poll
    of the startup loop, which marks the server as not in use; read by the
    main loop while there is work left, the same reply ends [_start] with
    [KeyError], from [self._queues[server]] in [_load_model]. *)
Theorem late_startup_failure k res exc rest st :
  reply_q st = (Some k, res, exc) :: rest ->
  _busy (drv st) = true ->
  _servers (drv st) !! Some k = Some None ->
  _server_states (drv st) !! Some k = Some _EMPTY ->
  _queues (drv st) !! Some k = None ->
  _todo (drv st) <> [] ->
  let st1 := set_reply_q_obj rest st in
  (forall m n,
     _start_step E self (CPoll m n) st =
       (Ok (CPoll m n),
        set_drv (set_in_use (<[Some k := false]> (_in_use (drv st))) (drv st)) st1)) /\
  _start_step E self CMain st = (Raise KeyError, st1).
Proof.
  intros Hq Hbusy Hsrv Hstate Hqueue Htodo st1. split.
  - intros m n. destruct (_start_step E self (CPoll m n) st) as [r st'] eqn:Hrun.
    unfold _start_step, reply_get, getitem in Hrun. mexpose Hrun.
    rewrite Hbusy, Hq in Hrun. mexpose Hrun. rewrite Hsrv in Hrun. by mexpose Hrun.
  - destruct (_start_step E self CMain st) as [r st'] eqn:Hrun.
    unfold _start_step, reply_get in Hrun. mexpose Hrun.
    rewrite Hbusy, Hq in Hrun. mexpose Hrun.
    unfold _server_ready, _load_model, queue_put, getitem in Hrun. mexpose Hrun.
    rewrite Hstate in Hrun. mexpose Hrun.
    destruct (_todo (drv st)) as [|c todo]; [done|].
    cbn [truthy_list negb andb] in Hrun. mexpose Hrun.
    rewrite Hqueue in Hrun. by mexpose Hrun.
Qed.

(** X15.  [step()] with the iterator exhausted and nothing to rerun
    raises [StopIteration] and marks the run as complete; a [resume()]
    after that raises [RuntimeError], and nothing has been evaluated or
    recorded on the way. *)
Theorem step_at_the_end fuel sched remove_egg st :
  _iter (drv st) = Some [] -> _rerun (drv st) = [] ->
  exists st1,
    step E self fuel st = (Raise StopIteration, st1) /\
    _iter (drv st1) = None /\ recorded st1 = recorded st /\ world st1 = world st /\
    resume E self fuel sched remove_egg st1 =
      (Raise (RuntimeError (exception_text self "Run already complete")), st1).
Proof.
  intros Hiter Hrerun.
  destruct (step E self fuel st) as [r st1] eqn:Hrun.
  unfold step, next in Hrun. mexpose Hrun.
  rewrite Hiter in Hrun. rewrite bool_decide_eq_false_2 in Hrun by done.
  mexpose Hrun. rewrite Hiter in Hrun. mexpose Hrun.
  rewrite Hrerun in Hrun. mexpose Hrun. injection Hrun as <- <-.
  eexists. split; [reflexivity|]. by split_and!.
Qed.

(** X16.  When [server.load_model] gives nothing back, or raises,
    [_remote_load_model] leaves the top-level object of an earlier load in
    place; only a load that worked replaces it. *)
Theorem failed_load_keeps_old_model s st r st' :
  _remote_load_model E s st = (r, st') ->
  match r with
  | Ok true => exists t, _top_levels (drv st') = <[s := t]> (_top_levels (drv st))
  | _ => _top_levels (drv st') = _top_levels (drv st)
  end.
Proof.
  intros Hrun. unfold _remote_load_model, getitem, log, call in Hrun. mexpose Hrun.
  destruct (_server_info (drv st) !! s) as [cached|]; mexpose Hrun;
    [|by injection Hrun as <- <-].
  destruct (bool_decide (cached = _egg_file (drv st))); mexpose Hrun.
  - destruct (_servers (drv st) !! s) as [[h|]|]; mexpose Hrun.
    2,3: by injection Hrun as <- <-.
    match type of Hrun with context [server_load_model E ?h ?e ?w0] =>
      destruct (server_load_model E h e w0) as [w' [[t|]|text]] end; mexpose Hrun.
    all: injection Hrun as <- <-; cbn; eauto.
  - destruct (_servers (drv st) !! s) as [h|] eqn:Hsrv; mexpose Hrun;
      [|by injection Hrun as <- <-].
    match type of Hrun with context [filexfer E ?h ?e ?w0] =>
      destruct (filexfer E h e w0) as [w [[]|text]] end; mexpose Hrun;
      [|by injection Hrun as <- <-].
    rewrite Hsrv in Hrun. mexpose Hrun.
    destruct h as [h|]; mexpose Hrun; [|by injection Hrun as <- <-].
    match type of Hrun with context [server_load_model E ?h ?e ?w0] =>
      destruct (server_load_model E h e w0) as [w' [[t|]|text]] end; mexpose Hrun.
    all: injection Hrun as <- <-; cbn; eauto.
Qed.

(** X17.  A worker thread never touches the scheduler's books: whatever
    a step of [_service_loop] does, the recorder, [_todo], [_rerun], the
    iterator, the states and cases of the servers, [_in_use] and the stop
    flag are as before.  Only the coordinator writes them. *)
Theorem workers_leave_the_books_alone k st :
  sched_view (_service_loop_step E k st).2 = sched_view st.
Proof. apply _service_loop_step_sched. Qed.
End Edges.

Section RetryLimit.
Context {W : Type} (E : Env W) (self : Traits).
Implicit Types st : Sys W.

Lemma prepare_first_within_limit case : within_limit (prepare self case false).
Proof. left. unfold prepare. by destruct (negb _). Qed.

Lemma prepare_rerun_within_limit case :
  within_limit case -> within_limit (prepare self case true).
Proof. by intros [?|?]; [left|right]. Qed.

Lemma run_rel_within_limit case rerun b b' :
  within_limit (prepare self case rerun) ->
  run_rel self case rerun b b' ->
  Forall within_limit (b_recorded b) -> Forall within_limit (b_rerun b) ->
  Forall within_limit (b_recorded b') /\ Forall within_limit (b_rerun b') /\
  forall c, b_case b' = Some (Some c) -> within_limit c.
Proof.
  intros Hc Hrun Hrec Hrerun.
  assert (lt_int_opt (Case.retries (prepare self case rerun))
            (Case.max_retries (prepare self case rerun)) = true ->
          within_limit (Case.set_retries
                          (Case.retries (prepare self case rerun) + 1)
                          (prepare self case rerun))) as Hretry.
  { unfold lt_int_opt. destruct (Case.max_retries _) as [z|] eqn:Hz; [|done].
    intros Hlt%Z.ltb_lt. right. exists z. cbn. split; [done|lia]. }
  destruct Hrun as [stop' Hs|stop' c0 c1 Hs Hlt|stop' t c0 c1 Hs Hlt]; cbn.
  - split_and!; try done. by intros c [= <-].
  - split_and!; try done.
    + apply Forall_app. split; [done|]. constructor; [|done]. by apply Hretry.
    + intros c [= <-]. by apply Hretry.
  - assert (within_limit c1) as Hc1 by (by destruct Hc; [left|right]).
    split_and!; try done.
    + apply Forall_app. split; [done|]. unfold record_if.
      destruct (recorder self); [|done]. by constructor.
    + by intros c [= <-].
Qed.

(** X18.  No case is retried more often than its limit allows: if every
    case recorded, queued for a rerun or handed to a server has
    [retries = 0] or [retries <= max_retries], the same holds after any
    call of [_server_ready] that returns. *)
Theorem retries_stay_within_limit s stepping st b st' :
  limits_kept st ->
  _server_ready E self s stepping st = (Ok b, st') ->
  limits_kept st'.
Proof.
  intros (Hrec & Hrerun & Hcases) Hrun.
  apply _server_ready_refines in Hrun as (Htick & Hoff & _).
  assert (Forall within_limit (b_recorded (books s st')) /\
          Forall within_limit (b_rerun (books s st')) /\
          forall c, b_case (books s st') = Some (Some c) -> within_limit c)
    as (Hrec' & Hrerun' & Hcase').
  { remember (books s st) as b0 eqn:Hb0. remember (books s st') as b1 eqn:Hb1.
    assert (Forall within_limit (b_recorded b0)) as H0 by (by subst b0).
    assert (Forall within_limit (b_rerun b0)) as H1 by (by subst b0).
    assert (forall c, b_case b0 = Some (Some c) -> within_limit c) as H2.
    { subst b0. intros c Hc. by apply (Hcases s). }
    assert (Forall within_limit (b_todo b0) \/ True) as _ by (by right).
    clear Hb0 Hb1 Hoff Hrec Hrerun Hcases.
    destruct Htick as [Hs|Hs|Hs|c todo b' Hs Hstop Htodo Hrel
                      |c rerun b' Hs Hstop Htodo Hrr Hrel
                      |Hs|Hs|c rest b' Hs Hstop Htodo Hrr Hiter Hstep Hrel
                      |c c' Hs Hc Hh|Hs]; cbn; try done.
    - eapply run_rel_within_limit; [|exact Hrel|done..].
      apply prepare_first_within_limit.
    - rewrite Hrr in H1. apply Forall_cons in H1 as [Hc Hrest].
      eapply run_rel_within_limit; [|exact Hrel|done..].
      by apply prepare_rerun_within_limit.
    - eapply run_rel_within_limit; [|exact Hrel|done..].
      apply prepare_first_within_limit.
    - split_and!; try done.
      apply Forall_app. split; [done|]. unfold record_if.
      destruct (recorder self); [|done]. constructor; [|done].
      destruct Hh as (_ & _ & Hm & Hr). specialize (H2 c Hc).
      unfold within_limit. rewrite Hm, Hr. exact H2. }
  split_and!; try done.
  intros s' c Hc. destruct (decide (s' = s)) as [->|Hne].
  - by apply Hcase'.
  - destruct (Hoff s' Hne) as [_ Hsame]. rewrite Hsame in Hc. by apply (Hcases s').
Qed.
End RetryLimit.

Section EggOfTheRun.
Context {W : Type} (E : Env W) (self : Traits).
Implicit Types st : Sys W.

Lemma _server_ready_egg s stepping : keeps egg_view (_server_ready E self s stepping).
Proof.
  assert (forall s' item, keeps (W:=W) egg_view (queue_put s' item)) as Hput.
  { intros s' item. unfold queue_put. repeat keeps_step. }
  assert (forall s', keeps (W:=W) egg_view (_load_model s')) as Hload.
  { intros s'. unfold _load_model. repeat keeps_step. all: apply Hput. }
  assert (forall s' name idx v, keeps egg_view (_model_set E s' name idx v)) as Hset.
  { intros. unfold _model_set. repeat keeps_step. }
  assert (forall s' name idx, keeps egg_view (_model_get E s' name idx)) as Hget.
  { intros. unfold _model_get. repeat keeps_step. }
  assert (forall s' events, keeps egg_view (set_events E s' events)) as Hev.
  { intros s' events. induction events as [|ev rest IH]; cbn [set_events];
      repeat keeps_step; auto. }
  assert (forall s' inputs, keeps egg_view (set_inputs E self s' inputs)) as Hin.
  { intros s' inputs. induction inputs as [|[[name idx] v] rest IH];
      cbn [set_inputs]; repeat keeps_step; auto. }
  assert (forall s' pending done case,
            keeps egg_view (get_outputs E self s' pending done case)) as Hout.
  { intros s' pending. induction pending as [|[[name idx] old] rest IH];
      intros done case; cbn [get_outputs]; repeat keeps_step; auto. }
  assert (forall s', keeps egg_view (_model_execute E s')) as Hex.
  { intros s'. unfold _model_execute, stop. repeat keeps_step. all: apply Hput. }
  assert (forall case s' rerun, keeps egg_view (_run_case E self case s' rerun))
    as Hrun.
  { intros. unfold _run_case, record. repeat keeps_step; auto. }
  unfold _server_ready, _model_status, next, record. repeat keeps_step; auto.
Qed.

Lemma _service_loop_step_egg k : keeps egg_view (_service_loop_step E k).
Proof.
  unfold _service_loop_step, serve, _remote_load_model, _remote_model_execute,
    log, reply_put, set_thread.
  repeat keeps_step.
Qed.

Lemma _start_step_egg pc : keeps egg_view (_start_step E self pc).
Proof.
  unfold _start_step, reply_get, shut_down_servers, set_thread, next.
  repeat keeps_step. all: apply _server_ready_egg.
Qed.

Lemma run_schedule_egg sched pc : keeps egg_view (run_schedule E self sched pc).
Proof.
  revert pc. induction sched as [|a sched IH]; intros pc.
  - destruct pc; apply keeps_ret.
  - destruct pc, a; cbn [run_schedule]; unfold stop; repeat keeps_step; auto.
    all: first [apply _start_step_egg|apply _service_loop_step_egg].
Qed.

(** X19.  The egg of a concurrent run is fixed: neither the coordinator
    in [_start] nor any worker thread assigns [_egg_file], however [_start]
    ends, so that a worker whose cached name is the current one stays up
    to date for the rest of the run. *)
Theorem egg_is_fixed_during_start sched st :
  _egg_file (drv (_start E self sched st).2) = _egg_file (drv st).
Proof.
  assert (keeps egg_view (_start E self sched)) as Hkeep.
  { unfold _start, _start_init. repeat keeps_step. apply run_schedule_egg. }
  apply Hkeep.
Qed.
End EggOfTheRun.

Section CleansUp.
Context {W : Type} (E : Env W) (self : Traits).
Implicit Types st : Sys W.

Lemma try_finally_final {A} (P : Sys W -> Prop) (m : M W A) f :
  (forall st, P (f st).2) -> forall st, P (try_finally m f st).2.
Proof.
  intros Hf st. unfold try_finally. destruct (m st) as [r st1].
  specialize (Hf st1). by destruct (f st1) as [[[]| |] st2].
Qed.

Lemma _cleanup_clean remove_egg st : clean (drv (_cleanup E remove_egg st).2).
Proof.
  destruct (_cleanup_run E remove_egg st) as (w & egg_file & ->).
  unfold clean. cbn. by split_and!.
Qed.

Lemma setup_clean replicate st : clean (drv (setup E self replicate st).2).
Proof.
  destruct (setup E self replicate st) as [r st'] eqn:Hrun. cbn.
  unfold setup in Hrun.
  destruct (_cleanup_run E replicate st) as (w & egg_file & Hclean).
  rewrite bind_run, Hclean in Hrun. unfold get_case_iterator, raise_exception in Hrun.
  unfold clean.
  destruct (sequential self); mexpose Hrun.
  - destruct (iterator self) as [cases|]; mexpose Hrun;
      injection Hrun as <- <-; cbn; by split_and!.
  - match type of Hrun with
    | context [if ?c then _ else _] => destruct c
    end; mexpose Hrun.
    + destruct (save_to_egg E (S (_replicants (drv st))) w) as [w' egg_info].
      mexpose Hrun.
      destruct (iterator self) as [cases|]; mexpose Hrun;
        injection Hrun as <- <-; cbn; by split_and!.
    + destruct (iterator self) as [cases|]; mexpose Hrun;
        injection Hrun as <- <-; cbn; by split_and!.
Qed.

Lemma resume_cleans_up fuel sched remove_egg st :
  _iter (drv st) <> None ->
  clean (drv (resume E self fuel sched remove_egg st).2).
Proof.
  intros Hiter.
  destruct (resume E self fuel sched remove_egg st) as [r st'] eqn:Hrun. cbn.
  unfold resume, raise_exception in Hrun. mexpose Hrun.
  rewrite bool_decide_eq_false_2 in Hrun by done. mexpose Hrun.
  match type of Hrun with
  | context [try_finally ?m ?f ?s0] =>
      pose proof (try_finally_final (fun s => clean (drv s)) m f
                    (_cleanup_clean remove_egg) s0) as Hfin;
      destruct (try_finally m f s0) as [r1 st1]
  end.
  cbn in Hfin.
  destruct r1 as [[]| |]; [destruct (_stop (drv st1))|..]; by injection Hrun as <- <-.
Qed.

(** X20.  A run always cleans up after itself: however [execute] ends, and
    however a [resume] that found a run to resume ends, by returning, with
    [RunStopped] or with an error out of the evaluation, the [finally]
    clause has emptied the per-server dictionaries and both queues. *)
Theorem run_always_cleans_up fuel sched remove_egg st :
  clean (drv (execute E self fuel sched st).2) /\
  (_iter (drv st) <> None ->
   clean (drv (resume E self fuel sched remove_egg st).2)).
Proof.
  split; [|apply resume_cleans_up].
  unfold execute. rewrite bind_run.
  pose proof (setup_clean true st) as Hclean.
  destruct (setup E self true st) as [r st1] eqn:Hsetup.
  pose proof (setup_run E self true st r st1 Hsetup) as Hsetup'.
  destruct r as [[]|e|]; [|done..].
  destruct Hsetup' as (cases & w & replicants & egg_file & _ & ->).
  by apply resume_cleans_up.
Qed.
End CleansUp.

(** * The properties above at concrete systems *)


Lemma server_state_machine_witness :
  let self := some_traits true [] in
  let run := _server_ready (quiet 1) self None false failed_system in
  run.1 = Ok true /\
  (exists a a',
     _server_states (drv failed_system) !! None = Some a /\
     _server_states (drv run.2) !! None = Some a' /\ moves a a' /\
     (true = false -> a' = a /\ (a = _EMPTY \/ a = _READY))) /\
  agree_off None (drv failed_system) (drv run.2).
Proof.
  intros self run.
  assert (run = (Ok true, run.2)) as Hrun by (vm_compute; reflexivity).
  split; [by rewrite Hrun|].
  exact (server_state_machine (quiet 1) self None false failed_system true run.2 Hrun).
Defined.

Lemma step_keeps_every_case_witness :
  let self := some_traits true [] in
  let run := _server_ready (quiet 1) self None false ready_system in
  recorder self = true /\ run.1 = Ok true /\
  account run.2 ≡ₚ account ready_system.
Proof.
  intros self run.
  assert (run = (Ok true, run.2)) as Hrun by (vm_compute; reflexivity).
  split; [reflexivity|]. split; [by rewrite Hrun|].
  exact (step_keeps_every_case (quiet 1) self None false ready_system true run.2
           eq_refl Hrun).
Defined.

Lemma sequential_run_records_in_order_witness :
  let self := some_traits true [a_case 1 (Some 2%Z); a_case 2 None] in
  let run := execute (set_fails 2) self 10 [] (fresh 0) in
  recorder self = true /\ sequential self = true /\ run.1 = Ok () /\
  exists cases new,
    iterator self = Some cases /\
    recorded run.2 = recorded (fresh 0) ++ new /\
    cids new = cids cases.
Proof.
  intros self run.
  assert (run = (Ok (), run.2)) as Hrun by (vm_compute; reflexivity).
  split; [reflexivity|]. split; [reflexivity|]. split; [by rewrite Hrun|].
  exact (sequential_run_records_in_order (set_fails 2) self 10 [] (fresh 0) run.2
           eq_refl eq_refl Hrun).
Defined.

Lemma sequential_run_is_in_process_witness :
  let self := some_traits true [a_case 1 None; a_case 2 None] in
  let run := execute (run_fails 1) self 10 [] (fresh 0) in
  sequential self = true /\
  threads run.2 = threads (fresh 0) /\ trace run.2 = trace (fresh 0) /\
  reply_q run.2 = reply_q (fresh 0) /\ request_qs run.2 = request_qs (fresh 0) /\
  _replicants (drv run.2) = _replicants (drv (fresh 0)).
Proof.
  intros self run. split; [reflexivity|].
  exact (sequential_run_is_in_process (run_fails 1) self 10 [] (fresh 0) run.1 run.2
           eq_refl (run_eq _ _)).
Defined.

Lemma workers_within_capacity_witness :
  let self := some_traits false [a_case 1 None; a_case 2 None] in
  let st := (setup (quiet 2) self true (fresh 0)).2 in
  let run := _start (quiet 2) self (round_robin 2 2) st in
  threads st = ∅ /\ is_Some (threads run.2 !! 1) /\
  1 <= 1 /\ (Z.of_nat 1 <= RAM_max_servers (quiet 2) (world st))%Z.
Proof.
  intros self st run.
  assert (threads st = ∅) as Hnone by reflexivity.
  assert (is_Some (threads run.2 !! 1)) as Hone
    by (exists (TAckStartup 101); vm_compute; reflexivity).
  split; [exact Hnone|]. split; [exact Hone|].
  exact (workers_within_capacity (quiet 2) self (round_robin 2 2) st run.1 run.2 1
           Hnone (run_eq _ _) Hone).
Defined.

Lemma failing_event_is_not_handled_witness :
  let self := eventful [a_case 1 None] in
  let st := fresh 0 in
  get_events self = ["go"] /\
  (parent_set (set_fails 1) "go" 1%Z None (world st)).2 = Raises "boom" /\
  exists st',
    _run_case (set_fails 1) self (a_case 1 None) None false st =
      (Raise UnboundLocalError, st') /\
    recorded st' = recorded st /\ _rerun (drv st') = _rerun (drv st) /\
    _server_states (drv st') = _server_states (drv st).
Proof.
  intros self st. split; [reflexivity|]. split; [reflexivity|].
  exact (failing_event_is_not_handled (set_fails 1) self (a_case 1 None) false st
           "go" [] "boom" eq_refl eq_refl).
Defined.

Lemma failed_request_reply_witness :
  let req := _remote_load_model_req (Some 1) in
  let e := Exception "no model" in
  (* the request before this one had returned [True] *)
  (let st := serving_system (Some (RBool true)) in
   let run := serve reload_fails req (set_request_qs (<[1 := []]> (request_qs st)) st) in
   run.1 = Raise e /\
   exists st',
     _service_loop_step reload_fails 1 st = (Ok (), st') /\
     reply_q st' = reply_q run.2 ++ [(Some 1, RBool true, Some e)] /\
     threads st' !! 1 = Some (TServe 101 (Some (RBool true)))) /\
  (* it is the first request of the thread *)
  (let st := serving_system None in
   let run := serve reload_fails req (set_request_qs (<[1 := []]> (request_qs st)) st) in
   run.1 = Raise e /\
   exists st',
     _service_loop_step reload_fails 1 st = (Ok (), st') /\
     reply_q st' = reply_q run.2 /\ threads st' !! 1 = Some (TRelease 101)).
Proof.
  intros req e. split.
  - intros st run.
    assert (run = (Raise e, run.2)) as Hrun by (vm_compute; reflexivity).
    split; [by rewrite Hrun|].
    exact (failed_request_reply reload_fails 1 101 (Some (RBool true)) req [] st e run.2
             eq_refl eq_refl Hrun).
  - intros st run.
    assert (run = (Raise e, run.2)) as Hrun by (vm_compute; reflexivity).
    split; [by rewrite Hrun|].
    exact (failed_request_reply reload_fails 1 101 None req [] st e run.2
             eq_refl eq_refl Hrun).
Defined.


Lemma late_startup_failure_witness :
  let self := some_traits false [a_case 1 None] in
  let st := unserved_system in
  let st1 := set_reply_q_obj [] st in
  reply_q st = [(Some 1, RBool false, None)] /\
  _busy (drv st) = true /\
  _todo (drv st) <> [] /\
  (forall m n,
     _start_step (quiet 1) self (CPoll m n) st =
       (Ok (CPoll m n),
        set_drv (set_in_use (<[Some 1 := false]> (_in_use (drv st))) (drv st)) st1)) /\
  _start_step (quiet 1) self CMain st = (Raise KeyError, st1).
Proof.
  intros self st st1.
  assert (_busy (drv st) = true) as Hbusy by (vm_compute; reflexivity).
  assert (_todo (drv st) <> []) as Htodo by discriminate.
  split; [reflexivity|]. split; [exact Hbusy|]. split; [exact Htodo|].
  exact (late_startup_failure (quiet 1) self 1 (RBool false) None [] st
           eq_refl Hbusy eq_refl eq_refl eq_refl Htodo).
Defined.

Lemma step_at_the_end_witness :
  let self := some_traits true [] in
  let st := (setup (quiet 1) self true (fresh 0)).2 in
  _iter (drv st) = Some [] /\ _rerun (drv st) = [] /\
  exists st1,
    step (quiet 1) self 10 st = (Raise StopIteration, st1) /\
    _iter (drv st1) = None /\ recorded st1 = recorded st /\ world st1 = world st /\
    resume (quiet 1) self 10 [] true st1 =
      (Raise (RuntimeError (exception_text self "Run already complete")), st1).
Proof.
  intros self st. split; [reflexivity|]. split; [reflexivity|].
  exact (step_at_the_end (quiet 1) self 10 [] true st eq_refl eq_refl).
Defined.

Lemma failed_load_keeps_old_model_witness :
  let st := set_drv (set_top_levels {[Some 1 := 101]} (drv (serving_system None)))
              (serving_system None) in
  let run := _remote_load_model reload_fails (Some 1) st in
  run.1 = Raise (Exception "no model") /\
  _top_levels (drv run.2) = _top_levels (drv st).
Proof.
  intros st run.
  assert (run = (Raise (Exception "no model"), run.2)) as Hrun
    by (vm_compute; reflexivity).
  split; [by rewrite Hrun|].
  exact (failed_load_keeps_old_model reload_fails (Some 1) st _ run.2 Hrun).
Defined.

Lemma retries_stay_within_limit_witness :
  let self := some_traits true [] in
  let run := _server_ready (quiet 1) self None false ready_system in
  limits_kept ready_system /\ run.1 = Ok true /\ limits_kept run.2.
Proof.
  intros self run.
  assert (limits_kept ready_system) as Hkept.
  { split; [constructor|]. split; [repeat constructor; by left|].
    intros s c Hc. cbn in Hc. by rewrite lookup_empty in Hc. }
  assert (run = (Ok true, run.2)) as Hrun by (vm_compute; reflexivity).
  split; [exact Hkept|]. split; [by rewrite Hrun|].
  exact (retries_stay_within_limit (quiet 1) self None false ready_system true run.2
           Hkept Hrun).
Defined.

Lemma run_always_cleans_up_witness :
  let self := some_traits true [a_case 1 None; a_case 2 None] in
  let st := (setup stops self true (fresh 0)).2 in
  clean (drv (execute stops self 10 [] (fresh 0)).2) /\
  _iter (drv st) <> None /\
  clean (drv (resume stops self 10 [] true st).2).
Proof.
  intros self st.
  assert (_iter (drv st) <> None) as Hiter by (vm_compute; discriminate).
  destruct (run_always_cleans_up stops self 10 [] true (fresh 0)) as [Hexecute _].
  destruct (run_always_cleans_up stops self 10 [] true st) as [_ Hresume].
  split; [exact Hexecute|]. split; [exact Hiter|exact (Hresume Hiter)].
Defined.
